(** * flavor_app: the record store of the flavour dashboard

    A shallow embedding of the data handling of [flavor_analysis5.py] and
    [flavor_analysis7.py]: the table of (ingredient, compound, descriptor)
    records kept in [st.session_state.data], its write-through CSV file,
    the Excel import, [smart_add], [clear_db] and the strong/weak
    classification of secondary ingredients that both files compute before
    they draw a graph; then the choice of compounds on the analysis tab,
    the graph of [get_graph_data] and [draw_enhanced_network] with its
    edges and weights, and the data [viz_heatmap] and [viz_sankey] hand
    to their figures.  The layout and drawing calls, the fonts and the
    regular-expression search of the first tab are not modelled.

    The two files are near copies.  Where they differ (whitespace
    stripping and the messages shown) the definitions take the file as a
    [Version] argument. *)

From Stdlib Require Import List Bool Arith NArith ZArith Lia String Ascii Permutation
  Sorted QArith.
Import ListNotations.

Set Implicit Arguments.
Open Scope N_scope.

(** ** Python text

    A Python [str] is a sequence of Unicode code points. *)

Definition char := N.
Definition str := list char.

Definition str_eq_dec : forall a b : str, {a = b} + {a <> b} :=
  list_eq_dec N.eq_dec.

Definition str_eqb (a b : str) : bool :=
  if str_eq_dec a b then true else false.

(** An ASCII literal as Python text. *)
Definition lit (s : string) : str :=
  map N_of_ascii (list_ascii_of_string s).

(** Truth value of a [str]: the empty text is false, any other is true. *)
Definition truthy (s : str) : bool :=
  match s with [] => false | _ :: _ => true end.

(** [str.isspace] on one code point: the characters of bidirectional type
    WS, B or S, or of category Zs. *)
Definition py_isspace (c : char) : bool :=
  ((9 <=? c) && (c <=? 13)) || ((28 <=? c) && (c <=? 32))
  || (c =? 133) || (c =? 160) || (c =? 5760)
  || ((8192 <=? c) && (c <=? 8202))
  || (c =? 8232) || (c =? 8233) || (c =? 8239) || (c =? 8287)
  || (c =? 12288).

Fixpoint lstrip (s : str) : str :=
  match s with
  | [] => []
  | c :: t => if py_isspace c then lstrip t else s
  end.

Definition rstrip (s : str) : str := rev (lstrip (rev s)).

(** [s.strip()] *)
Definition strip (s : str) : str := rstrip (lstrip s).

(** ** Rows kept once: [drop_duplicates] and [unique]

    pandas keeps the first occurrence of each value and the order of the
    values that stay.  [seen] holds the values met so far. *)

Section KeepFirst.
Variable A : Type.
Variable eq_dec : forall a b : A, {a = b} + {a <> b}.

Fixpoint keep_unseen (seen l : list A) : list A :=
  match l with
  | [] => []
  | x :: t =>
      if in_dec eq_dec x seen then keep_unseen seen t
      else x :: keep_unseen (x :: seen) t
  end.

Definition keep_first (l : list A) : list A := keep_unseen [] l.
End KeepFirst.

(** ** Cells, rows and the table

    A cell as pandas hands it over after reading a file: a missing value,
    or a value given by the text [str(value)] that [astype(str)] turns it
    into. *)

Inductive Cell :=
| NaN
| Obj (text : str).

(** [.astype(str)] on one cell: a missing value becomes the text nan. *)
Definition astype_str (c : Cell) : str :=
  match c with
  | NaN => lit "nan"
  | Obj t => t
  end.

(** [.replace('nan', '')] on one cell: a cell that is exactly nan is
    emptied, any other is kept. *)
Definition replace_nan (t : str) : str :=
  if str_eqb t (lit "nan") then [] else t.

Definition normalize_cell (c : Cell) : str := replace_nan (astype_str c).

(** One record.  The columns are, in the source's words, the first
    (ingredient), second (compound and its English name) and third
    (flavour description) column of the table. *)
Record Row := mkRow {
  ingredient : str;
  compound : str;
  descriptor : str
}.

Definition DataFrame := list Row.

Definition Row_eq_dec : forall a b : Row, {a = b} + {a <> b}.
Proof. decide equality; apply str_eq_dec. Defined.

(** [df.drop_duplicates()] and [series.unique()] *)
Definition drop_duplicates (df : DataFrame) : DataFrame :=
  keep_first Row_eq_dec df.

Definition unique (values : list str) : list str :=
  keep_first str_eq_dec values.

(** [value in list] and [series.isin(list)] on one value *)
Definition isin (values : list str) (x : str) : bool :=
  if in_dec str_eq_dec x values then true else false.

(** A row of three cells as a reader returns it, before normalizing. *)
Definition RawRow := (Cell * Cell * Cell)%type.

Definition normalize_row (r : RawRow) : Row :=
  let '(a, b, c) := r in
  mkRow (normalize_cell a) (normalize_cell b) (normalize_cell c).

(** ** Exceptions and the text encoding *)

Inductive Exception :=
| UnicodeEncodeError
| UnicodeDecodeError
| LibraryError (message : str).

Definition byte := N.

(** UTF-8 of one code point.  Surrogates and values past U+10FFFF have no
    encoding: Python raises [UnicodeEncodeError]. *)
Definition utf_8_char (c : char) : option (list byte) :=
  if c <? 128 then Some [c]
  else if c <? 2048 then Some [192 + c / 64; 128 + c mod 64]
  else if c <? 65536 then
    if (55296 <=? c) && (c <=? 57343) then None
    else Some [224 + c / 4096; 128 + (c / 64) mod 64; 128 + c mod 64]
  else if c <? 1114112 then
    Some [240 + c / 262144; 128 + (c / 4096) mod 64;
          128 + (c / 64) mod 64; 128 + c mod 64]
  else None.

Fixpoint utf_8_encode (s : str) : option (list byte) :=
  match s with
  | [] => Some []
  | c :: t =>
      match utf_8_char c, utf_8_encode t with
      | Some b, Some r => Some (b ++ r)
      | _, _ => None
      end
  end.

Definition BOM_UTF8 : list byte := [239; 187; 191].

(** [encoding='utf-8-sig']: the byte-order mark, then UTF-8. *)
Definition utf_8_sig_encode (s : str) : option (list byte) :=
  option_map (app BOM_UTF8) (utf_8_encode s).

Definition continuation (b : byte) : bool := (128 <=? b) && (b <? 192).

(** Strict UTF-8 decoding: [None] stands for [UnicodeDecodeError]. *)
Fixpoint utf_8_decode (bs : list byte) : option str :=
  match bs with
  | [] => Some []
  | b0 :: r0 =>
    if b0 <? 128 then option_map (cons b0) (utf_8_decode r0)
    else
    match r0 with
    | [] => None
    | b1 :: r1 =>
      if negb (continuation b1) then None
      else if (194 <=? b0) && (b0 <? 224) then
        option_map (cons ((b0 - 192) * 64 + (b1 - 128))) (utf_8_decode r1)
      else
      match r1 with
      | [] => None
      | b2 :: r2 =>
        if negb (continuation b2) then None
        else if (224 <=? b0) && (b0 <? 240) then
          let c := (b0 - 224) * 4096 + (b1 - 128) * 64 + (b2 - 128) in
          if (c <? 2048) || ((55296 <=? c) && (c <=? 57343)) then None
          else option_map (cons c) (utf_8_decode r2)
        else
        match r2 with
        | [] => None
        | b3 :: r3 =>
          if negb (continuation b3) then None
          else if (240 <=? b0) && (b0 <? 245) then
            let c := (b0 - 240) * 262144 + (b1 - 128) * 4096
                     + (b2 - 128) * 64 + (b3 - 128) in
            if (c <? 65536) || (1114112 <=? c) then None
            else option_map (cons c) (utf_8_decode r3)
          else None
        end
      end
    end
  end.

(** The reader drops a byte-order mark at the start of the file. *)
Definition skip_bom (t : str) : str :=
  match t with
  | 65279 :: r => r
  | _ => t
  end.

(** ** The pandas CSV layer

    What [DataFrame.to_csv(index=False)] writes for a table, as text, and
    what [pd.read_csv] makes of a text: an exception or rows of cells.
    Quoting, missing-value tokens and type inference are pandas' own; the
    model takes them as given.  The file is written by [save_db] only, so
    a row read from it has the three columns of the table. *)

Record Pandas := {
  csv_text : DataFrame -> str;
  parse_csv : str -> Exception + list RawRow
}.

Definition to_csv (pd : Pandas) (df : DataFrame) : Exception + list byte :=
  match utf_8_sig_encode (csv_text pd df) with
  | Some bytes => inr bytes
  | None => inl UnicodeEncodeError
  end.

Definition read_csv (pd : Pandas) (bytes : list byte)
  : Exception + list RawRow :=
  match utf_8_decode bytes with
  | Some text => parse_csv pd (skip_bom text)
  | None => inl UnicodeDecodeError
  end.

(** ** Session state, the backing file and the messages shown *)

Inductive Version := v5 | v7.

(** The texts of the messages, by template.  [SaveFailed], [LoadFailed],
    [Imported] (with [len(df)]), [Added] (with ingredient and compound),
    [Inferred] (with the number of compounds) and [MissingFields] are
    shown by the first file only; [ImportedOk] and [AddedOk] by the second
    only; [CannotInfer] names the descriptor in the first file and not in
    the second. *)
Inductive Message :=
| SaveFailed (e : Exception)
| LoadFailed (e : Exception)
| Imported (count : nat)
| ImportedOk
| BadShape
| ImportFailed (e : Exception)
| Added (ing comp : str)
| AddedOk
| Inferred (count : nat)
| CannotInfer (desc : option str)
| MissingFields.

(** A call of [st.success], [st.warning] or [st.error]. *)
Inductive Notice :=
| st_success (m : Message)
| st_warning (m : Message)
| st_error (m : Message).

(** [data] is [st.session_state.data]; [db_file] is the content of
    [DB_FILE], [None] when the file does not exist; [notices] are the
    messages shown so far, oldest first. *)
Record State := mkState {
  data : DataFrame;
  db_file : option (list byte);
  notices : list Notice
}.

Definition with_data (df : DataFrame) (s : State) : State :=
  mkState df (db_file s) (notices s).

Definition with_file (f : option (list byte)) (s : State) : State :=
  mkState (data s) f (notices s).

Definition notify (n : Notice) (s : State) : State :=
  mkState (data s) (db_file s) (notices s ++ [n]).

Section App.
Variable pd : Pandas.

(** [save_db]: an empty table is not written.  A write that raises is
    reported by the first file and passed over by the second; the model
    takes a failed write as one that left the file as it was. *)
Definition save_db (v : Version) (s : State) : State :=
  match data s with
  | [] => s
  | _ :: _ =>
      match to_csv pd (data s) with
      | inr bytes => with_file (Some bytes) s
      | inl e =>
          match v with
          | v5 => notify (st_error (SaveFailed e)) s
          | v7 => s
          end
      end
  end.

(** The backing file after [save_db], from the table and the file
    before. *)
Definition file_after_save (df : DataFrame) (file : option (list byte))
  : option (list byte) :=
  match df with
  | [] => file
  | _ :: _ =>
      match to_csv pd df with
      | inr bytes => Some bytes
      | inl _ => file
      end
  end.

(** [load_db] at the start of a session, when the session holds no table
    yet: [file] is the content of [DB_FILE] if it exists. *)
Definition load_db (v : Version) (file : option (list byte)) : State :=
  match file with
  | Some bytes =>
      match read_csv pd bytes with
      | inr raw => mkState (map normalize_row raw) file []
      | inl e =>
          mkState [] file
            match v with
            | v5 => [st_error (LoadFailed e)]
            | v7 => []
            end
      end
  | None => mkState [] None []
  end.

(** [clear_db]: the empty table, and the file removed if it is there. *)
Definition clear_db (s : State) : State :=
  mkState [] None (notices s).

(** *** Import *)

(** The sheet as [pd.read_excel] returns it: [shape1] columns, and every
    row a list of [shape1] cells. *)
Record ExcelFrame := {
  shape1 : nat;
  rows : list (list Cell)
}.

(** An uploaded file, by what the library calls in the [try] block do
    with it: [read_excel] is the outcome of [pd.read_excel(file)], and
    [raised_normalizing] the exception, if any, raised while the frame is
    cut to three columns, renamed, turned into text and filtered. *)
Record Upload := {
  read_excel : Exception + ExcelFrame;
  raised_normalizing : option Exception
}.

(** [df.iloc[:, :3]] on one row *)
Definition first3 (r : list Cell) : RawRow :=
  (nth 0 r NaN, nth 1 r NaN, nth 2 r NaN).

(** The rows of the sheet after [.astype(str).replace('nan', '')], without
    those whose ingredient is empty. *)
Definition import_rows (f : ExcelFrame) : DataFrame :=
  filter (fun r => negb (str_eqb (ingredient r) []))
         (map (fun r => normalize_row (first3 r)) (rows f)).

(** The [try] block up to the assignment: an exception, [None] for a
    sheet of fewer than three columns, or the rows to append. *)
Definition import_try (up : Upload) : Exception + option DataFrame :=
  match read_excel up with
  | inl e => inl e
  | inr f =>
      if (3 <=? shape1 f)%nat then
        match raised_normalizing up with
        | Some e => inl e
        | None => inr (Some (import_rows f))
        end
      else inr None
  end.

Definition load_data_from_excel (v : Version) (up : Upload) (s : State)
  : State :=
  match import_try up with
  | inl e => notify (st_error (ImportFailed e)) s
  | inr None => notify (st_error BadShape) s
  | inr (Some df) =>
      let s1 := with_data (drop_duplicates (data s ++ df)) s in
      let s2 := save_db v s1 in
      notify (st_success match v with
                         | v5 => Imported (List.length df)
                         | v7 => ImportedOk
                         end) s2
  end.

(** *** Smart add *)

Definition matched_comps (df : DataFrame) (desc : str) : list str :=
  unique (map compound (filter (fun r => str_eqb (descriptor r) desc) df)).

Definition related_descs (df : DataFrame) (m : str) : list str :=
  unique (map descriptor (filter (fun r => str_eqb (compound r) m) df)).

(** The two nested loops over [matched] and [related_descs]. *)
Definition inferred_rows (df : DataFrame) (ing desc : str) : list Row :=
  flat_map (fun m => map (fun r => mkRow ing m r) (related_descs df m))
           (matched_comps df desc).

(** The tail of [smart_add]: [if new_rows: ...] *)
Definition commit_rows (v : Version) (new_rows : list Row) (msg : Message)
  (s : State) : State :=
  match new_rows with
  | [] => s
  | _ :: _ =>
      let s1 := with_data (drop_duplicates (data s ++ new_rows)) s in
      notify (st_success msg) (save_db v s1)
  end.

(** The first file strips its three arguments, the second takes them as
    typed. *)
Definition cleaned (v : Version) (field : str) : str :=
  match v with
  | v5 => strip field
  | v7 => field
  end.

Definition smart_add (v : Version) (ing comp desc : str) (s : State)
  : State :=
  let df := data s in
  let ing := cleaned v ing in
  let comp := cleaned v comp in
  let desc := cleaned v desc in
  if truthy ing && truthy comp && truthy desc then
    commit_rows v [mkRow ing comp desc]
      match v with v5 => Added ing comp | v7 => AddedOk end s
  else if truthy ing && truthy desc && negb (truthy comp) then
    match matched_comps df desc with
    | [] =>
        notify (st_warning (CannotInfer match v with
                                        | v5 => Some desc
                                        | v7 => None
                                        end)) s
    | _ :: _ =>
        commit_rows v (inferred_rows df ing desc)
          match v with
          | v5 => Inferred (List.length (matched_comps df desc))
          | v7 => AddedOk
          end s
    end
  else
    match v with
    | v5 => notify (st_warning MissingFields) s
    | v7 => s
    end.

(** *** The actions that write to the table *)

Inductive Action :=
| SmartAdd (ing comp desc : str)
| Import (up : Upload)
| Clear.

Definition run (v : Version) (a : Action) (s : State) : State :=
  match a with
  | SmartAdd ing comp desc => smart_add v ing comp desc s
  | Import up => load_data_from_excel v up s
  | Clear => clear_db s
  end.

End App.

(** Whether an action reaches an assignment to [st.session_state.data]:
    [clear_db] always, an import whose [try] block gets that far, and
    [smart_add] with its three fields filled or with ingredient and
    descriptor only and a compound found for the descriptor. *)
Definition writes_table (v : Version) (a : Action) (s : State) : bool :=
  match a with
  | Clear => true
  | Import up =>
      match import_try up with
      | inr (Some _) => true
      | _ => false
      end
  | SmartAdd ing comp desc =>
      let ing := cleaned v ing in
      let comp := cleaned v comp in
      let desc := cleaned v desc in
      (truthy ing && truthy comp && truthy desc)
      || (truthy ing && truthy desc && negb (truthy comp)
          && match matched_comps (data s) desc with
             | [] => false
             | _ :: _ => true
             end)
  end.

(** ** The relationship classifier

    The head of [draw_enhanced_network] and of [get_graph_data], which are
    the same code, and the caller's list of secondary ingredients. *)

Definition subset_of (df : DataFrame) (selected_comps : list str)
  : DataFrame :=
  filter (fun r => isin selected_comps (compound r)) df.

Definition connected_comps (subset : DataFrame) (ing : str) : list str :=
  unique (map compound (filter (fun r => str_eqb (ingredient r) ing) subset)).

Definition strong (subset : DataFrame) (ing : str) : bool :=
  (2 <=? List.length (connected_comps subset ing))%nat.

(** The loop over [secondary_ings]: the pair of [strong_secondary] and
    [normal_secondary], each in the order of [secondary_ings]. *)
Definition classify (df : DataFrame) (selected_comps secondary_ings : list str)
  : list str * list str :=
  partition (strong (subset_of df selected_comps)) secondary_ings.

Definition strong_secondary (df : DataFrame)
  (selected_comps secondary_ings : list str) : list str :=
  fst (classify df selected_comps secondary_ings).

Definition normal_secondary (df : DataFrame)
  (selected_comps secondary_ings : list str) : list str :=
  snd (classify df selected_comps secondary_ings).

(** The caller: the ingredients of the rows of a chosen compound, each
    once, without the selected ones. *)
Definition sec_ings (df : DataFrame) (sel_ings final_comps : list str)
  : list str :=
  filter (fun x => negb (isin sel_ings x))
         (unique (map ingredient (subset_of df final_comps))).

(** The nodes of the graph with their kind ([group] in the second file,
    the colour in the first).  [G.add_node] on a name that is a node
    already replaces its attributes and keeps its place; the edges, added
    afterwards, join nodes that exist. *)
Inductive Group := group_input | group_comp | group_gold | group_normal.

Fixpoint add_node (n : str) (g : Group) (G : list (str * Group))
  : list (str * Group) :=
  match G with
  | [] => [(n, g)]
  | (m, h) :: t =>
      if str_eqb m n then (m, g) :: t else (m, h) :: add_node n g t
  end.

Definition add_nodes (names : list str) (g : Group) (G : list (str * Group))
  : list (str * Group) :=
  fold_left (fun G n => add_node n g G) names G.

Fixpoint group_of (G : list (str * Group)) (n : str) : option Group :=
  match G with
  | [] => None
  | (m, h) :: t => if str_eqb m n then Some h else group_of t n
  end.

Definition graph_nodes (df : DataFrame)
  (selected_ings selected_comps secondary_ings : list str)
  : list (str * Group) :=
  let '(strong_sec, normal_sec) :=
    classify df selected_comps secondary_ings in
  let not_selected := filter (fun i => negb (isin selected_ings i)) in
  let G := add_nodes selected_ings group_input [] in
  let G := add_nodes selected_comps group_comp G in
  let G := add_nodes (not_selected strong_sec) group_gold G in
  add_nodes (not_selected normal_sec) group_normal G.

(** Worded after the specification: the number of distinct chosen
    compounds that ingredient [s] is recorded against. *)
Definition linked (df : DataFrame) (s c : str) : bool :=
  existsb (fun r => str_eqb (ingredient r) s && str_eqb (compound r) c) df.

Definition linked_chosen_count (df : DataFrame) (chosen : list str) (s : str)
  : nat :=
  List.length (filter (linked df s) (unique chosen)).

(** ** A plain CSV layer for worked examples

    A writer and a reader for tables whose fields hold no comma, quote or
    line break: the header line, then one line per row with the fields
    joined by commas.  The reader takes an empty field and a few of
    pandas' missing-value tokens as missing. *)

Definition header : str :=
  [39135; 26448; 44; 39118; 21619; 29289; 36136; 21450; 33521; 25991;
   21517; 44; 39118; 21619; 25551; 36848].

Definition plain_fields (r : Row) : str :=
  ingredient r ++ [44] ++ compound r ++ [44] ++ descriptor r.

Definition plain_line (r : Row) : str := plain_fields r ++ [10].

Definition plain_text (df : DataFrame) : str :=
  header ++ [10] ++ List.concat (map plain_line df).

Fixpoint split_on (sep : char) (s : str) : list str :=
  match s with
  | [] => [[]]
  | c :: t =>
      if c =? sep then [] :: split_on sep t
      else
        match split_on sep t with
        | h :: r => (c :: h) :: r
        | [] => [[c]]
        end
  end.

Definition na_tokens : list str :=
  map lit ["nan"; "NaN"; "NA"; "N/A"; "NULL"; "null"; "n/a"]%string.

Definition na_values : list str := [] :: na_tokens.

Definition plain_cell (t : str) : Cell :=
  if isin na_values t then NaN else Obj t.

Definition plain_row (line : str) : Exception + RawRow :=
  match split_on 44 line with
  | [a; b; c] => inr (plain_cell a, plain_cell b, plain_cell c)
  | _ => inl (LibraryError (lit "Error tokenizing data"))
  end.

Fixpoint plain_rows (lines : list str) : Exception + list RawRow :=
  match lines with
  | [] => inr []
  | [] :: t => plain_rows t
  | l :: t =>
      match plain_row l, plain_rows t with
      | inr r, inr rs => inr (r :: rs)
      | inl e, _ => inl e
      | _, inl e => inl e
      end
  end.

Definition plain_parse (t : str) : Exception + list RawRow :=
  match split_on 10 t with
  | [] => inl (LibraryError (lit "No columns to parse from file"))
  | _ :: lines => plain_rows lines
  end.

Definition plain_csv : Pandas :=
  {| csv_text := plain_text; parse_csv := plain_parse |}.

(** Rows for the examples. *)
Definition row (i c d : string) : Row := mkRow (lit i) (lit c) (lit d).

Definition fresh (df : DataFrame) : State := mkState df None [].

(** ** Notions used in the statements *)

(** The code points that are Unicode scalar values: those that have an
    encoding. *)
Definition scalar (c : char) : Prop :=
  c < 1114112 /\ ~ (55296 <= c <= 57343).

Definition scalarb (c : char) : bool :=
  (c <? 1114112) && negb ((55296 <=? c) && (c <=? 57343)).

(** A field read back from the file: an empty field comes back missing,
    any other text as it was written. *)
Definition read_back (t : str) : Cell :=
  match t with
  | [] => NaN
  | _ :: _ => Obj t
  end.

Definition read_back_row (r : Row) : RawRow :=
  (read_back (ingredient r), read_back (compound r),
   read_back (descriptor r)).

(** No field of the row is the text nan. *)
Definition nan_free (r : Row) : Prop :=
  ingredient r <> lit "nan" /\ compound r <> lit "nan"
  /\ descriptor r <> lit "nan".

(** Worded after the specification: [r] gives ingredient [ing] a compound
    recorded somewhere with descriptor [desc], together with a descriptor
    recorded somewhere for that compound. *)
Definition inherits (df : DataFrame) (ing desc : str) (r : Row) : Prop :=
  exists m d,
    r = mkRow ing m d
    /\ (exists r1, In r1 df /\ descriptor r1 = desc /\ compound r1 = m)
    /\ (exists r2, In r2 df /\ compound r2 = m /\ descriptor r2 = d).

(** A field the plain CSV layer carries unchanged: no line break, no
    comma, not a missing-value token, scalar values only. *)
Definition plain_field (t : str) : Prop :=
  ~ In 10 t /\ ~ In 44 t /\ ~ In t na_tokens /\ Forall scalar t.

Definition plain_row_ok (r : Row) : Prop :=
  plain_field (ingredient r) /\ plain_field (compound r)
  /\ plain_field (descriptor r).

(** ** Data of the worked examples *)

(** The store of the specification's inference example. *)
Definition spec_store : DataFrame :=
  [row "x" "C1" "d1"; row "x" "C1" "d2"; row "y" "C2" "d1"].

(** The records of the specification's classifier example. *)
Definition threshold_store : DataFrame :=
  [row "a" "C1" "d"; row "a" "C2" "d"; row "b" "C1" "d"].

(** A sheet of three columns and two rows: the first row has an
    ingredient and nothing else, the second has no ingredient. *)
Definition sheet : ExcelFrame :=
  {| shape1 := 3;
     rows := [[Obj (lit "pea"); NaN; NaN];
              [NaN; Obj (lit "Comp1"); Obj (lit "nutty")]] |}.

Definition good_upload : Upload :=
  {| read_excel := inr sheet; raised_normalizing := None |}.

(** An upload that [pd.read_excel] cannot read. *)
Definition unreadable_upload : Upload :=
  {| read_excel := inl (LibraryError (lit "File is not a zip file"));
     raised_normalizing := None |}.

(** A table with a non-ASCII ingredient and an empty descriptor. *)
Definition saved_store : DataFrame :=
  [row "pea" "Comp1" "nutty"; mkRow [35916; 35910] (lit "Comp2") []].

(** ** Choosing the compounds

    The code between the choice of ingredients and the graph: which
    compounds are offered, in which tier, and the numbers shown with the
    graph. *)

(** Python's order on text: code point by code point, a prefix before
    what extends it. *)
Fixpoint str_leb (a b : str) : bool :=
  match a, b with
  | [], _ => true
  | _ :: _, [] => false
  | x :: a', y :: b' =>
      if x <? y then true else if y <? x then false else str_leb a' b'
  end.

(** [sorted(...)] and [list.sort(key=...)]: a stable sort, here by
    insertion. *)
Section StableSort.
Variable A : Type.
Variable le : A -> A -> bool.

Fixpoint insert_sorted (x : A) (l : list A) : list A :=
  match l with
  | [] => [x]
  | y :: t => if le x y then x :: l else y :: insert_sorted x t
  end.

Fixpoint sort_by (l : list A) : list A :=
  match l with
  | [] => []
  | x :: t => insert_sorted x (sort_by t)
  end.
End StableSort.

Definition sorted (l : list str) : list str := sort_by str_leb l.

(** *** First file: shared compounds and the others

    A Python set is kept as a list without repeats; its order is never
    looked at, the sets are shown sorted. *)

Definition ing_sets (df : DataFrame) (sel_ings : list str) : list (list str) :=
  map (fun i =>
         unique (map compound (filter (fun r => str_eqb (ingredient r) i) df)))
      sel_ings.

(** [set.intersection] of the members of [ing_sets], two or more. *)
Definition intersection (sets : list (list str)) : list str :=
  match sets with
  | [] => []
  | first :: others =>
      filter (fun c => forallb (fun s => isin s c) others) first
  end.

Definition shared (df : DataFrame) (sel_ings : list str) : list str :=
  if (1 <? List.length (ing_sets df sel_ings))%nat
  then intersection (ing_sets df sel_ings)
  else [].

Definition all_rel (df : DataFrame) (sel_ings : list str) : list str :=
  unique (map compound (filter (fun r => isin sel_ings (ingredient r)) df)).

(** [unique = all_rel - shared] *)
Definition unique_comps (df : DataFrame) (sel_ings : list str) : list str :=
  filter (fun c => negb (isin (shared df sel_ings) c)) (all_rel df sel_ings).

(** The loop that counts the strong secondary ingredients for the line
    above the graph. *)
Definition strong_count (df : DataFrame) (final_comps sec : list str) : nat :=
  fold_left
    (fun count si =>
       if (2 <=? List.length (connected_comps (subset_of df final_comps) si))%nat
       then S count else count)
    sec 0%nat.

(** *** Second file: owners and tiers *)

(** [subset] after the optional choice of descriptors: the rows of the
    selected ingredients, cut down, when descriptors are chosen, to the
    compounds that have a row with one of them. *)
Definition feature_subset (df : DataFrame) (sel_ings f_descs : list str)
  : DataFrame :=
  let subset := filter (fun r => isin sel_ings (ingredient r)) df in
  match f_descs with
  | [] => subset
  | _ :: _ =>
      let v :=
        unique (map compound
                  (filter (fun r => isin f_descs (descriptor r)) subset)) in
      filter (fun r => isin v (compound r)) subset
  end.

(** A dict from text to lists, in insertion order.  [dict_get] is [d[k]]
    for a key that is there, and the empty list otherwise. *)
Definition Dict := list (str * list str).

Fixpoint dict_get (d : Dict) (k : str) : list str :=
  match d with
  | [] => []
  | (k', vs) :: t => if str_eqb k' k then vs else dict_get t k
  end.

(** [if c not in owners: owners[c] = set()] and [owners[c].add(i)] *)
Fixpoint owners_add (c i : str) (owners : Dict) : Dict :=
  match owners with
  | [] => [(c, [i])]
  | (k, os) :: t =>
      if str_eqb k c then (k, if isin os i then os else os ++ [i]) :: t
      else (k, os) :: owners_add c i t
  end.

Definition owners_of (subset : DataFrame) : Dict :=
  fold_left (fun owners r => owners_add (compound r) (ingredient r) owners)
            subset [].

Record Tiers := mkTiers {
  shared_all : list str;
  shared_some : list str;
  unique_map : Dict
}.

(** [unique_map[i].append(c)]; [None] is the [KeyError] of a missing
    key. *)
Fixpoint unique_map_append (i c : str) (m : Dict) : option Dict :=
  match m with
  | [] => None
  | (k, cs) :: t =>
      if str_eqb k i then Some ((k, cs ++ [c]) :: t)
      else option_map (cons (k, cs)) (unique_map_append i c t)
  end.

(** One turn of the loop over [owners.items()]. *)
Definition tier_step (sel_ings : list str) (acc : option Tiers)
  (entry : str * list str) : option Tiers :=
  match acc with
  | None => None
  | Some t =>
      let '(c, oss) := entry in
      if (List.length oss =? List.length sel_ings)%nat
         && (1 <? List.length sel_ings)%nat
      then Some (mkTiers (shared_all t ++ [c]) (shared_some t) (unique_map t))
      else if (2 <=? List.length oss)%nat
      then Some (mkTiers (shared_all t) (shared_some t ++ [c]) (unique_map t))
      else
        match oss with
        | [i] =>
            option_map (mkTiers (shared_all t) (shared_some t))
                       (unique_map_append i c (unique_map t))
        | _ => Some t
        end
  end.

Definition tiers (sel_ings : list str) (subset : DataFrame) : option Tiers :=
  fold_left (tier_step sel_ings) (owners_of subset)
    (Some (mkTiers [] [] (map (fun i => (i, [])) (unique sel_ings)))).

(** Ingredient [i] has a row in [rows] with compound [c]. *)
Definition owns (rows : DataFrame) (i c : str) : Prop :=
  exists r, In r rows /\ ingredient r = i /\ compound r = c.

(** ** The graph

    The [nx.Graph] that [get_graph_data] returns and that
    [draw_enhanced_network] draws: the nodes in the order they were
    added, each with its kind and its dict of neighbours, which holds the
    weight of the edge to each. *)

Record Node := mkNode {
  node_name : str;
  node_group : option Group;
  node_adj : list (str * Q)
}.

Definition Graph := list Node.

Fixpoint find_node (G : Graph) (n : str) : option Node :=
  match G with
  | [] => None
  | e :: t => if str_eqb (node_name e) n then Some e else find_node t n
  end.

(** [G.add_edge] makes a node, without attributes, of an end that is not
    a node yet. *)
Definition ensure_node (n : str) (G : Graph) : Graph :=
  match find_node G n with
  | Some _ => G
  | None => G ++ [mkNode n None []]
  end.

(** [adj[v] = w] on one dict of neighbours *)
Fixpoint adj_set (v : str) (w : Q) (adj : list (str * Q)) : list (str * Q) :=
  match adj with
  | [] => [(v, w)]
  | (k, x) :: t => if str_eqb k v then (k, w) :: t else (k, x) :: adj_set v w t
  end.

Fixpoint set_adj (u v : str) (w : Q) (G : Graph) : Graph :=
  match G with
  | [] => []
  | e :: t =>
      if str_eqb (node_name e) u
      then mkNode (node_name e) (node_group e) (adj_set v w (node_adj e)) :: t
      else e :: set_adj u v w t
  end.

(** [G.add_edge(u, v, weight=w)] on an undirected graph *)
Definition add_edge (u v : str) (w : Q) (G : Graph) : Graph :=
  set_adj v u w (set_adj u v w (ensure_node v (ensure_node u G))).

(** [G.has_edge(u, v)] *)
Definition has_edge (G : Graph) (u v : str) : bool :=
  match find_node G u with
  | Some e => existsb (fun kv => str_eqb (fst kv) v) (node_adj e)
  | None => false
  end.

Fixpoint adj_get (adj : list (str * Q)) (v : str) : option Q :=
  match adj with
  | [] => None
  | (k, x) :: t => if str_eqb k v then Some x else adj_get t v
  end.

(** [G[u][v]['weight']], [None] when there is no such edge *)
Definition edge_weight (G : Graph) (u v : str) : option Q :=
  match find_node G u with
  | Some e => adj_get (node_adj e) v
  | None => None
  end.

(** [G.nodes[n]['group']], [None] for the [KeyError] of a name that is no
    node or a node without kind *)
Definition group_attr (G : Graph) (n : str) : option Group :=
  match find_node G n with
  | Some e => node_group e
  | None => None
  end.

(** The weight of the edges of a strong secondary ingredient: 2.5 in the
    first file, 3 in the second. *)
Definition strong_weight (v : Version) : Q :=
  match v with
  | v5 => 5 # 2
  | v7 => 3
  end.

(** One turn of the loop over [subset.iterrows()]. *)
Definition edge_step (v : Version)
  (selected_ings secondary_ings strong_sec : list str) (G : Graph) (r : Row)
  : Graph :=
  if isin selected_ings (ingredient r) || isin secondary_ings (ingredient r)
  then add_edge (ingredient r) (compound r)
         (if isin strong_sec (ingredient r) then strong_weight v else 1%Q) G
  else G.

Definition get_graph_data (v : Version) (df : DataFrame)
  (selected_ings selected_comps secondary_ings : list str) : Graph :=
  fold_left
    (edge_step v selected_ings secondary_ings
       (strong_secondary df selected_comps secondary_ings))
    (subset_of df selected_comps)
    (map (fun ng => mkNode (fst ng) (Some (snd ng)) [])
         (graph_nodes df selected_ings selected_comps secondary_ings)).

(** A row that gives an edge: its compound is chosen and its ingredient is
    selected or secondary. *)
Definition linked_by_row (df : DataFrame)
  (selected_ings selected_comps secondary_ings : list str) (i c : str)
  : Prop :=
  exists r, In r df /\ ingredient r = i /\ compound r = c
            /\ In c selected_comps
            /\ (In i selected_ings \/ In i secondary_ings).

(** *** The matrix of [viz_heatmap] *)

Definition sort_key (G : Graph) (x : str) : nat :=
  match group_attr G x with
  | Some group_input => 0
  | Some group_gold => 1
  | _ => 2
  end.

(** The columns, the rows and the cells, or [None] for the [KeyError] of
    a node without kind. *)
Definition viz_heatmap (G : Graph)
  : option (list str * list str * list (list N)) :=
  if forallb (fun e => match group_attr G (node_name e) with
                       | Some _ => true
                       | None => false
                       end) G
  then
    let is_comp n :=
      match group_attr G n with
      | Some group_comp => true
      | _ => false
      end in
    let comps := filter is_comp (map node_name G) in
    let ings :=
      sort_by (fun a b => (sort_key G a <=? sort_key G b)%nat)
              (filter (fun n => negb (is_comp n)) (map node_name G)) in
    Some (comps, ings,
          map (fun ing =>
                 map (fun comp => if has_edge G ing comp then 1 else 0) comps)
              ings)
  else None.

(** *** The links of [viz_sankey] *)

(** Equality of kinds, for [G.nodes[n]['group'] == ...]. *)
Definition group_eqb (g h : Group) : bool :=
  match g, h with
  | group_input, group_input | group_comp, group_comp
  | group_gold, group_gold | group_normal, group_normal => true
  | _, _ => false
  end.

(** [G.edges()] of an undirected graph: node by node, the neighbours that
    are not nodes done with already. *)
Fixpoint edges_from (seen : list str) (G : Graph) : list (str * str) :=
  match G with
  | [] => []
  | e :: t =>
      map (fun kv => (node_name e, fst kv))
          (filter (fun kv => negb (isin seen (fst kv))) (node_adj e))
      ++ edges_from (node_name e :: seen) t
  end.

Definition edges (G : Graph) : list (str * str) := edges_from [] G.

(** [{name: i for i, name in enumerate(nodes)}], looked up: the last
    place of the name, [None] for the [KeyError] of a missing one. *)
Fixpoint index_from (k : nat) (names : list str) (n : str) : option nat :=
  match names with
  | [] => None
  | m :: t =>
      match index_from (S k) t n with
      | Some j => Some j
      | None => if str_eqb m n then Some k else None
      end
  end.

Definition node_map (names : list str) (n : str) : option nat :=
  index_from 0 names n.

(** One turn of the loop over the edges: [None] for a [KeyError],
    [Some None] for [continue], or the source and the target. *)
Definition sankey_link (G : Graph) (names : list str) (e : str * str)
  : option (option (nat * nat)) :=
  match group_attr G (fst e), group_attr G (snd e) with
  | Some gu, Some gv =>
      let is_u_comp := group_eqb gu group_comp in
      let is_v_comp := group_eqb gv group_comp in
      let ends :=
        if is_u_comp && negb is_v_comp then Some (fst e, snd e)
        else if negb is_u_comp && is_v_comp then Some (snd e, fst e)
        else None in
      match ends with
      | None => Some None
      | Some (comp, ing) =>
          match group_attr G ing, node_map names ing, node_map names comp with
          | Some gi, Some ki, Some kc =>
              if group_eqb gi group_input then Some (Some (ki, kc))
              else Some (Some (kc, ki))
          | _, _, _ => None
          end
      end
  | _, _ => None
  end.

Fixpoint collect_links (l : list (option (option (nat * nat))))
  : option (list (nat * nat)) :=
  match l with
  | [] => Some []
  | None :: _ => None
  | Some None :: t => collect_links t
  | Some (Some link) :: t => option_map (cons link) (collect_links t)
  end.

(** The sources, the targets and the values handed to the flow diagram.
    The colour of a node is the caller's [color_map] at its kind; the
    caller's map has the four kinds. *)
Definition viz_sankey (G : Graph) : option (list nat * list nat * list N) :=
  if forallb (fun e => match group_attr G (node_name e) with
                       | Some _ => true
                       | None => false
                       end) G
  then
    match collect_links
            (map (sankey_link G (map node_name G)) (edges G)) with
    | Some links => Some (map fst links, map snd links, map (fun _ => 1) links)
    | None => None
    end
  else None.

(** ** Notions used in the statements on the choice and the graph *)

(** The three tests of the loop over the owners. *)
Definition tier_all (sel_ings : list str) (entry : str * list str) : bool :=
  (List.length (snd entry) =? List.length sel_ings)%nat
  && (1 <? List.length sel_ings)%nat.

Definition tier_some (sel_ings : list str) (entry : str * list str) : bool :=
  negb (tier_all sel_ings entry) && (2 <=? List.length (snd entry))%nat.

Definition tier_unique (sel_ings : list str) (i : str)
  (entry : str * list str) : bool :=
  negb (tier_all sel_ings entry)
  && negb (2 <=? List.length (snd entry))%nat
  && match snd entry with
     | [j] => str_eqb j i
     | _ => false
     end.

(** The dict of neighbours of a node, empty for a name that is no node. *)
Definition adj_of (G : Graph) (u : str) : list (str * Q) :=
  match find_node G u with
  | Some e => node_adj e
  | None => []
  end.

Definition is_node (G : Graph) (n : str) : bool :=
  match find_node G n with
  | Some _ => true
  | None => false
  end.

Definition name_group (e : Node) : str * option Group :=
  (node_name e, node_group e).

(** Whether row [r] gives an edge between [u] and [v]. *)
Definition joins (selected_ings secondary_ings : list str) (r : Row)
  (u v : str) : bool :=
  (isin selected_ings (ingredient r) || isin secondary_ings (ingredient r))
  && ((str_eqb (ingredient r) u && str_eqb (compound r) v)
      || (str_eqb (compound r) u && str_eqb (ingredient r) v)).

(** The names of the nodes of one kind, in the order of the nodes. *)
Definition names_of_kind (ns : list (str * Group)) (g : Group) : list str :=
  filter (fun n => match group_of ns n with
                   | Some h => group_eqb h g
                   | None => false
                   end) (map fst ns).

(** ** Tactics *)

Ltac nlia := zify; Z.to_euclidean_division_equations; lia.

Ltac in_range :=
  unfold continuation;
  first [ apply andb_true_intro; split; [apply N.leb_le | apply N.ltb_lt]; nlia
        | apply andb_false_intro2; apply N.ltb_ge; nlia
        | apply N.ltb_ge; nlia
        | apply N.ltb_lt; nlia
        | apply N.leb_gt; nlia ].


(** * Facts *)

Unset Implicit Arguments.

(** ** Keeping first occurrences *)

Section KeepFirstFacts.
Variable A : Type.
Variable eq_dec : forall a b : A, {a = b} + {a <> b}.

Lemma keep_unseen_In seen l x :
  In x (keep_unseen eq_dec seen l) <-> In x l /\ ~ In x seen.
Proof.
  revert seen; induction l as [|y t IH]; intros seen; simpl.
  - tauto.
  - destruct (in_dec eq_dec y seen) as [Hy|Hy].
    + rewrite IH. split.
      * intros [H1 H2]; auto.
      * intros [[->|H1] H2]; [contradiction|auto].
    + simpl. rewrite IH. simpl. split.
      * intros [->|[H1 H2]]; auto.
      * intros [[->|H1] H2]; auto.
        destruct (eq_dec y x) as [->|Hne]; auto.
        right; split; auto. intros [E|E]; auto.
Qed.

Lemma keep_first_In l x : In x (keep_first eq_dec l) <-> In x l.
Proof. unfold keep_first. rewrite keep_unseen_In. simpl. tauto. Qed.

Lemma keep_unseen_NoDup seen l : NoDup (keep_unseen eq_dec seen l).
Proof.
  revert seen; induction l as [|y t IH]; intros seen; simpl.
  - constructor.
  - destruct (in_dec eq_dec y seen); auto.
    constructor; auto.
    rewrite keep_unseen_In. simpl. tauto.
Qed.

Lemma keep_first_NoDup l : NoDup (keep_first eq_dec l).
Proof. apply keep_unseen_NoDup. Qed.

(** Only the members of [seen] matter, not their order or number. *)
Lemma keep_unseen_ext s1 s2 l :
  (forall x, In x s1 <-> In x s2) ->
  keep_unseen eq_dec s1 l = keep_unseen eq_dec s2 l.
Proof.
  revert s1 s2; induction l as [|y t IH]; intros s1 s2 H; simpl; auto.
  destruct (in_dec eq_dec y s1) as [H1|H1], (in_dec eq_dec y s2) as [H2|H2].
  - auto.
  - apply H in H1; contradiction.
  - apply H in H2; contradiction.
  - f_equal. apply IH. intros x; simpl. rewrite H. tauto.
Qed.

Lemma keep_unseen_app seen a b :
  keep_unseen eq_dec seen (a ++ b) =
  keep_unseen eq_dec seen a ++ keep_unseen eq_dec (a ++ seen) b.
Proof.
  revert seen; induction a as [|y t IH]; intros seen; simpl; auto.
  destruct (in_dec eq_dec y seen) as [Hy|Hy].
  - rewrite IH. f_equal. apply keep_unseen_ext.
    intros x; simpl. rewrite !in_app_iff.
    split; [tauto|]. intros [->|[H|H]]; auto.
  - simpl. rewrite IH. do 2 f_equal. apply keep_unseen_ext.
    intros x; simpl. rewrite !in_app_iff. simpl. tauto.
Qed.

Lemma keep_unseen_all_seen seen l :
  (forall x, In x l -> In x seen) -> keep_unseen eq_dec seen l = [].
Proof.
  induction l as [|y t IH]; intros H; simpl; auto.
  destruct (in_dec eq_dec y seen) as [Hy|Hy].
  - apply IH. intros x Hx; apply H; simpl; auto.
  - exfalso; apply Hy, H; simpl; auto.
Qed.

Lemma keep_unseen_fixed seen l :
  NoDup l -> (forall x, In x l -> ~ In x seen) ->
  keep_unseen eq_dec seen l = l.
Proof.
  revert seen; induction l as [|y t IH]; intros seen Hnd H; simpl; auto.
  inversion Hnd as [|? ? Hy Ht]; subst.
  destruct (in_dec eq_dec y seen) as [Hs|Hs].
  - exfalso. apply (H y); simpl; auto.
  - f_equal. apply IH; auto.
    intros x Hx [->|Hin]; [contradiction|].
    apply (H x); simpl; auto.
Qed.

Lemma keep_first_fixed l : NoDup l -> keep_first eq_dec l = l.
Proof. intros H. apply keep_unseen_fixed; auto. Qed.

Lemma keep_first_app a b :
  keep_first eq_dec (a ++ b) = keep_first eq_dec a ++ keep_unseen eq_dec a b.
Proof.
  unfold keep_first. rewrite keep_unseen_app. now rewrite app_nil_r.
Qed.

(** Appending values that are all present already changes nothing. *)
Lemma keep_first_absorb a b :
  (forall x, In x b -> In x a) ->
  keep_first eq_dec (keep_first eq_dec a ++ b) = keep_first eq_dec a.
Proof.
  intros H. rewrite keep_first_app.
  rewrite (keep_first_fixed _ (keep_first_NoDup a)).
  rewrite keep_unseen_all_seen; [apply app_nil_r|].
  intros x Hx. apply keep_first_In; auto.
Qed.

(** The first occurrences of a non-empty list are not empty. *)
Lemma keep_first_nil l : keep_first eq_dec l = [] -> l = [].
Proof.
  destruct l as [|y t]; auto. unfold keep_first; simpl. discriminate.
Qed.
End KeepFirstFacts.

(** ** UTF-8 *)

(** The decoder on a sequence of two, three and four bytes. *)
Lemma utf_8_decode_1 b0 rest :
  (b0 <? 128) = true ->
  utf_8_decode (b0 :: rest) = option_map (cons b0) (utf_8_decode rest).
Proof. intros E0. cbn -[N.ltb N.leb N.add N.sub N.mul]. now rewrite E0. Qed.

Lemma utf_8_decode_2 b0 b1 rest :
  (b0 <? 128) = false -> continuation b1 = true ->
  (194 <=? b0) && (b0 <? 224) = true ->
  utf_8_decode (b0 :: b1 :: rest) =
  option_map (cons ((b0 - 192) * 64 + (b1 - 128))) (utf_8_decode rest).
Proof.
  intros E0 E1 E2. cbn -[N.ltb N.leb N.add N.sub N.mul continuation].
  now rewrite E0, E1, E2.
Qed.

Lemma utf_8_decode_3 b0 b1 b2 rest :
  (b0 <? 128) = false -> continuation b1 = true ->
  (194 <=? b0) && (b0 <? 224) = false -> continuation b2 = true ->
  (224 <=? b0) && (b0 <? 240) = true ->
  utf_8_decode (b0 :: b1 :: b2 :: rest) =
  let c := (b0 - 224) * 4096 + (b1 - 128) * 64 + (b2 - 128) in
  if (c <? 2048) || ((55296 <=? c) && (c <=? 57343)) then None
  else option_map (cons c) (utf_8_decode rest).
Proof.
  intros E0 E1 E2 E3 E4. cbn -[N.ltb N.leb N.add N.sub N.mul continuation].
  now rewrite E0, E1, E2, E3, E4.
Qed.

Lemma utf_8_decode_4 b0 b1 b2 b3 rest :
  (b0 <? 128) = false -> continuation b1 = true ->
  (194 <=? b0) && (b0 <? 224) = false -> continuation b2 = true ->
  (224 <=? b0) && (b0 <? 240) = false -> continuation b3 = true ->
  (240 <=? b0) && (b0 <? 245) = true ->
  utf_8_decode (b0 :: b1 :: b2 :: b3 :: rest) =
  let c := (b0 - 240) * 262144 + (b1 - 128) * 4096
           + (b2 - 128) * 64 + (b3 - 128) in
  if (c <? 65536) || (1114112 <=? c) then None
  else option_map (cons c) (utf_8_decode rest).
Proof.
  intros E0 E1 E2 E3 E4 E5 E6.
  cbn -[N.ltb N.leb N.add N.sub N.mul continuation].
  now rewrite E0, E1, E2, E3, E4, E5, E6.
Qed.

(** Decoding undoes the encoding of one code point. *)
Lemma utf_8_decode_char c bs rest :
  utf_8_char c = Some bs ->
  utf_8_decode (bs ++ rest) = option_map (cons c) (utf_8_decode rest).
Proof.
  unfold utf_8_char.
  destruct (N.ltb_spec c 128) as [H1|H1].
  { intros H. replace bs with [c] by congruence.
    cbn [app]. apply utf_8_decode_1. in_range. }
  destruct (N.ltb_spec c 2048) as [H2|H2].
  { intros H.
    replace bs with [192 + c / 64; 128 + c mod 64] by congruence.
    cbn [app]. rewrite utf_8_decode_2 by in_range.
    do 2 f_equal. nlia. }
  destruct (N.ltb_spec c 65536) as [H3|H3].
  { destruct ((55296 <=? c) && (c <=? 57343)) eqn:Hs; [discriminate|].
    intros H.
    replace bs with [224 + c / 4096; 128 + (c / 64) mod 64; 128 + c mod 64]
      by congruence.
    cbn [app]. rewrite utf_8_decode_3 by in_range. cbv zeta.
    replace ((224 + c / 4096 - 224) * 4096 + (128 + (c / 64) mod 64 - 128) * 64
             + (128 + c mod 64 - 128)) with c by nlia.
    rewrite Hs. replace (c <? 2048) with false by (symmetry; in_range).
    reflexivity. }
  destruct (N.ltb_spec c 1114112) as [H4|H4]; [|discriminate].
  intros H.
  replace bs with [240 + c / 262144; 128 + (c / 4096) mod 64;
                   128 + (c / 64) mod 64; 128 + c mod 64] by congruence.
  cbn [app]. rewrite utf_8_decode_4 by in_range. cbv zeta.
  replace ((240 + c / 262144 - 240) * 262144
           + (128 + (c / 4096) mod 64 - 128) * 4096
           + (128 + (c / 64) mod 64 - 128) * 64 + (128 + c mod 64 - 128))
    with c by nlia.
  replace (c <? 65536) with false by (symmetry; in_range).
  replace (1114112 <=? c) with false by (symmetry; in_range).
  reflexivity.
Qed.

Lemma utf_8_decode_encode s bs :
  utf_8_encode s = Some bs -> utf_8_decode bs = Some s.
Proof.
  revert bs; induction s as [|c t IH]; intros bs; simpl.
  - now intros [= <-].
  - destruct (utf_8_char c) as [b|] eqn:Hc; [|discriminate].
    destruct (utf_8_encode t) as [r|]; [|discriminate].
    intros [= <-]. rewrite (utf_8_decode_char _ _ _ Hc), (IH r eq_refl).
    reflexivity.
Qed.

Lemma utf_8_encode_scalar s :
  Forall scalar s -> exists bs, utf_8_encode s = Some bs.
Proof.
  induction 1 as [|c t [Hc Hs] _ [r IH]]; simpl.
  - now exists [].
  - rewrite IH. unfold utf_8_char.
    destruct (c <? 128); [eauto|]. destruct (c <? 2048); [eauto|].
    destruct (N.ltb_spec c 65536).
    + destruct (N.leb_spec 55296 c), (N.leb_spec c 57343); simpl; eauto.
      exfalso; apply Hs; lia.
    + destruct (N.ltb_spec c 1114112); [eauto|lia].
Qed.

(** A text passes the boolean check only if it holds scalar values. *)
Lemma scalar_checked t : forallb scalarb t = true -> Forall scalar t.
Proof.
  rewrite forallb_forall, Forall_forall. intros H c Hc.
  specialize (H c Hc). unfold scalarb in H.
  apply andb_true_iff in H as [H1 H2]. apply N.ltb_lt in H1.
  apply negb_true_iff, andb_false_iff in H2. split; auto.
  intros [H3 H4]. destruct H2 as [H2|H2];
    [apply N.leb_gt in H2 | apply N.leb_gt in H2]; lia.
Qed.

(** What the reader gets from a file written with the byte-order mark. *)
Lemma read_back_utf_8_sig t bytes :
  utf_8_sig_encode t = Some bytes ->
  option_map skip_bom (utf_8_decode bytes) = Some t.
Proof.
  unfold utf_8_sig_encode.
  destruct (utf_8_encode t) as [bs|] eqn:E; [|discriminate].
  intros H. cbn [option_map] in H.
  replace bytes with (BOM_UTF8 ++ bs) by congruence.
  unfold BOM_UTF8. cbn [app].
  rewrite utf_8_decode_3 by (vm_compute; reflexivity). cbv zeta.
  replace ((239 - 224) * 4096 + (187 - 128) * 64 + (191 - 128)) with 65279
    by reflexivity.
  replace ((65279 <? 2048) || (55296 <=? 65279) && (65279 <=? 57343))
    with false by reflexivity.
  rewrite (utf_8_decode_encode _ _ E). reflexivity.
Qed.

(** ** The table and its file *)

Lemma str_eqb_eq a b : str_eqb a b = true <-> a = b.
Proof. unfold str_eqb. destruct (str_eq_dec a b); split; congruence. Qed.

Lemma str_eqb_neq a b : str_eqb a b = false <-> a <> b.
Proof. unfold str_eqb. destruct (str_eq_dec a b); split; congruence. Qed.

Lemma isin_In l x : isin l x = true <-> In x l.
Proof. unfold isin. destruct (in_dec str_eq_dec x l); split; congruence. Qed.

Lemma truthy_nonempty t : truthy t = true <-> t <> [].
Proof. destruct t; simpl; split; congruence. Qed.

Lemma drop_duplicates_In df r : In r (drop_duplicates df) <-> In r df.
Proof. apply keep_first_In. Qed.

Lemma drop_duplicates_NoDup df : NoDup (drop_duplicates df).
Proof. apply keep_first_NoDup. Qed.

Lemma unique_In l x : In x (unique l) <-> In x l.
Proof. apply keep_first_In. Qed.

Lemma unique_NoDup l : NoDup (unique l).
Proof. apply keep_first_NoDup. Qed.

Lemma normalize_read_back t : t <> lit "nan" -> normalize_cell (read_back t) = t.
Proof.
  intros H. destruct t as [|c t]; [reflexivity|].
  unfold normalize_cell, read_back, astype_str, replace_nan.
  apply str_eqb_neq in H. now rewrite H.
Qed.

Lemma normalize_read_back_row r :
  nan_free r -> normalize_row (read_back_row r) = r.
Proof.
  destruct r as [i c d]; intros (Hi & Hc & Hd); simpl in *.
  unfold normalize_row, read_back_row; simpl.
  now rewrite !normalize_read_back.
Qed.

(** No cell comes out of the normalization as the text nan. *)
Lemma normalize_cell_not_nan c : normalize_cell c <> lit "nan".
Proof.
  unfold normalize_cell, replace_nan.
  destruct (str_eqb (astype_str c) (lit "nan")) eqn:E.
  - discriminate.
  - now apply str_eqb_neq.
Qed.

Section AppFacts.
Variable pd : Pandas.

Lemma data_notify n s : data (notify n s) = data s.
Proof. reflexivity. Qed.

Lemma db_file_notify n s : db_file (notify n s) = db_file s.
Proof. reflexivity. Qed.

Lemma data_save_db v s : data (save_db pd v s) = data s.
Proof.
  unfold save_db. destruct (data s) eqn:E; auto.
  destruct (to_csv pd (r :: d)); [destruct v|]; simpl; auto.
Qed.

Lemma db_file_save_db v s :
  db_file (save_db pd v s) = file_after_save pd (data s) (db_file s).
Proof.
  unfold save_db, file_after_save. destruct (data s) eqn:E; auto.
  destruct (to_csv pd (r :: d)); [destruct v|]; simpl; auto.
Qed.

Lemma file_after_save_twice df file :
  file_after_save pd df (file_after_save pd df file) = file_after_save pd df file.
Proof.
  unfold file_after_save. destruct df; auto. destruct (to_csv pd (r :: df)); auto.
Qed.

(** Whatever the CSV layer does, no field of a loaded table is the text
    nan. *)
Lemma load_db_nan_free v file r :
  In r (data (load_db pd v file)) -> nan_free r.
Proof.
  unfold load_db. destruct file as [bytes|]; [|simpl; tauto].
  destruct (read_csv pd bytes) as [e|raw]; simpl; [tauto|].
  rewrite in_map_iff. intros ([[a b] c] & <- & _).
  unfold nan_free; simpl. auto using normalize_cell_not_nan.
Qed.

(** C9, as amended.  [save_db] on a table that is not empty and whose CSV
    text holds Unicode scalar values only puts into the backing file the
    text of the whole table, encoded as UTF-8 after a byte-order mark, and
    decoding the file gives that text back, every character of it.  On an
    empty table [save_db] changes nothing. *)
Theorem save_db_serializes_table v s :
  (data s = [] -> save_db pd v s = s) /\
  (data s <> [] -> Forall scalar (csv_text pd (data s)) ->
   exists bytes,
     utf_8_sig_encode (csv_text pd (data s)) = Some bytes
     /\ db_file (save_db pd v s) = Some bytes
     /\ data (save_db pd v s) = data s
     /\ option_map skip_bom (utf_8_decode bytes) = Some (csv_text pd (data s))).
Proof.
  split.
  - intros E. unfold save_db. now rewrite E.
  - intros Hne Hsc.
    destruct (utf_8_encode_scalar _ Hsc) as [bs Hbs].
    exists (BOM_UTF8 ++ bs).
    assert (Henc : utf_8_sig_encode (csv_text pd (data s))
                   = Some (BOM_UTF8 ++ bs))
      by (unfold utf_8_sig_encode; now rewrite Hbs).
    repeat split; auto.
    + rewrite db_file_save_db. unfold file_after_save, to_csv.
      destruct (data s); [congruence|]. now rewrite Henc.
    + apply data_save_db.
    + now apply read_back_utf_8_sig.
Qed.

(** Saving and loading where the reader is exact.  Take a state in which
    an empty table has no backing file, the CSV text of the table holds
    scalar values only, the reader returns every written field as its own
    text (an empty one as missing), and no field is the text nan.  Then
    saving and loading gives the same rows in the same order: the
    byte-order mark, the encoding and the clean-up of [load_db] lose
    nothing. *)
Theorem save_load_roundtrip v s :
  (data s = [] -> db_file s = None) ->
  Forall scalar (csv_text pd (data s)) ->
  parse_csv pd (csv_text pd (data s)) = inr (map read_back_row (data s)) ->
  Forall nan_free (data s) ->
  data (load_db pd v (db_file (save_db pd v s))) = data s.
Proof.
  intros Hfile Hsc Hparse Hnan.
  destruct (data s) as [|r0 d] eqn:E.
  - unfold save_db. rewrite E, (Hfile eq_refl). reflexivity.
  - destruct (utf_8_encode_scalar _ Hsc) as [bs Hbs].
    assert (Henc : utf_8_sig_encode (csv_text pd (r0 :: d))
                   = Some (BOM_UTF8 ++ bs))
      by (unfold utf_8_sig_encode; now rewrite Hbs).
    rewrite db_file_save_db, E. unfold file_after_save, to_csv.
    rewrite Henc. unfold load_db, read_csv.
    pose proof (read_back_utf_8_sig _ _ Henc) as Hback.
    destruct (utf_8_decode (BOM_UTF8 ++ bs)) as [text|]; [|discriminate].
    simpl in Hback. injection Hback as ->. rewrite Hparse. cbn [data].
    rewrite map_map. rewrite <- (map_id (r0 :: d)) at 2.
    apply map_ext_in. intros r Hr.
    apply normalize_read_back_row.
    rewrite Forall_forall in Hnan. auto.
Qed.

(** *** Import *)

Lemma import_rows_In f r :
  In r (import_rows f) <->
  exists cells, In cells (rows f) /\ r = normalize_row (first3 cells)
                /\ ingredient r <> [].
Proof.
  unfold import_rows. rewrite filter_In, in_map_iff, negb_true_iff, str_eqb_neq.
  split.
  - intros [(cells & <- & Hin) Hne]. eauto.
  - intros (cells & Hin & -> & Hne). eauto.
Qed.

(** C4.  When [pd.read_excel] raises, when the sheet has fewer than three
    columns, or when an exception is raised while the sheet is normalized,
    the import shows one error message and leaves the table and the
    backing file as they were. *)
Theorem failed_import_leaves_store v up s :
  (exists e, read_excel up = inl e)
  \/ (exists f, read_excel up = inr f
                /\ ((shape1 f < 3)%nat
                    \/ exists e, raised_normalizing up = Some e)) ->
  data (load_data_from_excel pd v up s) = data s
  /\ db_file (load_data_from_excel pd v up s) = db_file s
  /\ exists m, notices (load_data_from_excel pd v up s)
               = notices s ++ [st_error m].
Proof.
  intros H. unfold load_data_from_excel, import_try.
  destruct H as [[e ->]|(f & -> & H)].
  - simpl. eauto.
  - destruct (Nat.leb_spec 3 (shape1 f)) as [Hge|Hlt].
    + destruct H as [Hlt|[e ->]]; [lia|]. simpl. eauto.
    + simpl. eauto.
Qed.

(** The import that goes through: the rows of the sheet are appended and
    the table is deduplicated. *)
Lemma data_import_accepted v up s df :
  import_try up = inr (Some df) ->
  data (load_data_from_excel pd v up s) = drop_duplicates (data s ++ df).
Proof.
  intros H. unfold load_data_from_excel. rewrite H.
  cbv zeta. rewrite data_notify, data_save_db. reflexivity.
Qed.

Lemma import_try_accepted up f :
  read_excel up = inr f -> (3 <= shape1 f)%nat ->
  raised_normalizing up = None ->
  import_try up = inr (Some (import_rows f)).
Proof.
  intros H1 H2 H3. unfold import_try. rewrite H1, H3.
  destruct (Nat.leb_spec 3 (shape1 f)); [reflexivity|lia].
Qed.

(** C10.  In an import that goes through, a row of the sheet is dropped
    exactly when its ingredient is empty after normalization: the table
    afterwards holds its old rows and every normalized row of the sheet
    with an ingredient, whatever its compound and descriptor. *)
Theorem import_keeps_rows_with_ingredient v up s f :
  read_excel up = inr f -> (3 <= shape1 f)%nat ->
  raised_normalizing up = None ->
  forall r,
    In r (data (load_data_from_excel pd v up s)) <->
    In r (data s)
    \/ exists cells, In cells (rows f) /\ r = normalize_row (first3 cells)
                     /\ ingredient r <> [].
Proof.
  intros H1 H2 H3 r.
  rewrite (data_import_accepted v up s _ (import_try_accepted up f H1 H2 H3)).
  rewrite drop_duplicates_In, in_app_iff, import_rows_In. tauto.
Qed.

(** C7.  Importing a file a second time, right after the first, leaves the
    table and the backing file as the first import left them. *)
Theorem import_twice_same_store v up s :
  data (load_data_from_excel pd v up (load_data_from_excel pd v up s))
  = data (load_data_from_excel pd v up s)
  /\ db_file (load_data_from_excel pd v up (load_data_from_excel pd v up s))
     = db_file (load_data_from_excel pd v up s).
Proof.
  set (once := load_data_from_excel pd v up s).
  destruct (import_try up) as [e|[df|]] eqn:E.
  - subst once. unfold load_data_from_excel. rewrite E. split; reflexivity.
  - assert (Hd : data once = drop_duplicates (data s ++ df))
      by (apply data_import_accepted; auto).
    assert (Hdd : drop_duplicates (data once ++ df) = data once).
    { rewrite Hd. apply keep_first_absorb.
      intros x Hx. apply in_app_iff; auto. }
    split.
    + rewrite (data_import_accepted v up once df E). exact Hdd.
    + unfold load_data_from_excel at 1. rewrite E. cbv zeta.
      rewrite db_file_notify, db_file_save_db. cbn [data db_file with_data].
      rewrite Hdd, Hd. subst once. unfold load_data_from_excel. rewrite E.
      cbv zeta. rewrite db_file_notify, db_file_save_db.
      cbn [data db_file with_data].
      apply file_after_save_twice.
  - subst once. unfold load_data_from_excel. rewrite E. split; reflexivity.
Qed.

End AppFacts.

(** ** Smart add *)

Lemma matched_comps_In df desc m :
  In m (matched_comps df desc) <->
  exists r, In r df /\ descriptor r = desc /\ compound r = m.
Proof.
  unfold matched_comps. rewrite unique_In, in_map_iff.
  split.
  - intros (r & <- & Hr). apply filter_In in Hr as [Hr E].
    apply str_eqb_eq in E. eauto.
  - intros (r & Hr & E & <-). exists r. split; auto.
    apply filter_In. split; auto. now apply str_eqb_eq.
Qed.

Lemma related_descs_In df m d :
  In d (related_descs df m) <->
  exists r, In r df /\ compound r = m /\ descriptor r = d.
Proof.
  unfold related_descs. rewrite unique_In, in_map_iff.
  split.
  - intros (r & <- & Hr). apply filter_In in Hr as [Hr E].
    apply str_eqb_eq in E. eauto.
  - intros (r & Hr & E & <-). exists r. split; auto.
    apply filter_In. split; auto. now apply str_eqb_eq.
Qed.

Lemma inferred_rows_In df ing desc r :
  In r (inferred_rows df ing desc) <-> inherits df ing desc r.
Proof.
  unfold inferred_rows, inherits. rewrite in_flat_map. split.
  - intros (m & Hm & Hr). apply in_map_iff in Hr as (d & <- & Hd).
    exists m, d. split; auto.
    split; [now apply matched_comps_In | now apply related_descs_In].
  - intros (m & d & -> & Hm & Hd). exists m. split.
    + now apply matched_comps_In.
    + apply in_map_iff. exists d. split; auto. now apply related_descs_In.
Qed.

(** A compound found through the descriptor has that descriptor at least,
    so [new_rows] is not empty when the second branch gets past its
    [return]. *)
Lemma inferred_rows_nonempty df ing desc :
  matched_comps df desc <> [] -> inferred_rows df ing desc <> [].
Proof.
  intros H.
  destruct (matched_comps df desc) as [|m ms] eqn:E; [congruence|].
  assert (Hm : In m (matched_comps df desc)) by (rewrite E; simpl; auto).
  apply matched_comps_In in Hm as (r & Hr & Hd & Hc).
  assert (Hin : In (mkRow ing m desc) (inferred_rows df ing desc)).
  { apply inferred_rows_In. exists m, desc. split; auto.
    split; exists r; auto. }
  intros E'. rewrite E' in Hin. contradiction.
Qed.

Section SmartAddFacts.
Variable pd : Pandas.

Lemma data_commit_rows v new_rows msg s :
  new_rows <> [] ->
  data (commit_rows pd v new_rows msg s) = drop_duplicates (data s ++ new_rows).
Proof.
  intros H. unfold commit_rows. destruct new_rows; [congruence|].
  cbv zeta. rewrite data_notify, data_save_db. reflexivity.
Qed.

(** The first branch: three fields filled. *)
Lemma smart_add_explicit v ing comp desc s :
  cleaned v ing <> [] -> cleaned v comp <> [] -> cleaned v desc <> [] ->
  data (smart_add pd v ing comp desc s)
  = drop_duplicates
      (data s ++ [mkRow (cleaned v ing) (cleaned v comp) (cleaned v desc)]).
Proof.
  intros Hi Hc Hd. unfold smart_add. cbv zeta.
  apply truthy_nonempty in Hi, Hc, Hd. rewrite Hi, Hc, Hd. cbn [andb].
  apply data_commit_rows. discriminate.
Qed.

(** The second branch, with a compound found. *)
Lemma smart_add_inferred v ing comp desc s :
  cleaned v ing <> [] -> cleaned v comp = [] -> cleaned v desc <> [] ->
  matched_comps (data s) (cleaned v desc) <> [] ->
  data (smart_add pd v ing comp desc s)
  = drop_duplicates
      (data s ++ inferred_rows (data s) (cleaned v ing) (cleaned v desc)).
Proof.
  intros Hi Hc Hd Hm. unfold smart_add. cbv zeta.
  apply truthy_nonempty in Hi, Hd. rewrite Hi, Hd, Hc. cbn [andb truthy negb].
  pose proof (inferred_rows_nonempty _ (cleaned v ing) _ Hm) as Hne.
  destruct (matched_comps (data s) (cleaned v desc)); [congruence|].
  now apply data_commit_rows.
Qed.

(** C2.  With an ingredient and a descriptor (after stripping, in the
    first file) but no compound, and the descriptor recorded for some
    compound, [smart_add] appends to the table, each once, exactly the
    rows (ingredient, m, d) that are not in it yet, for every compound m
    recorded with that descriptor and every descriptor d recorded for m:
    the table afterwards holds its old rows and those, and nothing else. *)
Theorem smart_add_inference_expansion v ing comp desc s :
  cleaned v ing <> [] -> cleaned v comp = [] -> cleaned v desc <> [] ->
  (exists r0, In r0 (data s) /\ descriptor r0 = cleaned v desc) ->
  (exists added,
     data (smart_add pd v ing comp desc s) = drop_duplicates (data s) ++ added
     /\ NoDup added
     /\ forall r, In r added <->
                  inherits (data s) (cleaned v ing) (cleaned v desc) r
                  /\ ~ In r (data s))
  /\ forall r, In r (data (smart_add pd v ing comp desc s)) <->
               In r (data s)
               \/ inherits (data s) (cleaned v ing) (cleaned v desc) r.
Proof.
  intros Hi Hc Hd (r0 & Hr0 & Hdesc).
  assert (Hm : matched_comps (data s) (cleaned v desc) <> []).
  { intros E.
    assert (H : In (compound r0) (matched_comps (data s) (cleaned v desc)))
      by (apply matched_comps_In; eauto).
    rewrite E in H. contradiction. }
  rewrite (smart_add_inferred v ing comp desc s Hi Hc Hd Hm). split.
  - exists (keep_unseen Row_eq_dec (data s)
              (inferred_rows (data s) (cleaned v ing) (cleaned v desc))).
    split; [apply keep_first_app|]. split; [apply keep_unseen_NoDup|].
    intros r. rewrite keep_unseen_In, inferred_rows_In. tauto.
  - intros r. rewrite drop_duplicates_In, in_app_iff, inferred_rows_In. tauto.
Qed.

(** What [smart_add] does when it reaches no assignment: the table and the
    file stay, the first file always warns, the second warns only when the
    descriptor finds no compound. *)
Lemma smart_add_rejected v ing comp desc s :
  writes_table v (SmartAdd ing comp desc) s = false ->
  data (smart_add pd v ing comp desc s) = data s
  /\ db_file (smart_add pd v ing comp desc s) = db_file s
  /\ (v = v5 ->
      exists m, notices (smart_add pd v ing comp desc s)
                = notices s ++ [st_warning m]).
Proof.
  unfold writes_table, smart_add. cbv zeta.
  destruct (truthy (cleaned v ing) && truthy (cleaned v comp)
            && truthy (cleaned v desc)); [discriminate|].
  cbn [orb].
  destruct (truthy (cleaned v ing) && truthy (cleaned v desc)
            && negb (truthy (cleaned v comp))).
  - destruct (matched_comps (data s) (cleaned v desc)); [|discriminate].
    intros _. simpl. eauto.
  - intros _. destruct v; simpl; eauto.
    repeat split; auto. discriminate.
Qed.

(** The second file says nothing when a field is missing: with no
    ingredient the state, messages included, is what it was. *)
Lemma smart_add_v7_silent comp desc s :
  smart_add pd v7 [] comp desc s = s.
Proof. reflexivity. Qed.

(** In the first file every test, lookup and insertion is on the stripped
    fields: the table and file it leaves are those the second file leaves
    when handed the stripped fields. *)
Lemma smart_add_v5_on_stripped ing comp desc s :
  data (smart_add pd v5 ing comp desc s)
  = data (smart_add pd v7 (strip ing) (strip comp) (strip desc) s)
  /\ db_file (smart_add pd v5 ing comp desc s)
     = db_file (smart_add pd v7 (strip ing) (strip comp) (strip desc) s).
Proof.
  unfold smart_add. cbv zeta. cbn [cleaned].
  destruct (truthy (strip ing) && truthy (strip comp) && truthy (strip desc)).
  { unfold commit_rows. cbv zeta.
    rewrite !data_notify, !db_file_notify, !data_save_db, !db_file_save_db.
    split; reflexivity. }
  destruct (truthy (strip ing) && truthy (strip desc)
            && negb (truthy (strip comp))); [|split; reflexivity].
  destruct (matched_comps (data s) (strip desc)); [split; reflexivity|].
  unfold commit_rows.
  destruct (inferred_rows (data s) (strip ing) (strip desc));
    [split; reflexivity|].
  cbv zeta.
  rewrite !data_notify, !db_file_notify, !data_save_db, !db_file_save_db.
  split; reflexivity.
Qed.

(** ** No duplicate rows after a write *)

Lemma run_without_write v a s :
  writes_table v a s = false ->
  data (run pd v a s) = data s /\ db_file (run pd v a s) = db_file s.
Proof.
  destruct a as [ing comp desc|up|]; simpl.
  - intros H. destruct (smart_add_rejected v ing comp desc s H) as (H1 & H2 & _).
    auto.
  - unfold load_data_from_excel.
    destruct (import_try up) as [e|[df|]]; [auto|discriminate|auto].
  - discriminate.
Qed.

(** Every assignment to the table is of a frame that went through
    [drop_duplicates]; [clear_db] assigns the empty one. *)
Lemma data_after_write v a s :
  writes_table v a s = true ->
  exists df, data (run pd v a s) = drop_duplicates df.
Proof.
  destruct a as [ing comp desc|up|]; simpl.
  - intros H. apply orb_true_iff in H as [H|H].
    + apply andb_true_iff in H as [H Hd]. apply andb_true_iff in H as [Hi Hc].
      apply truthy_nonempty in Hi, Hc, Hd.
      rewrite smart_add_explicit by auto. eauto.
    + apply andb_true_iff in H as [H Hm]. apply andb_true_iff in H as [H Hc].
      apply andb_true_iff in H as [Hi Hd].
      apply truthy_nonempty in Hi, Hd. apply negb_true_iff in Hc.
      assert (Hc' : cleaned v comp = [])
        by (destruct (cleaned v comp); [auto|discriminate]).
      rewrite smart_add_inferred; eauto.
      intros E. rewrite E in Hm. discriminate.
  - destruct (import_try up) as [e|[df|]] eqn:E; try discriminate.
    intros _. rewrite (data_import_accepted pd v up s df E). eauto.
  - intros _. now exists [].
Qed.

(** C3.  After an action that writes to the table, be it [smart_add] with
    three fields, [smart_add] that infers rows, an import that goes
    through or [clear_db], the table holds no row twice. *)
Theorem mutation_leaves_no_duplicates v a s :
  writes_table v a s = true -> NoDup (data (run pd v a s)).
Proof.
  intros H. destruct (data_after_write v a s H) as [df ->].
  apply drop_duplicates_NoDup.
Qed.

(** A table without duplicates stays so under every action. *)
Lemma no_duplicates_invariant v a s :
  NoDup (data s) -> NoDup (data (run pd v a s)).
Proof.
  intros H. destruct (writes_table v a s) eqn:E.
  - destruct (data_after_write v a s E) as [df ->].
    apply drop_duplicates_NoDup.
  - destruct (run_without_write v a s E) as [-> _]. exact H.
Qed.

(** A call of [smart_add] that reaches no assignment leaves the table and
    the file as they were.  It ends with a warning in the first file
    always, and in the second when ingredient and descriptor are given;
    in the second file a call without ingredient or without descriptor
    shows nothing. *)
Theorem smart_add_rejection v ing comp desc s :
  writes_table v (SmartAdd ing comp desc) s = false ->
  data (smart_add pd v ing comp desc s) = data s
  /\ db_file (smart_add pd v ing comp desc s) = db_file s
  /\ ((v = v5 \/ (cleaned v ing <> [] /\ cleaned v desc <> [])) ->
      exists m, notices (smart_add pd v ing comp desc s)
                = notices s ++ [st_warning m])
  /\ (v = v7 -> cleaned v ing = [] \/ cleaned v desc = [] ->
      notices (smart_add pd v ing comp desc s) = notices s).
Proof.
  unfold writes_table, smart_add. cbv zeta.
  destruct (cleaned v ing) as [|i0 it]; destruct (cleaned v comp) as [|c0 ct];
    destruct (cleaned v desc) as [|d0 dt]; cbn [truthy andb orb negb];
    try discriminate;
    try (intros _; destruct v; simpl; repeat split; eauto;
         try discriminate; intros [H|[H1 H2]]; congruence).
  destruct (matched_comps (data s) (d0 :: dt)); [|discriminate].
  intros _. simpl. repeat split; eauto.
  intros _ [H|H]; discriminate.
Qed.

(** An import never removes a row: those in the table before are in it
    after. *)
Theorem import_keeps_existing_rows v up s r :
  In r (data s) -> In r (data (load_data_from_excel pd v up s)).
Proof.
  intros H. unfold load_data_from_excel.
  destruct (import_try up) as [e|[df|]]; simpl; auto.
  rewrite data_save_db. simpl.
  apply drop_duplicates_In, in_app_iff. auto.
Qed.

End SmartAddFacts.

(** ** Stripping *)

Lemma lstrip_idempotent s : lstrip (lstrip s) = lstrip s.
Proof.
  induction s as [|c t IH]; simpl; auto.
  destruct (py_isspace c) eqn:E; auto. simpl. now rewrite E.
Qed.

(** What [lstrip] removes is whitespace, and what it leaves does not start
    with whitespace. *)
Lemma lstrip_spec s :
  exists l, s = l ++ lstrip s /\ Forall (fun c => py_isspace c = true) l
            /\ match lstrip s with
               | [] => True
               | c :: _ => py_isspace c = false
               end.
Proof.
  induction s as [|c t (l & E & Hl & Hh)]; simpl.
  - exists []. auto.
  - destruct (py_isspace c) eqn:Ec.
    + exists (c :: l). simpl. split; [congruence|]. auto.
    + exists []. auto.
Qed.

Lemma lstrip_app_keeps l c r :
  py_isspace c = false -> lstrip (l ++ c :: r) = lstrip l ++ c :: r.
Proof.
  intros Hc. induction l as [|x t IH]; simpl.
  - now rewrite Hc.
  - destruct (py_isspace x); auto.
Qed.

Lemma rstrip_cons_keeps c t :
  py_isspace c = false -> rstrip (c :: t) = c :: rstrip t.
Proof.
  intros Hc. unfold rstrip. simpl rev.
  rewrite lstrip_app_keeps by exact Hc.
  rewrite rev_app_distr. reflexivity.
Qed.

Lemma rstrip_idempotent s : rstrip (rstrip s) = rstrip s.
Proof. unfold rstrip. now rewrite rev_involutive, lstrip_idempotent. Qed.

(** [strip] leaves a text that neither starts nor ends with whitespace:
    stripping it again, on either side, changes nothing. *)
Lemma strip_is_stripped s :
  lstrip (strip s) = strip s /\ rstrip (strip s) = strip s.
Proof.
  unfold strip. split; [|apply rstrip_idempotent].
  destruct (lstrip_spec s) as (l & _ & _ & Hh).
  destruct (lstrip s) as [|c t]; [reflexivity|].
  rewrite rstrip_cons_keeps by exact Hh. simpl. now rewrite Hh.
Qed.

Lemma strip_idempotent s : strip (strip s) = strip s.
Proof.
  destruct (strip_is_stripped s) as [Hl Hr].
  unfold strip at 1. now rewrite Hl, Hr.
Qed.

(** [strip] removes whitespace only, from the two ends. *)
Lemma strip_removes_whitespace s :
  exists l r, s = l ++ strip s ++ r
              /\ Forall (fun c => py_isspace c = true) l
              /\ Forall (fun c => py_isspace c = true) r.
Proof.
  destruct (lstrip_spec s) as (l & E & Hl & _).
  destruct (lstrip_spec (rev (lstrip s))) as (r & Er & Hr & _).
  exists l, (rev r). split; [|split; auto].
  - unfold strip, rstrip. rewrite E at 1. f_equal.
    rewrite <- rev_app_distr, <- Er. now rewrite rev_involutive.
  - apply Forall_rev. exact Hr.
Qed.

(** ** The classifier *)

Lemma connected_comps_In df comps s c :
  In c (connected_comps (subset_of df comps) s) <->
  In c comps /\ exists r, In r df /\ ingredient r = s /\ compound r = c.
Proof.
  unfold connected_comps, subset_of.
  rewrite unique_In, in_map_iff. split.
  - intros (r & <- & Hr). apply filter_In in Hr as [Hr Ei].
    apply filter_In in Hr as [Hr Ec].
    apply str_eqb_eq in Ei. apply isin_In in Ec. eauto.
  - intros (Hc & r & Hr & Ei & <-). exists r. split; auto.
    apply filter_In. split; [|now apply str_eqb_eq].
    apply filter_In. split; auto. now apply isin_In.
Qed.

Lemma linked_true df s c :
  linked df s c = true <->
  exists r, In r df /\ ingredient r = s /\ compound r = c.
Proof.
  unfold linked. rewrite existsb_exists. split.
  - intros (r & Hr & H). apply andb_true_iff in H as [H1 H2].
    apply str_eqb_eq in H1, H2. eauto.
  - intros (r & Hr & H1 & H2). exists r. split; auto.
    apply andb_true_iff. split; now apply str_eqb_eq.
Qed.

(** The length the code compares with 2 is the number of distinct chosen
    compounds the ingredient is recorded against. *)
Lemma connected_comps_count df comps s :
  List.length (connected_comps (subset_of df comps) s)
  = linked_chosen_count df comps s.
Proof.
  unfold linked_chosen_count. apply Permutation_length.
  apply NoDup_Permutation.
  - apply unique_NoDup.
  - apply NoDup_filter, unique_NoDup.
  - intros c. rewrite connected_comps_In, filter_In, unique_In, linked_true.
    tauto.
Qed.

Lemma classify_filters df comps secondary :
  classify df comps secondary
  = (filter (strong (subset_of df comps)) secondary,
     filter (fun x => negb (strong (subset_of df comps) x)) secondary).
Proof.
  unfold classify. induction secondary as [|x t IH]; simpl; auto.
  rewrite IH. destruct (strong (subset_of df comps) x); reflexivity.
Qed.

(** C1.  A secondary ingredient is put on the strong list exactly when it
    is recorded against two or more distinct chosen compounds, and on the
    normal (weak) list, and not on the strong one, when it is recorded
    against exactly one. *)
Theorem classifier_strong_iff_two_linked df selected_comps secondary_ings s :
  In s secondary_ings ->
  (In s (strong_secondary df selected_comps secondary_ings) <->
   (2 <= linked_chosen_count df selected_comps s)%nat)
  /\ (linked_chosen_count df selected_comps s = 1%nat ->
      In s (normal_secondary df selected_comps secondary_ings)
      /\ ~ In s (strong_secondary df selected_comps secondary_ings)).
Proof.
  intros Hs. unfold strong_secondary, normal_secondary.
  rewrite classify_filters. cbn [fst snd].
  rewrite !filter_In, negb_true_iff. unfold strong.
  rewrite connected_comps_count.
  destruct (Nat.leb_spec 2 (linked_chosen_count df selected_comps s)).
  - split; [tauto|]. lia.
  - split.
    + split; [intros [_ H']; discriminate | lia].
    + intros _. split; auto. intros [_ H']. discriminate.
Qed.

(** The ingredients the callers pass as secondary are recorded against at
    least one chosen compound and are not selected. *)
Lemma sec_ings_linked df sel_ings comps s :
  In s (sec_ings df sel_ings comps) ->
  ~ In s sel_ings /\ (1 <= linked_chosen_count df comps s)%nat.
Proof.
  unfold sec_ings. rewrite filter_In, negb_true_iff, unique_In, in_map_iff.
  intros [(r & Ei & Hr) Hsel]. split.
  - intros H. apply isin_In in H. congruence.
  - unfold subset_of in Hr. apply filter_In in Hr as [Hr Hc].
    apply isin_In in Hc.
    rewrite <- connected_comps_count.
    assert (Hin : In (compound r) (connected_comps (subset_of df comps) s))
      by (apply connected_comps_In; eauto).
    destruct (connected_comps (subset_of df comps) s); [contradiction|].
    simpl. lia.
Qed.

(** *** The kind of a node *)

Lemma group_of_add_node n g G m :
  group_of (add_node n g G) m
  = if str_eqb n m then Some g else group_of G m.
Proof.
  induction G as [|[m' h] t IH]; simpl.
  - reflexivity.
  - destruct (str_eqb m' n) eqn:E1; simpl.
    + apply str_eqb_eq in E1. subst m'.
      destruct (str_eqb n m); reflexivity.
    + rewrite IH. destruct (str_eqb m' m) eqn:E2; auto.
      apply str_eqb_eq in E2. subst m'. apply str_eqb_neq in E1.
      destruct (str_eqb n m) eqn:E3; auto.
      apply str_eqb_eq in E3. congruence.
Qed.

Lemma group_of_add_nodes names g G m :
  group_of (add_nodes names g G) m
  = if isin names m then Some g else group_of G m.
Proof.
  unfold add_nodes. revert G.
  induction names as [|n t IH]; intros G; simpl.
  - reflexivity.
  - rewrite IH, group_of_add_node.
    unfold isin. simpl.
    destruct (in_dec str_eq_dec m t) as [Ht|Ht].
    + destruct (str_eq_dec n m); reflexivity.
    + unfold str_eqb. destruct (str_eq_dec n m); reflexivity.
Qed.

Lemma isin_filter p l x :
  isin (filter p l) x = isin l x && p x.
Proof.
  apply eq_true_iff_eq.
  rewrite andb_true_iff, !isin_In, filter_In. tauto.
Qed.

(** In the graph, a secondary ingredient that is not selected is a gold
    node when it is recorded against two or more distinct chosen
    compounds and a normal node otherwise, whatever other names it
    shares. *)
Theorem secondary_node_group df selected_ings selected_comps secondary_ings s :
  group_of (graph_nodes df selected_ings selected_comps secondary_ings) s
  = if isin secondary_ings s && negb (isin selected_ings s) then
      Some (if (2 <=? linked_chosen_count df selected_comps s)%nat
            then group_gold else group_normal)
    else if isin selected_comps s then Some group_comp
    else if isin selected_ings s then Some group_input
    else None.
Proof.
  unfold graph_nodes. rewrite classify_filters.
  rewrite !group_of_add_nodes, !isin_filter. unfold strong.
  rewrite connected_comps_count. simpl group_of.
  destruct (isin secondary_ings s), (isin selected_ings s),
    (2 <=? linked_chosen_count df selected_comps s)%nat,
    (isin selected_comps s); reflexivity.
Qed.

(** ** The plain CSV layer

    The layer used in the examples reads back what it wrote, for every
    table of plain fields: the hypotheses on the CSV layer made above hold
    of it on all such tables. *)

Lemma split_on_sep sep a b :
  ~ In sep a -> split_on sep (a ++ sep :: b) = a :: split_on sep b.
Proof.
  induction a as [|c t IH]; simpl; intros H.
  - now rewrite N.eqb_refl.
  - destruct (N.eqb_spec c sep) as [E|E]; [exfalso; auto|].
    rewrite IH by tauto. reflexivity.
Qed.

Lemma split_on_none sep a : ~ In sep a -> split_on sep a = [a].
Proof.
  induction a as [|c t IH]; simpl; intros H; auto.
  destruct (N.eqb_spec c sep) as [E|E]; [exfalso; auto|].
  rewrite IH by tauto. reflexivity.
Qed.

Lemma plain_cell_read_back t : ~ In t na_tokens -> plain_cell t = read_back t.
Proof.
  intros H. unfold plain_cell, na_values.
  destruct t as [|c t]; [reflexivity|].
  destruct (isin ([] :: na_tokens) (c :: t)) eqn:E; auto.
  apply isin_In in E. destruct E as [E|E]; [discriminate|contradiction].
Qed.

Lemma plain_row_fields r :
  plain_row_ok r -> plain_row (plain_fields r) = inr (read_back_row r).
Proof.
  intros ((_ & Hi & Ni & _) & (_ & Hc & Nc & _) & (_ & Hd & Nd & _)).
  unfold plain_row, plain_fields. cbn [app].
  rewrite split_on_sep by exact Hi. rewrite split_on_sep by exact Hc.
  rewrite split_on_none by exact Hd.
  unfold read_back_row. now rewrite !plain_cell_read_back.
Qed.

Lemma plain_fields_one_line r : plain_row_ok r -> ~ In 10 (plain_fields r).
Proof.
  intros ((Hi & _) & (Hc & _) & (Hd & _)). unfold plain_fields.
  rewrite !in_app_iff. simpl. intros [H|[[H|[]]|[H|[[H|[]]|H]]]];
    auto; discriminate.
Qed.

Lemma plain_lines_split df :
  Forall plain_row_ok df ->
  split_on 10 (List.concat (map plain_line df)) = map plain_fields df ++ [[]].
Proof.
  induction 1 as [|r t Hr _ IH]; simpl; auto.
  unfold plain_line at 1. rewrite <- app_assoc. cbn [app].
  rewrite split_on_sep by now apply plain_fields_one_line.
  now rewrite IH.
Qed.

Lemma plain_rows_read_back df :
  Forall plain_row_ok df ->
  plain_rows (map plain_fields df ++ [[]]) = inr (map read_back_row df).
Proof.
  induction 1 as [|r t Hr _ IH]; simpl; auto.
  rewrite IH. rewrite (plain_row_fields r Hr).
  destruct (plain_fields r) eqn:E; auto.
  unfold plain_fields in E. destruct (ingredient r); discriminate.
Qed.

Lemma plain_parse_text df :
  Forall plain_row_ok df ->
  parse_csv plain_csv (csv_text plain_csv df) = inr (map read_back_row df).
Proof.
  intros H. cbn [parse_csv csv_text plain_csv].
  unfold plain_parse, plain_text. cbn [app].
  rewrite split_on_sep by (unfold header; simpl; intuition discriminate).
  rewrite plain_lines_split by exact H.
  now apply plain_rows_read_back.
Qed.

Lemma plain_text_scalar df :
  Forall plain_row_ok df -> Forall scalar (csv_text plain_csv df).
Proof.
  intros H. cbn [csv_text plain_csv]. unfold plain_text.
  apply Forall_app. split; [apply scalar_checked; reflexivity|].
  apply Forall_app. split; [apply scalar_checked; reflexivity|].
  induction H as [|r t ((_ & _ & _ & Si) & (_ & _ & _ & Sc) & (_ & _ & _ & Sd))
                      _ IH]; simpl; auto.
  apply Forall_app. split; auto.
  unfold plain_line, plain_fields.
  repeat (apply Forall_app; split); auto; apply scalar_checked; reflexivity.
Qed.

Lemma plain_row_nan_free r : plain_row_ok r -> nan_free r.
Proof.
  intros ((_ & _ & Ni & _) & (_ & _ & Nc & _) & (_ & _ & Nd & _)).
  unfold nan_free.
  repeat split; intros E; [apply Ni|apply Nc|apply Nd];
    rewrite E; left; reflexivity.
Qed.

(** * Worked examples *)

Lemma classifier_threshold_example :
  In (lit "b") [lit "b"]
  /\ linked_chosen_count threshold_store [lit "C1"; lit "C2"] (lit "b") = 1%nat
  /\ In (lit "b")
        (normal_secondary threshold_store [lit "C1"; lit "C2"] [lit "b"])
  /\ ~ In (lit "b")
         (strong_secondary threshold_store [lit "C1"; lit "C2"] [lit "b"]).
Proof.
  split; [left; reflexivity|]. split; [reflexivity|].
  apply (proj2 (classifier_strong_iff_two_linked threshold_store
                  [lit "C1"; lit "C2"] [lit "b"] (lit "b")
                  (or_introl eq_refl))).
  reflexivity.
Defined.

(** On the store of the specification's example the code adds three rows:
    C2 carries the descriptor d1 too, so (z, C2, d1) comes with the two
    rows of C1. *)
Lemma inference_on_spec_store :
  data (smart_add plain_csv v7 (lit "z") [] (lit "d1") (fresh spec_store))
  = spec_store ++ [row "z" "C1" "d1"; row "z" "C1" "d2"; row "z" "C2" "d1"].
Proof. vm_compute. reflexivity. Qed.

Lemma smart_add_inference_example :
  (cleaned v5 (lit " z ") <> [] /\ cleaned v5 (lit "  ") = []
   /\ cleaned v5 (lit "d1 ") <> []
   /\ exists r0, In r0 (data (fresh spec_store))
                 /\ descriptor r0 = cleaned v5 (lit "d1 "))
  /\ forall r,
       In r (data (smart_add plain_csv v5 (lit " z ") (lit "  ") (lit "d1 ")
                     (fresh spec_store))) <->
       In r (data (fresh spec_store))
       \/ inherits (data (fresh spec_store)) (cleaned v5 (lit " z "))
            (cleaned v5 (lit "d1 ")) r.
Proof.
  assert (H1 : cleaned v5 (lit " z ") <> []) by (vm_compute; discriminate).
  assert (H2 : cleaned v5 (lit "  ") = []) by reflexivity.
  assert (H3 : cleaned v5 (lit "d1 ") <> []) by (vm_compute; discriminate).
  assert (H4 : exists r0, In r0 (data (fresh spec_store))
                          /\ descriptor r0 = cleaned v5 (lit "d1 "))
    by (exists (row "x" "C1" "d1"); split; [left|]; reflexivity).
  split; [auto|].
  exact (proj2 (smart_add_inference_expansion plain_csv v5
                  (lit " z ") (lit "  ") (lit "d1 ") (fresh spec_store)
                  H1 H2 H3 H4)).
Defined.

Lemma mutation_example :
  writes_table v5 (SmartAdd (lit "a") (lit "C1") (lit "d"))
    (fresh [row "a" "C1" "d"; row "a" "C1" "d"]) = true
  /\ NoDup (data (run plain_csv v5 (SmartAdd (lit "a") (lit "C1") (lit "d"))
                    (fresh [row "a" "C1" "d"; row "a" "C1" "d"]))).
Proof.
  split; [reflexivity|].
  apply mutation_leaves_no_duplicates. reflexivity.
Defined.

Lemma failed_import_example :
  (exists e, read_excel unreadable_upload = inl e)
  /\ data (load_data_from_excel plain_csv v7 unreadable_upload
             (fresh spec_store)) = spec_store
  /\ db_file (load_data_from_excel plain_csv v7 unreadable_upload
                (fresh spec_store)) = None
  /\ exists m, notices (load_data_from_excel plain_csv v7 unreadable_upload
                          (fresh spec_store))
               = notices (fresh spec_store) ++ [st_error m].
Proof.
  assert (H : exists e, read_excel unreadable_upload = inl e)
    by (eexists; reflexivity).
  split; [exact H|].
  exact (failed_import_leaves_store plain_csv v7 unreadable_upload
           (fresh spec_store) (or_introl H)).
Defined.

Lemma import_example :
  (read_excel good_upload = inr sheet /\ (3 <= shape1 sheet)%nat
   /\ raised_normalizing good_upload = None)
  /\ forall r,
       In r (data (load_data_from_excel plain_csv v5 good_upload
                     (fresh spec_store))) <->
       In r (data (fresh spec_store))
       \/ exists cells, In cells (rows sheet)
                        /\ r = normalize_row (first3 cells)
                        /\ ingredient r <> [].
Proof.
  split; [repeat split; simpl; lia|].
  apply import_keeps_rows_with_ingredient; simpl; auto.
Defined.

(** The sheet of the example, imported: the row with an ingredient only is
    taken with its two empty fields, the row without ingredient is not. *)
Lemma import_on_sheet :
  data (load_data_from_excel plain_csv v5 good_upload (fresh []))
  = [mkRow (lit "pea") [] []].
Proof. vm_compute. reflexivity. Qed.

Lemma save_db_example :
  (data (fresh saved_store) <> []
   /\ Forall scalar (csv_text plain_csv (data (fresh saved_store))))
  /\ exists bytes,
       utf_8_sig_encode (csv_text plain_csv (data (fresh saved_store)))
       = Some bytes
       /\ db_file (save_db plain_csv v5 (fresh saved_store)) = Some bytes
       /\ data (save_db plain_csv v5 (fresh saved_store))
          = data (fresh saved_store)
       /\ option_map skip_bom (utf_8_decode bytes)
          = Some (csv_text plain_csv (data (fresh saved_store))).
Proof.
  assert (H1 : data (fresh saved_store) <> []) by discriminate.
  assert (H2 : Forall scalar (csv_text plain_csv (data (fresh saved_store))))
    by (apply scalar_checked; vm_compute; reflexivity).
  split; [auto|].
  exact (proj2 (save_db_serializes_table plain_csv v5 (fresh saved_store))
           H1 H2).
Defined.

Lemma save_load_example :
  ((data (fresh saved_store) = [] -> db_file (fresh saved_store) = None)
   /\ Forall scalar (csv_text plain_csv (data (fresh saved_store)))
   /\ parse_csv plain_csv (csv_text plain_csv (data (fresh saved_store)))
      = inr (map read_back_row (data (fresh saved_store)))
   /\ Forall nan_free (data (fresh saved_store)))
  /\ data (load_db plain_csv v7
             (db_file (save_db plain_csv v7 (fresh saved_store))))
     = data (fresh saved_store).
Proof.
  assert (H1 : data (fresh saved_store) = [] ->
               db_file (fresh saved_store) = None) by reflexivity.
  assert (H2 : Forall scalar (csv_text plain_csv (data (fresh saved_store))))
    by (apply scalar_checked; vm_compute; reflexivity).
  assert (H3 : parse_csv plain_csv
                 (csv_text plain_csv (data (fresh saved_store)))
               = inr (map read_back_row (data (fresh saved_store))))
    by (vm_compute; reflexivity).
  assert (H4 : Forall nan_free (data (fresh saved_store)))
    by (repeat constructor; vm_compute; discriminate).
  split; [auto|].
  exact (save_load_roundtrip plain_csv v7 (fresh saved_store) H1 H2 H3 H4).
Defined.

(** C9 as stated fails on the empty table: it has a serialization, the
    header line, but [save_db] writes no file, in either version. *)
Lemma save_db_skips_empty_table :
  (exists bytes, to_csv plain_csv (data (fresh [])) = inr bytes)
  /\ db_file (save_db plain_csv v5 (fresh [])) = None
  /\ db_file (save_db plain_csv v7 (fresh [])) = None.
Proof.
  split; [eexists; vm_compute; reflexivity|]. split; reflexivity.
Qed.

(** C6, at the failing input.  Either file's [smart_add] stores a record
    whose descriptor is the text nan.  Saved and loaded, the record is not
    in the table, whatever the CSV layer returns for the file: [load_db]
    leaves no field that is the text nan.  With the plain layer the record
    comes back with an empty descriptor. *)
Theorem roundtrip_loses_nan_text :
  (forall pd v,
     data (smart_add pd v (lit "a") (lit "c") (lit "nan") (fresh []))
     = [row "a" "c" "nan"]
     /\ ~ In (row "a" "c" "nan")
            (data (load_db pd v
                     (db_file
                        (save_db pd v
                           (smart_add pd v (lit "a") (lit "c") (lit "nan")
                              (fresh [])))))))
  /\ (forall v,
        data (load_db plain_csv v
                (db_file
                   (save_db plain_csv v
                      (smart_add plain_csv v (lit "a") (lit "c") (lit "nan")
                         (fresh [])))))
        = [mkRow (lit "a") (lit "c") []]).
Proof.
  split.
  - intros pd v. split.
    + rewrite smart_add_explicit by (destruct v; vm_compute; discriminate).
      destruct v; vm_compute; reflexivity.
    + intros H. apply load_db_nan_free in H.
      destruct H as (_ & _ & H). apply H. reflexivity.
  - intros v. destruct v; vm_compute; reflexivity.
Qed.

(** C8, at the failing input.  Handed an ingredient with a blank on each
    side, the second file stores it with the blanks; the first stores it
    stripped. *)
Theorem smart_add_v7_keeps_whitespace :
  data (smart_add plain_csv v7 (lit " a ") (lit "c") (lit "d") (fresh []))
  = [mkRow (lit " a ") (lit "c") (lit "d")]
  /\ data (smart_add plain_csv v5 (lit " a ") (lit "c") (lit "d") (fresh []))
     = [mkRow (lit "a") (lit "c") (lit "d")].
Proof. split; vm_compute; reflexivity. Qed.

(** C5, at the failing input.  Called with no ingredient, the second file
    returns without a word: the state, messages included, is unchanged. *)
Theorem smart_add_v7_silent_without_ingredient :
  smart_add plain_csv v7 [] (lit "c") (lit "d") (fresh spec_store)
  = fresh spec_store
  /\ notices (smart_add plain_csv v5 [] (lit "c") (lit "d") (fresh spec_store))
     = [st_warning MissingFields].
Proof. split; reflexivity. Qed.

(** Rejected calls of [smart_add] in the first file: one warning, nothing
    stored. *)
Lemma smart_add_rejection_example :
  writes_table v5 (SmartAdd (lit "z") [] (lit "smoky")) (fresh spec_store)
  = false
  /\ data (smart_add plain_csv v5 (lit "z") [] (lit "smoky")
             (fresh spec_store)) = spec_store
  /\ exists m, notices (smart_add plain_csv v5 (lit "z") [] (lit "smoky")
                          (fresh spec_store))
               = notices (fresh spec_store) ++ [st_warning m].
Proof.
  assert (H : writes_table v5 (SmartAdd (lit "z") [] (lit "smoky"))
                (fresh spec_store) = false) by reflexivity.
  destruct (smart_add_rejection plain_csv v5 (lit "z") [] (lit "smoky")
              (fresh spec_store) H) as (H1 & _ & H3 & _).
  split; [exact H|]. split; [exact H1|]. apply H3. left. reflexivity.
Defined.

Lemma no_duplicates_example :
  NoDup (data (fresh spec_store))
  /\ NoDup (data (run plain_csv v7 (Import good_upload) (fresh spec_store))).
Proof.
  assert (H : NoDup (data (fresh spec_store))).
  { repeat constructor; simpl; intuition discriminate. }
  split; [exact H|].
  exact (no_duplicates_invariant plain_csv v7 (Import good_upload)
           (fresh spec_store) H).
Defined.

Lemma import_keeps_existing_example :
  In (row "y" "C2" "d1") (data (fresh spec_store))
  /\ In (row "y" "C2" "d1")
        (data (load_data_from_excel plain_csv v5 good_upload
                 (fresh spec_store))).
Proof.
  assert (H : In (row "y" "C2" "d1") (data (fresh spec_store)))
    by (simpl; auto).
  split; [exact H|].
  exact (import_keeps_existing_rows plain_csv v5 good_upload
           (fresh spec_store) (row "y" "C2" "d1") H).
Defined.

(** * More on the actions *)

Lemma keep_unseen_length (A : Type) (eq_dec : forall a b : A, {a = b} + {a <> b})
  (seen l : list A) :
  (List.length (keep_unseen eq_dec seen l) <= List.length l)%nat.
Proof.
  revert seen; induction l as [|x t IH]; intros seen; simpl; auto.
  destruct (in_dec eq_dec x seen); simpl.
  - specialize (IH seen). lia.
  - specialize (IH (x :: seen)). lia.
Qed.

Lemma drop_duplicates_nil df : drop_duplicates df = [] -> df = [].
Proof. apply keep_first_nil. Qed.

Section ActionFacts.
Variable pd : Pandas.

(** The two branches of [smart_add] that write, as states. *)
Lemma smart_add_explicit_state v ing comp desc s :
  cleaned v ing <> [] -> cleaned v comp <> [] -> cleaned v desc <> [] ->
  smart_add pd v ing comp desc s
  = commit_rows pd v
      [mkRow (cleaned v ing) (cleaned v comp) (cleaned v desc)]
      match v with
      | v5 => Added (cleaned v ing) (cleaned v comp)
      | v7 => AddedOk
      end s.
Proof.
  intros Hi Hc Hd. unfold smart_add. cbv zeta.
  apply truthy_nonempty in Hi, Hc, Hd. now rewrite Hi, Hc, Hd.
Qed.

Lemma smart_add_inferred_state v ing comp desc s :
  cleaned v ing <> [] -> cleaned v comp = [] -> cleaned v desc <> [] ->
  matched_comps (data s) (cleaned v desc) <> [] ->
  smart_add pd v ing comp desc s
  = commit_rows pd v
      (inferred_rows (data s) (cleaned v ing) (cleaned v desc))
      match v with
      | v5 => Inferred (List.length (matched_comps (data s) (cleaned v desc)))
      | v7 => AddedOk
      end s.
Proof.
  intros Hi Hc Hd Hm. unfold smart_add. cbv zeta.
  apply truthy_nonempty in Hi, Hd. rewrite Hi, Hd, Hc. cbn [andb truthy negb].
  destruct (matched_comps (data s) (cleaned v desc)); [congruence|reflexivity].
Qed.

Lemma db_file_commit_rows v new_rows msg s :
  new_rows <> [] ->
  db_file (commit_rows pd v new_rows msg s)
  = file_after_save pd (drop_duplicates (data s ++ new_rows)) (db_file s).
Proof.
  intros H. unfold commit_rows. destruct new_rows; [congruence|].
  cbv zeta. rewrite db_file_notify, db_file_save_db. reflexivity.
Qed.

(** The ways in which [smart_add] writes: the rows it appends. *)
Lemma smart_add_writes v ing comp desc s :
  writes_table v (SmartAdd ing comp desc) s = true ->
  exists new_rows,
    new_rows <> []
    /\ (forall r, In r new_rows -> ingredient r = cleaned v ing)
    /\ cleaned v ing <> []
    /\ data (smart_add pd v ing comp desc s)
       = drop_duplicates (data s ++ new_rows)
    /\ db_file (smart_add pd v ing comp desc s)
       = file_after_save pd (drop_duplicates (data s ++ new_rows)) (db_file s).
Proof.
  simpl. intros H. apply orb_true_iff in H as [H|H].
  - apply andb_true_iff in H as [H Hd]. apply andb_true_iff in H as [Hi Hc].
    apply truthy_nonempty in Hi, Hc, Hd.
    exists [mkRow (cleaned v ing) (cleaned v comp) (cleaned v desc)].
    rewrite (smart_add_explicit_state v ing comp desc s Hi Hc Hd).
    split; [discriminate|]. split; [intros r [<-|[]]; reflexivity|].
    split; [exact Hi|].
    split; [apply data_commit_rows | apply db_file_commit_rows]; discriminate.
  - apply andb_true_iff in H as [H Hm]. apply andb_true_iff in H as [H Hc].
    apply andb_true_iff in H as [Hi Hd].
    apply truthy_nonempty in Hi, Hd. apply negb_true_iff in Hc.
    assert (Hc' : cleaned v comp = [])
      by (destruct (cleaned v comp); [auto|discriminate]).
    assert (Hm' : matched_comps (data s) (cleaned v desc) <> [])
      by (intros E; rewrite E in Hm; discriminate).
    pose proof (inferred_rows_nonempty (data s) (cleaned v ing) _ Hm') as Hne.
    exists (inferred_rows (data s) (cleaned v ing) (cleaned v desc)).
    rewrite (smart_add_inferred_state v ing comp desc s Hi Hc' Hd Hm').
    split; [exact Hne|]. split.
    { intros r Hr. apply inferred_rows_In in Hr as (m & d & -> & _).
      reflexivity. }
    split; [exact Hi|].
    split; [now apply data_commit_rows | now apply db_file_commit_rows].
Qed.

Lemma db_file_import_accepted v up s df :
  import_try up = inr (Some df) ->
  db_file (load_data_from_excel pd v up s)
  = file_after_save pd (drop_duplicates (data s ++ df)) (db_file s).
Proof.
  intros H. unfold load_data_from_excel. rewrite H. cbv zeta.
  rewrite db_file_notify, db_file_save_db. reflexivity.
Qed.

(** With all three fields filled, [smart_add] makes the table hold its old
    rows and the one record of the three fields (stripped, in the first
    file).  On a table without duplicates the record goes to the end, or
    nowhere when it is there already. *)
Theorem smart_add_explicit_inserts v ing comp desc s :
  cleaned v ing <> [] -> cleaned v comp <> [] -> cleaned v desc <> [] ->
  (forall r,
     In r (data (smart_add pd v ing comp desc s)) <->
     In r (data s)
     \/ r = mkRow (cleaned v ing) (cleaned v comp) (cleaned v desc))
  /\ (NoDup (data s) ->
      data (smart_add pd v ing comp desc s)
      = if in_dec Row_eq_dec
             (mkRow (cleaned v ing) (cleaned v comp) (cleaned v desc)) (data s)
        then data s
        else data s
             ++ [mkRow (cleaned v ing) (cleaned v comp) (cleaned v desc)]).
Proof.
  intros Hi Hc Hd. rewrite (smart_add_explicit pd v ing comp desc s Hi Hc Hd).
  split.
  - intros r. rewrite drop_duplicates_In, in_app_iff. simpl.
    intuition congruence.
  - intros Hnd. unfold drop_duplicates. rewrite keep_first_app.
    rewrite (keep_first_fixed _ _ _ Hnd). simpl.
    destruct (in_dec Row_eq_dec _ (data s)); [apply app_nil_r|reflexivity].
Qed.

Lemma writes_table_data v a s1 s2 :
  data s1 = data s2 -> writes_table v a s1 = writes_table v a s2.
Proof. intros E. destruct a; simpl; auto. now rewrite E. Qed.

(** The rows inferred from the table after an inference are rows inferred
    from the table before. *)
Lemma inherits_after_inference df ing desc r :
  inherits (drop_duplicates (df ++ inferred_rows df ing desc)) ing desc r ->
  inherits df ing desc r.
Proof.
  intros (m & d & -> & (r1 & H1 & D1 & C1) & (r2 & H2 & C2 & D2)).
  apply drop_duplicates_In, in_app_iff in H1, H2.
  assert (Hm : exists r1', In r1' df /\ descriptor r1' = desc
                           /\ compound r1' = m).
  { destruct H1 as [H1|H1]; [eauto|].
    apply inferred_rows_In in H1 as (m' & d' & -> & Hm' & _).
    simpl in C1. now subst m'. }
  exists m, d. split; auto. split; auto.
  destruct H2 as [H2|H2]; [eauto|].
  apply inferred_rows_In in H2 as (m' & d' & -> & _ & Hd').
  simpl in C2, D2. now subst m' d'.
Qed.

(** [smart_add] called a second time with the same fields leaves the
    table as the first call left it, whichever branch it takes. *)
Theorem smart_add_twice_same_table v ing comp desc s :
  data (smart_add pd v ing comp desc (smart_add pd v ing comp desc s))
  = data (smart_add pd v ing comp desc s).
Proof.
  set (once := smart_add pd v ing comp desc s).
  destruct (writes_table v (SmartAdd ing comp desc) s) eqn:W.
  - pose proof W as W'. simpl in W'. apply orb_true_iff in W' as [H|H].
    + apply andb_true_iff in H as [H Hd]. apply andb_true_iff in H as [Hi Hc].
      apply truthy_nonempty in Hi, Hc, Hd.
      rewrite (smart_add_explicit pd v ing comp desc once Hi Hc Hd).
      subst once. rewrite (smart_add_explicit pd v ing comp desc s Hi Hc Hd).
      apply keep_first_absorb. intros x Hx. apply in_app_iff. auto.
    + apply andb_true_iff in H as [H Hm]. apply andb_true_iff in H as [H Hc].
      apply andb_true_iff in H as [Hi Hd].
      apply truthy_nonempty in Hi, Hd. apply negb_true_iff in Hc.
      assert (Hc' : cleaned v comp = [])
        by (destruct (cleaned v comp); [auto|discriminate]).
      assert (Hm' : matched_comps (data s) (cleaned v desc) <> [])
        by (intros E; rewrite E in Hm; discriminate).
      assert (E1 : data once
                   = drop_duplicates
                       (data s ++ inferred_rows (data s) (cleaned v ing)
                                    (cleaned v desc)))
        by (apply smart_add_inferred; auto).
      assert (Hm1 : matched_comps (data once) (cleaned v desc) <> []).
      { destruct (matched_comps (data s) (cleaned v desc)) as [|m ms] eqn:E;
          [congruence|].
        assert (Hin : In m (matched_comps (data s) (cleaned v desc)))
          by (rewrite E; simpl; auto).
        apply matched_comps_In in Hin as (r & Hr & Hrd & Hrc).
        intros E'.
        assert (Hin' : In m (matched_comps (data once) (cleaned v desc))).
        { apply matched_comps_In. exists r. split; auto.
          rewrite E1. apply drop_duplicates_In, in_app_iff. auto. }
        rewrite E' in Hin'. contradiction. }
      rewrite (smart_add_inferred pd v ing comp desc once Hi Hc' Hd Hm1).
      rewrite !E1.
      apply keep_first_absorb. intros x Hx.
      apply in_app_iff. right. apply inferred_rows_In.
      apply inherits_after_inference. apply inferred_rows_In. exact Hx.
  - destruct (smart_add_rejected pd v ing comp desc s W) as (E & _ & _).
    fold once in E.
    assert (W1 : writes_table v (SmartAdd ing comp desc) once = false)
      by (rewrite (writes_table_data v _ once s E); exact W).
    destruct (smart_add_rejected pd v ing comp desc once W1) as (E1 & _ & _).
    exact E1.
Qed.

(** No action but [clear_db] takes a row out of the table. *)
Theorem only_clear_removes_rows v a s r :
  a <> Clear -> In r (data s) -> In r (data (run pd v a s)).
Proof.
  intros Ha Hr. destruct (writes_table v a s) eqn:W.
  - destruct a as [ing comp desc|up|]; [| |congruence]; simpl.
    + destruct (smart_add_writes v ing comp desc s W) as (n & _ & _ & _ & -> & _).
      apply drop_duplicates_In, in_app_iff. auto.
    + simpl in W. destruct (import_try up) as [e|[df|]] eqn:E;
        try discriminate.
      rewrite (data_import_accepted pd v up s df E).
      apply drop_duplicates_In, in_app_iff. auto.
  - destruct (run_without_write pd v a s W) as [-> _]. exact Hr.
Qed.

(** When every row of the table has an ingredient, every row has one
    after any action: nothing stores a record without ingredient. *)
Theorem ingredient_never_empty v a s :
  Forall (fun r => ingredient r <> []) (data s) ->
  Forall (fun r => ingredient r <> []) (data (run pd v a s)).
Proof.
  intros H. destruct (writes_table v a s) eqn:W.
  - rewrite Forall_forall in *.
    destruct a as [ing comp desc|up|]; simpl.
    + destruct (smart_add_writes v ing comp desc s W)
        as (n & _ & Hn & Hi & -> & _).
      intros r Hr. apply drop_duplicates_In, in_app_iff in Hr as [Hr|Hr]; auto.
      rewrite (Hn r Hr). exact Hi.
    + simpl in W. destruct (import_try up) as [e|[df|]] eqn:E;
        try discriminate.
      rewrite (data_import_accepted pd v up s df E).
      intros r Hr. apply drop_duplicates_In, in_app_iff in Hr as [Hr|Hr]; auto.
      unfold import_try in E. destruct (read_excel up) as [e|f]; [discriminate|].
      destruct (3 <=? shape1 f)%nat; [|discriminate].
      destruct (raised_normalizing up); [discriminate|].
      injection E as <-. apply import_rows_In in Hr as (cells & _ & _ & Hne).
      exact Hne.
    + intros r [].
  - destruct (run_without_write pd v a s W) as [-> _]. exact H.
Qed.

(** After an action that writes, a table that is not empty is in the
    backing file: the file holds the bytes [to_csv] gives for the table
    as the action left it. *)
Theorem accepted_action_written_through v a s bytes :
  writes_table v a s = true ->
  data (run pd v a s) <> [] ->
  to_csv pd (data (run pd v a s)) = inr bytes ->
  db_file (run pd v a s) = Some bytes.
Proof.
  intros W Hne Hcsv.
  assert (F : db_file (run pd v a s)
              = file_after_save pd (data (run pd v a s)) (db_file s)).
  { destruct a as [ing comp desc|up|]; simpl in *.
    - destruct (smart_add_writes v ing comp desc s W)
        as (n & _ & _ & _ & -> & ->). reflexivity.
    - destruct (import_try up) as [e|[df|]] eqn:E; try discriminate.
      rewrite (data_import_accepted pd v up s df E).
      apply db_file_import_accepted. exact E.
    - congruence. }
  rewrite F. unfold file_after_save.
  destruct (data (run pd v a s)); [congruence|]. now rewrite Hcsv.
Qed.

(** A new session started after an action that wrote finds the table as
    the action left it, given a state in which an empty table had no
    backing file, and a table whose CSV text is encodable, comes back from
    the reader field for field, and holds no field that is the text nan. *)
Theorem restart_restores_table v a s :
  writes_table v a s = true ->
  (data s = [] -> db_file s = None) ->
  Forall scalar (csv_text pd (data (run pd v a s))) ->
  parse_csv pd (csv_text pd (data (run pd v a s)))
  = inr (map read_back_row (data (run pd v a s))) ->
  Forall nan_free (data (run pd v a s)) ->
  data (load_db pd v (db_file (run pd v a s))) = data (run pd v a s).
Proof.
  intros W Hfile Hsc Hparse Hnan.
  assert (F : a <> Clear ->
              db_file (run pd v a s)
              = file_after_save pd (data (run pd v a s)) (db_file s)
              /\ (data (run pd v a s) = [] -> data s = [])).
  { intros Ha. destruct a as [ing comp desc|up|]; [| |congruence]; simpl in *.
    - destruct (smart_add_writes v ing comp desc s W)
        as (n & Hn & _ & _ & -> & ->). split; auto.
      intros E. apply drop_duplicates_nil, app_eq_nil in E. tauto.
    - destruct (import_try up) as [e|[df|]] eqn:E; try discriminate.
      rewrite (data_import_accepted pd v up s df E).
      split; [apply db_file_import_accepted; exact E|].
      intros E'. apply drop_duplicates_nil, app_eq_nil in E'. tauto. }
  destruct (data (run pd v a s)) as [|r0 d] eqn:E.
  - assert (Hnone : db_file (run pd v a s) = None).
    { destruct a as [ing comp desc|up|]; [| |reflexivity].
      - destruct F as [F1 F2]; [discriminate|]. rewrite F1.
        simpl. apply Hfile, F2. reflexivity.
      - destruct F as [F1 F2]; [discriminate|]. rewrite F1.
        simpl. apply Hfile, F2. reflexivity. }
    rewrite Hnone. reflexivity.
  - destruct F as [F1 _]; [intros ->; discriminate|].
    destruct (utf_8_encode_scalar _ Hsc) as [bs Hbs].
    assert (Henc : utf_8_sig_encode (csv_text pd (r0 :: d))
                   = Some (BOM_UTF8 ++ bs))
      by (unfold utf_8_sig_encode; now rewrite Hbs).
    rewrite F1. unfold file_after_save, to_csv. rewrite Henc.
    unfold load_db, read_csv.
    pose proof (read_back_utf_8_sig _ _ Henc) as Hback.
    destruct (utf_8_decode (BOM_UTF8 ++ bs)) as [text|]; [|discriminate].
    simpl in Hback. injection Hback as ->. rewrite Hparse. cbn [data].
    rewrite map_map. rewrite <- (map_id (r0 :: d)) at 2.
    apply map_ext_in. intros r Hr. apply normalize_read_back_row.
    rewrite Forall_forall in Hnan. auto.
Qed.

(** The first file reports as imported the number of rows of the sheet
    that have an ingredient, be they new to the table or not; the table
    grows by no more than that. *)
Theorem import_reports_sheet_rows up s f :
  read_excel up = inr f -> (3 <= shape1 f)%nat ->
  raised_normalizing up = None ->
  (exists earlier,
     notices (load_data_from_excel pd v5 up s)
     = earlier ++ [st_success (Imported (List.length (import_rows f)))])
  /\ (List.length (data (load_data_from_excel pd v5 up s))
      <= List.length (drop_duplicates (data s))
         + List.length (import_rows f))%nat.
Proof.
  intros H1 H2 H3.
  pose proof (import_try_accepted up f H1 H2 H3) as E. split.
  - unfold load_data_from_excel. rewrite E. cbv zeta. unfold notify.
    cbn [notices]. eauto.
  - rewrite (data_import_accepted pd v5 up s _ E).
    unfold drop_duplicates. rewrite keep_first_app, length_app.
    pose proof (keep_unseen_length Row Row_eq_dec (data s) (import_rows f)). lia.
Qed.

End ActionFacts.

(** * Choosing the compounds *)

(** ** Sorting *)

Section SortFacts.
Variable A : Type.
Variable le : A -> A -> bool.

Lemma insert_sorted_perm x l : Permutation (insert_sorted le x l) (x :: l).
Proof.
  induction l as [|y t IH]; simpl; auto.
  destruct (le x y); auto.
  rewrite IH. apply perm_swap.
Qed.

Lemma sort_by_perm l : Permutation (sort_by le l) l.
Proof.
  induction l as [|x t IH]; simpl; auto.
  rewrite insert_sorted_perm. now constructor.
Qed.

Lemma sort_by_In l x : In x (sort_by le l) <-> In x l.
Proof.
  split; apply Permutation_in;
    [apply sort_by_perm | symmetry; apply sort_by_perm].
Qed.

Lemma sort_by_NoDup l : NoDup l -> NoDup (sort_by le l).
Proof.
  apply Permutation_NoDup. symmetry. apply sort_by_perm.
Qed.

Hypothesis le_total : forall a b, le a b = false -> le b a = true.
Hypothesis le_trans :
  forall a b c, le a b = true -> le b c = true -> le a c = true.

Lemma insert_sorted_sorted x l :
  StronglySorted (fun a b => le a b = true) l ->
  StronglySorted (fun a b => le a b = true) (insert_sorted le x l).
Proof.
  induction 1 as [|y t Ht IH Hy]; simpl.
  - repeat constructor.
  - destruct (le x y) eqn:E.
    + constructor; [now constructor|].
      constructor; auto.
      rewrite Forall_forall in *. intros z Hz. eauto.
    + constructor; auto.
      apply (Permutation_Forall (x := x :: t)).
      * symmetry. apply insert_sorted_perm.
      * constructor; auto.
Qed.

Lemma sort_by_sorted l :
  StronglySorted (fun a b => le a b = true) (sort_by le l).
Proof.
  induction l as [|x t IH]; simpl; [constructor|].
  now apply insert_sorted_sorted.
Qed.
End SortFacts.

Lemma str_leb_total a b : str_leb a b = false -> str_leb b a = true.
Proof.
  revert b; induction a as [|x a IH]; intros [|y b]; simpl; try easy.
  destruct (N.ltb_spec x y), (N.ltb_spec y x); try easy; try lia.
  apply IH.
Qed.

Lemma str_leb_trans a b c :
  str_leb a b = true -> str_leb b c = true -> str_leb a c = true.
Proof.
  revert b c; induction a as [|x a IH]; intros [|y b] [|z c]; simpl;
    try easy.
  destruct (N.ltb_spec x y), (N.ltb_spec y x), (N.ltb_spec y z),
    (N.ltb_spec z y), (N.ltb_spec x z), (N.ltb_spec z x);
    try easy; try lia.
  apply IH.
Qed.

Lemma str_leb_antisym a b :
  str_leb a b = true -> str_leb b a = true -> a = b.
Proof.
  revert b; induction a as [|x a IH]; intros [|y b]; simpl; try easy.
  destruct (N.ltb_spec x y), (N.ltb_spec y x); try easy; try lia.
  intros H1 H2. f_equal; [lia|auto].
Qed.

Lemma sorted_In l x : In x (sorted l) <-> In x l.
Proof. apply sort_by_In. Qed.

Lemma sorted_ascending l :
  StronglySorted (fun a b => str_leb a b = true) (sorted l).
Proof. apply sort_by_sorted; [apply str_leb_total | apply str_leb_trans]. Qed.

(** ** First file: shared compounds and the others *)

Lemma comps_of_ing_In df i c :
  In c (unique (map compound (filter (fun r => str_eqb (ingredient r) i) df)))
  <-> owns df i c.
Proof.
  unfold owns. rewrite unique_In, in_map_iff. split.
  - intros (r & <- & Hr). apply filter_In in Hr as [Hr E].
    apply str_eqb_eq in E. eauto.
  - intros (r & Hr & E & <-). exists r. split; auto.
    apply filter_In. split; auto. now apply str_eqb_eq.
Qed.

Lemma shared_In df sel_ings c :
  In c (shared df sel_ings) <->
  (2 <= List.length sel_ings)%nat /\ forall i, In i sel_ings -> owns df i c.
Proof.
  unfold shared, ing_sets. rewrite length_map.
  destruct (Nat.ltb_spec 1 (List.length sel_ings)) as [H|H].
  - destruct sel_ings as [|i0 rest]; [simpl in H; lia|].
    cbn [map intersection]. rewrite filter_In, forallb_forall, comps_of_ing_In.
    split.
    + intros [H0 Hrest]. split; [lia|]. intros i [<-|Hi]; auto.
      apply comps_of_ing_In, isin_In, Hrest, in_map_iff. eauto.
    + intros [_ Hall]. split; [apply Hall; simpl; auto|].
      intros s Hs. apply in_map_iff in Hs as (i & <- & Hi).
      apply isin_In, comps_of_ing_In, Hall. simpl; auto.
  - simpl. split; [tauto|]. intros [H' _]. lia.
Qed.

Lemma all_rel_In df sel_ings c :
  In c (all_rel df sel_ings) <-> exists i, In i sel_ings /\ owns df i c.
Proof.
  unfold all_rel, owns. rewrite unique_In, in_map_iff. split.
  - intros (r & <- & Hr). apply filter_In in Hr as [Hr E].
    apply isin_In in E. eauto 6.
  - intros (i & Hi & r & Hr & <- & <-). exists r. split; auto.
    apply filter_In. split; auto. now apply isin_In.
Qed.

(** The compounds the first file offers.  The shared list holds, when two
    or more ingredients are selected, the compounds that every selected
    ingredient is recorded with, and is empty otherwise; the other list
    holds the remaining compounds of the selected ingredients.  Each list
    is in ascending order without repeats, and no compound is on both. *)
Theorem shared_and_other_options df sel_ings :
  (forall c,
     In c (sorted (shared df sel_ings)) <->
     (2 <= List.length sel_ings)%nat
     /\ forall i, In i sel_ings -> owns df i c)
  /\ (forall c,
        In c (sorted (unique_comps df sel_ings)) <->
        (exists i, In i sel_ings /\ owns df i c)
        /\ ~ In c (sorted (shared df sel_ings)))
  /\ NoDup (sorted (shared df sel_ings))
  /\ NoDup (sorted (unique_comps df sel_ings))
  /\ StronglySorted (fun a b => str_leb a b = true)
       (sorted (shared df sel_ings))
  /\ StronglySorted (fun a b => str_leb a b = true)
       (sorted (unique_comps df sel_ings)).
Proof.
  split; [intros c; rewrite sorted_In; apply shared_In|].
  split.
  { intros c. rewrite !sorted_In. unfold unique_comps.
    rewrite filter_In, all_rel_In, negb_true_iff.
    split.
    - intros [H1 H2]. split; auto. intros H. apply isin_In in H. congruence.
    - intros [H1 H2]. split; auto.
      destruct (isin (shared df sel_ings) c) eqn:E; auto.
      apply isin_In in E. contradiction. }
  split.
  { apply sort_by_NoDup. unfold shared.
    destruct (1 <? List.length (ing_sets df sel_ings))%nat; [|constructor].
    unfold ing_sets. destruct sel_ings; simpl; [constructor|].
    apply NoDup_filter, unique_NoDup. }
  split; [apply sort_by_NoDup, NoDup_filter, unique_NoDup|].
  split; apply sorted_ascending.
Qed.

(** ** The secondary ingredients and the numbers shown *)

(** The secondary ingredients handed to the classifier are, each once,
    the ingredients that are not selected and have a row with a chosen
    compound; each of them is recorded against at least one chosen
    compound. *)
Theorem sec_ings_spec df sel_ings final_comps :
  NoDup (sec_ings df sel_ings final_comps)
  /\ forall s,
       In s (sec_ings df sel_ings final_comps) <->
       ~ In s sel_ings
       /\ (exists c, In c final_comps /\ owns df s c)
       /\ (1 <= linked_chosen_count df final_comps s)%nat.
Proof.
  split; [apply NoDup_filter, unique_NoDup|].
  intros s. split.
  - intros H. destruct (sec_ings_linked df sel_ings final_comps s H) as [H1 H2].
    split; auto. split; auto.
    unfold sec_ings in H. apply filter_In in H as [H _].
    apply unique_In, in_map_iff in H as (r & E & Hr).
    apply filter_In in Hr as [Hr Hc]. apply isin_In in Hc.
    exists (compound r). split; auto. exists r. auto.
  - intros (Hsel & (c & Hc & r & Hr & Ei & Ec) & _).
    unfold sec_ings. apply filter_In. split.
    + apply unique_In, in_map_iff. exists r. split; auto.
      apply filter_In. split; auto. apply isin_In. now rewrite Ec.
    + apply negb_true_iff. destruct (isin sel_ings s) eqn:E; auto.
      apply isin_In in E. contradiction.
Qed.

Lemma count_loop (A : Type) (p : A -> bool) l k :
  fold_left (fun count x => if p x then S count else count) l k
  = (k + List.length (filter p l))%nat.
Proof.
  revert k; induction l as [|x t IH]; intros k; simpl; [lia|].
  rewrite IH. destruct (p x); simpl; lia.
Qed.

(** The number of strong ingredients announced above the graph is the
    number of ingredients on the strong list of the graph's title, and
    the strong and normal lists together have as many members as there
    are secondary ingredients. *)
Theorem announced_counts_agree df final_comps sec :
  strong_count df final_comps sec
  = List.length (strong_secondary df final_comps sec)
  /\ (List.length (strong_secondary df final_comps sec)
      + List.length (normal_secondary df final_comps sec)
      = List.length sec)%nat.
Proof.
  unfold strong_count, strong_secondary, normal_secondary.
  rewrite classify_filters. cbn [fst snd]. split.
  - apply (count_loop str (strong (subset_of df final_comps)) sec 0%nat).
  - induction sec as [|x t IH]; simpl; auto.
    destruct (strong (subset_of df final_comps) x); simpl; lia.
Qed.

(** ** Second file: owners and tiers *)

Lemma dict_get_owners_add c i o k :
  dict_get (owners_add c i o) k
  = if str_eqb c k
    then (if isin (dict_get o c) i then dict_get o c else dict_get o c ++ [i])
    else dict_get o k.
Proof.
  induction o as [|[k' os] t IH]; simpl.
  - destruct (str_eqb c k); reflexivity.
  - destruct (str_eqb k' c) eqn:E1; simpl.
    + apply str_eqb_eq in E1. subst k'.
      destruct (str_eqb c k); reflexivity.
    + rewrite IH. destruct (str_eqb k' k) eqn:E2; auto.
      apply str_eqb_eq in E2. subst k'.
      apply str_eqb_neq in E1.
      destruct (str_eqb c k) eqn:E3; auto.
      apply str_eqb_eq in E3. congruence.
Qed.

Lemma keys_owners_add c i o :
  map fst (owners_add c i o)
  = if isin (map fst o) c then map fst o else map fst o ++ [c].
Proof.
  induction o as [|[k' os] t IH]; simpl; auto.
  destruct (str_eqb k' c) eqn:E1; simpl.
  - apply str_eqb_eq in E1. subst k'.
    replace (isin (c :: map fst t) c) with true; auto.
    symmetry. apply isin_In. simpl; auto.
  - apply str_eqb_neq in E1. rewrite IH.
    destruct (isin (map fst t) c) eqn:E2, (isin (k' :: map fst t) c) eqn:E3;
      auto.
    + apply isin_In in E2.
      assert (E : isin (k' :: map fst t) c = true)
        by (apply isin_In; simpl; auto).
      congruence.
    + apply isin_In in E3. destruct E3 as [E3|E3]; [congruence|].
      apply isin_In in E3. congruence.
Qed.

Lemma In_dict_get (d : Dict) k vs :
  NoDup (map fst d) -> In (k, vs) d -> dict_get d k = vs.
Proof.
  induction d as [|[k' vs'] t IH]; simpl; [tauto|].
  intros Hnd [E|H].
  - injection E as -> ->. unfold str_eqb.
    destruct (str_eq_dec k k); congruence.
  - inversion Hnd as [|? ? Hk Ht]; subst.
    destruct (str_eqb k' k) eqn:E.
    + apply str_eqb_eq in E. subst k'. exfalso. apply Hk.
      apply in_map_iff. exists (k, vs). auto.
    + auto.
Qed.

Lemma dict_get_In (d : Dict) k :
  In k (map fst d) -> In (k, dict_get d k) d.
Proof.
  induction d as [|[k' vs'] t IH]; simpl; [tauto|].
  destruct (str_eqb k' k) eqn:E.
  - apply str_eqb_eq in E. subst k'. auto.
  - apply str_eqb_neq in E. intros [H|H]; [congruence|auto].
Qed.

(** The owners after the loop over [rows], started from [acc]. *)
Lemma owners_fold_get rows acc c i :
  In i (dict_get
          (fold_left (fun owners r =>
                        owners_add (compound r) (ingredient r) owners)
                     rows acc) c)
  <-> In i (dict_get acc c) \/ owns rows i c.
Proof.
  revert acc; induction rows as [|r t IH]; intros acc; simpl.
  - unfold owns. simpl. split; [auto|]. intros [H|(r & [] & _)]. exact H.
  - rewrite IH, dict_get_owners_add. unfold owns. simpl.
    destruct (str_eqb (compound r) c) eqn:E.
    + apply str_eqb_eq in E. subst c.
      destruct (isin (dict_get acc (compound r)) (ingredient r)) eqn:Ei.
      * apply isin_In in Ei. split.
        -- intros [H|(r' & Hr' & H1 & H2)]; eauto 7.
        -- intros [H|(r' & [<-|Hr'] & H1 & H2)]; eauto 7.
           subst i. auto.
      * rewrite in_app_iff. simpl. split.
        -- intros [[H|[<-|[]]]|(r' & Hr' & H1 & H2)]; eauto 7.
        -- intros [H|(r' & [<-|Hr'] & H1 & H2)]; eauto 7.
    + apply str_eqb_neq in E. split.
      * intros [H|(r' & Hr' & H1 & H2)]; eauto 7.
      * intros [H|(r' & [<-|Hr'] & H1 & H2)]; eauto 7. congruence.
Qed.

Lemma owners_fold_NoDup rows acc :
  (forall c, NoDup (dict_get acc c)) ->
  forall c,
    NoDup (dict_get
             (fold_left (fun owners r =>
                           owners_add (compound r) (ingredient r) owners)
                        rows acc) c).
Proof.
  revert acc; induction rows as [|r t IH]; intros acc H; simpl; auto.
  apply IH. intros c. rewrite dict_get_owners_add.
  destruct (str_eqb (compound r) c); auto.
  destruct (isin (dict_get acc (compound r)) (ingredient r)) eqn:E; auto.
  apply NoDup_app; auto.
  - repeat constructor. intros [].
  - intros x Hx [<-|[]]. apply isin_In in Hx. congruence.
Qed.

Lemma owners_fold_keys rows acc :
  NoDup (map fst acc) ->
  NoDup (map fst (fold_left (fun owners r =>
                               owners_add (compound r) (ingredient r) owners)
                            rows acc))
  /\ forall c,
       In c (map fst (fold_left (fun owners r =>
                                   owners_add (compound r) (ingredient r)
                                     owners)
                                rows acc))
       <-> In c (map fst acc) \/ exists i, owns rows i c.
Proof.
  revert acc; induction rows as [|r t IH]; intros acc H; simpl.
  - split; auto. intros c. split; auto.
    intros [Hc|(i & r & [] & _)]. exact Hc.
  - assert (Hk : NoDup (map fst (owners_add (compound r) (ingredient r) acc))).
    { rewrite keys_owners_add.
      destruct (isin (map fst acc) (compound r)) eqn:E; auto.
      apply NoDup_app; auto.
      - repeat constructor. intros [].
      - intros x Hx [<-|[]]. apply isin_In in Hx. congruence. }
    destruct (IH _ Hk) as [H1 H2]. split; auto.
    intros c. rewrite H2, keys_owners_add. unfold owns. simpl.
    destruct (isin (map fst acc) (compound r)) eqn:E.
    + apply isin_In in E. split.
      * intros [Hc|(i & r' & Hr' & Hi & Hc)]; eauto 8.
      * intros [Hc|(i & r' & [<-|Hr'] & Hi & Hc)]; eauto 8.
        subst c. auto.
    + rewrite in_app_iff. simpl. split.
      * intros [[Hc|[<-|[]]]|(i & r' & Hr' & Hi & Hc)]; eauto 8.
      * intros [Hc|(i & r' & [<-|Hr'] & Hi & Hc)]; eauto 8.
Qed.

(** What the dict of owners holds: one entry for each compound of the
    rows, with the ingredients that have a row with it, each once. *)
Lemma owners_of_entries subset c oss :
  In (c, oss) (owners_of subset) ->
  NoDup oss /\ oss <> [] /\ forall i, In i oss <-> owns subset i c.
Proof.
  intros H. unfold owners_of in *.
  destruct (owners_fold_keys subset [] (NoDup_nil _)) as [Hnd Hkeys].
  assert (Hc : In c (map fst (fold_left
                                (fun owners r =>
                                   owners_add (compound r) (ingredient r)
                                     owners) subset [])))
    by (apply in_map_iff; exists (c, oss); auto).
  pose proof (In_dict_get _ c oss Hnd H) as E.
  assert (Hmem : forall i, In i oss <-> owns subset i c).
  { intros i. rewrite <- E, owners_fold_get. simpl. tauto. }
  split; [|split; auto].
  - rewrite <- E. apply owners_fold_NoDup. intros; constructor.
  - apply Hkeys in Hc as [[]|(i & Hi)].
    apply Hmem in Hi. intros ->. contradiction.
Qed.

Lemma owners_of_has_entry subset i c :
  owns subset i c -> exists oss, In (c, oss) (owners_of subset).
Proof.
  intros H. unfold owners_of.
  destruct (owners_fold_keys subset [] (NoDup_nil _)) as [_ Hkeys].
  eexists. apply dict_get_In, Hkeys. eauto.
Qed.

Lemma owners_of_keys_NoDup subset : NoDup (map fst (owners_of subset)).
Proof. apply (owners_fold_keys subset [] (NoDup_nil _)). Qed.

Lemma unique_map_append_spec i c (m : Dict) :
  In i (map fst m) ->
  exists m',
    unique_map_append i c m = Some m'
    /\ map fst m' = map fst m
    /\ forall j, dict_get m' j
                 = if str_eqb i j then dict_get m i ++ [c] else dict_get m j.
Proof.
  induction m as [|[k cs] t IH]; simpl; [tauto|].
  intros H. destruct (str_eqb k i) eqn:E.
  - apply str_eqb_eq in E. subst k. eexists. split; [reflexivity|].
    split; [reflexivity|]. intros j. simpl.
    destruct (str_eqb i j); reflexivity.
  - apply str_eqb_neq in E. destruct H as [H|H]; [congruence|].
    destruct (IH H) as (m' & -> & Hk & Hg). eexists. split; [reflexivity|].
    split; [simpl; now rewrite Hk|]. intros j. simpl. rewrite Hg.
    destruct (str_eqb k j) eqn:E2; auto.
    apply str_eqb_eq in E2. subst k.
    destruct (str_eqb i j) eqn:E3; auto.
    apply str_eqb_eq in E3. congruence.
Qed.

Lemma tiers_fold sel_ings entries t0 :
  (forall c i, In (c, [i]) entries -> In i (map fst (unique_map t0))) ->
  exists t,
    fold_left (tier_step sel_ings) entries (Some t0) = Some t
    /\ shared_all t
       = shared_all t0 ++ map fst (filter (tier_all sel_ings) entries)
    /\ shared_some t
       = shared_some t0 ++ map fst (filter (tier_some sel_ings) entries)
    /\ forall i,
         dict_get (unique_map t) i
         = dict_get (unique_map t0) i
           ++ map fst (filter (tier_unique sel_ings i) entries).
Proof.
  revert t0; induction entries as [|[c oss] rest IH]; intros t0 Hkeys.
  - exists t0. simpl. repeat split; intros; now rewrite app_nil_r.
  - cbn [fold_left tier_step].
    unfold tier_all at 1, tier_some at 1. cbn [filter snd fst].
    unfold tier_unique, tier_some, tier_all. cbn [snd].
    destruct ((List.length oss =? List.length sel_ings)%nat
              && (1 <? List.length sel_ings)%nat) eqn:Ea; cbn [negb andb].
    { destruct (IH (mkTiers (shared_all t0 ++ [c]) (shared_some t0)
                      (unique_map t0))) as (t & Hf & H1 & H2 & H3).
      - intros c' i' H. apply (Hkeys c' i'). simpl; auto.
      - exists t. split; [exact Hf|]. cbn [shared_all shared_some unique_map] in *.
        split; [rewrite H1, <- app_assoc; reflexivity|]. split; auto. }
    destruct (2 <=? List.length oss)%nat eqn:Eb; cbn [negb andb].
    { destruct (IH (mkTiers (shared_all t0) (shared_some t0 ++ [c])
                      (unique_map t0))) as (t & Hf & H1 & H2 & H3).
      - intros c' i' H. apply (Hkeys c' i'). simpl; auto.
      - exists t. split; [exact Hf|]. cbn [shared_all shared_some unique_map] in *.
        split; auto. split; [rewrite H2, <- app_assoc; reflexivity|]. auto. }
    destruct oss as [|j [|j' oss']].
    + destruct (IH t0) as (t & Hf & H1 & H2 & H3).
      * intros c' i' H. apply (Hkeys c' i'). simpl; auto.
      * exists t. destruct t0. auto.
    + assert (Hj : In j (map fst (unique_map t0)))
        by (apply (Hkeys c j); simpl; auto).
      destruct (unique_map_append_spec j c _ Hj) as (m' & -> & Hk & Hg).
      cbn [option_map].
      destruct (IH (mkTiers (shared_all t0) (shared_some t0) m'))
        as (t & Hf & H1 & H2 & H3).
      * intros c' i' H. cbn [unique_map]. rewrite Hk.
        apply (Hkeys c' i'). simpl; auto.
      * exists t. split; [exact Hf|]. cbn [shared_all shared_some unique_map] in *.
        split; auto. split; auto. intros i. rewrite H3, Hg.
        destruct (str_eqb j i) eqn:E.
        -- apply str_eqb_eq in E. subst i. cbn [map fst].
           rewrite <- app_assoc. reflexivity.
        -- reflexivity.
    + simpl in Eb. discriminate.
Qed.

Lemma In_filter_keys (p : str * list str -> bool) (d : Dict) c :
  In c (map fst (filter p d)) <-> exists oss, In (c, oss) d /\ p (c, oss) = true.
Proof.
  rewrite in_map_iff. split.
  - intros ([c' oss] & <- & H). apply filter_In in H. eauto.
  - intros (oss & H1 & H2). exists (c, oss). split; auto.
    apply filter_In. auto.
Qed.

Lemma forallb_false (A : Type) (p : A -> bool) l :
  forallb p l = false -> exists x, In x l /\ p x = false.
Proof.
  induction l as [|x t IH]; simpl; [discriminate|].
  destruct (p x) eqn:E; simpl; eauto.
  intros H. destruct (IH H) as (y & Hy & Hp). eauto.
Qed.

(** Lengths of lists without repeats, one inside the other. *)
Lemma full_length (oss sel : list str) :
  NoDup oss -> NoDup sel -> incl oss sel ->
  (List.length oss = List.length sel <-> incl sel oss).
Proof.
  intros H1 H2 H3. split.
  - intros E. apply NoDup_length_incl; auto. lia.
  - intros H4.
    pose proof (NoDup_incl_length H1 H3).
    pose proof (NoDup_incl_length H2 H4). lia.
Qed.

Lemma two_members (oss : list str) :
  NoDup oss ->
  ((2 <= List.length oss)%nat <-> exists i j, i <> j /\ In i oss /\ In j oss).
Proof.
  intros H. split.
  - destruct oss as [|i [|j t]]; simpl; try lia. intros _.
    exists i, j. split; [|auto].
    inversion H; subst. simpl in *. intros ->. tauto.
  - intros (i & j & Hne & Hi & Hj).
    destruct oss as [|x [|y t]]; simpl in *; try lia; try tauto.
    destruct Hi as [<-|[]], Hj as [<-|[]]. congruence.
Qed.

Lemma feature_subset_selected df sel_ings f_descs r :
  In r (feature_subset df sel_ings f_descs) -> In (ingredient r) sel_ings.
Proof.
  unfold feature_subset. destruct f_descs; intros H.
  - apply filter_In in H as [_ H]. now apply isin_In.
  - apply filter_In in H as [H _]. apply filter_In in H as [_ H].
    now apply isin_In.
Qed.

Lemma dict_get_empty_lists (keys : list str) k :
  dict_get (map (fun i => (i, [])) keys) k = [].
Proof.
  induction keys as [|x t IH]; simpl; auto.
  destruct (str_eqb x k); auto.
Qed.

(** The tiers of the second file, for distinct selected ingredients and
    any choice of descriptors.  The loop never fails on a missing key.  A
    compound is in the first tier when two or more ingredients are
    selected and each has a row with it; in the second when two or more
    ingredients have a row with it but not all the selected ones; and in
    the list of ingredient [i] when [i] is the only one that has a row
    with it.  The rows are those of [subset], after the choice of
    descriptors. *)
Theorem compound_tiers df sel_ings f_descs :
  NoDup sel_ings ->
  exists t,
    tiers sel_ings (feature_subset df sel_ings f_descs) = Some t
    /\ forall c,
         (In c (shared_all t) <->
          (2 <= List.length sel_ings)%nat
          /\ forall i, In i sel_ings ->
                       owns (feature_subset df sel_ings f_descs) i c)
         /\ (In c (shared_some t) <->
             (exists i j, i <> j
                          /\ owns (feature_subset df sel_ings f_descs) i c
                          /\ owns (feature_subset df sel_ings f_descs) j c)
             /\ exists i, In i sel_ings
                          /\ ~ owns (feature_subset df sel_ings f_descs) i c)
         /\ forall i,
              In c (dict_get (unique_map t) i) <->
              owns (feature_subset df sel_ings f_descs) i c
              /\ forall j, owns (feature_subset df sel_ings f_descs) j c ->
                           j = i.
Proof.
  intros Hsel. set (S := feature_subset df sel_ings f_descs).
  assert (Hown : forall i c, owns S i c -> In i sel_ings).
  { intros i c (r & Hr & <- & _).
    now apply (feature_subset_selected df sel_ings f_descs). }
  assert (Hentry : forall c oss,
             In (c, oss) (owners_of S) ->
             NoDup oss /\ oss <> [] /\ (forall i, In i oss <-> owns S i c)
             /\ incl oss sel_ings).
  { intros c oss H. destruct (owners_of_entries S c oss H) as (H1 & H2 & H3).
    repeat split; auto; try apply H3.
    intros i Hi. apply (Hown i c), H3, Hi. }
  destruct (tiers_fold sel_ings (owners_of S)
              (mkTiers [] [] (map (fun i => (i, [])) (unique sel_ings))))
    as (t & Hf & Ha & Hs & Hu).
  { intros c i H. cbn [unique_map]. rewrite map_map. cbn [fst].
    rewrite map_id. apply unique_In.
    destruct (Hentry c [i] H) as (_ & _ & _ & Hincl). apply Hincl. simpl; auto. }
  exists t. split; [exact Hf|]. cbn [shared_all shared_some unique_map] in *.
  cbn [app] in Ha, Hs. intros c. split; [|split].
  - rewrite Ha, In_filter_keys. unfold tier_all. cbn [snd]. split.
    + intros (oss & Hin & Ht). apply andb_true_iff in Ht as [H1 H2].
      apply Nat.eqb_eq in H1. apply Nat.ltb_lt in H2.
      destruct (Hentry c oss Hin) as (Hnd & _ & Hmem & Hincl).
      split; [lia|]. intros i Hi. apply Hmem.
      apply (full_length oss sel_ings Hnd Hsel Hincl); auto.
    + intros [Hlen Hall]. destruct sel_ings as [|i0 rest] eqn:Es;
        [simpl in Hlen; lia|]. rewrite <- Es in *.
      assert (Hi0 : In i0 sel_ings) by (rewrite Es; simpl; auto).
      destruct (owners_of_has_entry S i0 c (Hall i0 Hi0)) as [oss Hin].
      exists oss. split; auto.
      destruct (Hentry c oss Hin) as (Hnd & _ & Hmem & Hincl).
      apply andb_true_iff. split; [apply Nat.eqb_eq | apply Nat.ltb_lt; lia].
      apply (full_length oss sel_ings Hnd Hsel Hincl).
      intros i Hi. apply Hmem, Hall, Hi.
  - rewrite Hs, In_filter_keys. unfold tier_some, tier_all. cbn [snd]. split.
    + intros (oss & Hin & Ht). apply andb_true_iff in Ht as [H1 H2].
      apply negb_true_iff in H1. apply Nat.leb_le in H2.
      destruct (Hentry c oss Hin) as (Hnd & _ & Hmem & Hincl).
      split.
      * apply (two_members oss Hnd) in H2 as (i & j & Hne & Hi & Hj).
        exists i, j. split; auto. split; apply Hmem; auto.
      * pose proof (NoDup_incl_length Hnd Hincl) as Hle.
        destruct (forallb (isin oss) sel_ings) eqn:Ef.
        -- exfalso. rewrite forallb_forall in Ef.
           assert (E : List.length oss = List.length sel_ings).
           { apply (full_length oss sel_ings Hnd Hsel Hincl).
             intros i Hi. apply isin_In, Ef, Hi. }
           apply andb_false_iff in H1 as [H1|H1].
           ++ apply Nat.eqb_neq in H1. contradiction.
           ++ apply Nat.ltb_ge in H1. lia.
        -- apply forallb_false in Ef as (i & Hi & Hno).
           exists i. split; auto. intros Ho. apply Hmem, isin_In in Ho.
           congruence.
    + intros [(i & j & Hne & Hi & Hj) (k & Hk & Hno)].
      destruct (owners_of_has_entry S i c Hi) as [oss Hin].
      exists oss. split; auto.
      destruct (Hentry c oss Hin) as (Hnd & _ & Hmem & Hincl).
      apply andb_true_iff. split.
      * apply negb_true_iff. apply andb_false_iff.
        destruct (Nat.eqb_spec (List.length oss) (List.length sel_ings))
          as [E|E]; auto.
        exfalso. apply Hno, Hmem.
        apply (full_length oss sel_ings Hnd Hsel Hincl); auto.
      * apply Nat.leb_le, (two_members oss Hnd).
        exists i, j. split; auto. split; apply Hmem; auto.
  - intros i. rewrite Hu. rewrite dict_get_empty_lists. cbn [app].
    rewrite In_filter_keys. unfold tier_unique, tier_all. cbn [snd]. split.
    + intros (oss & Hin & Ht).
      destruct (Hentry c oss Hin) as (Hnd & _ & Hmem & Hincl).
      destruct oss as [|j [|j' oss']];
        try (rewrite andb_false_r in Ht; discriminate).
      apply andb_true_iff in Ht as [_ Ht]. apply str_eqb_eq in Ht. subst j.
      split; [apply Hmem; simpl; auto|].
      intros j Hj. apply Hmem in Hj. destruct Hj as [<-|[]]. reflexivity.
    + intros [Hi Honly].
      destruct (owners_of_has_entry S i c Hi) as [oss Hin].
      destruct (Hentry c oss Hin) as (Hnd & Hne & Hmem & Hincl).
      assert (E : oss = [i]).
      { destruct oss as [|x [|y rest]]; [congruence| |].
        - f_equal. apply Honly, Hmem. simpl; auto.
        - exfalso.
          assert (Hx : x = i) by (apply Honly, Hmem; simpl; auto).
          assert (Hy : y = i) by (apply Honly, Hmem; simpl; auto).
          subst x y. inversion Hnd; subst. simpl in *. tauto. }
      subst oss. exists [i]. split; auto. cbn [List.length].
      replace (str_eqb i i) with true by (symmetry; now apply str_eqb_eq).
      destruct (List.length sel_ings) as [|[|n]]; reflexivity.
Qed.

(** * The graph *)

Lemma has_edge_adj_of G u v :
  has_edge G u v = existsb (fun kv => str_eqb (fst kv) v) (adj_of G u).
Proof. unfold has_edge, adj_of. destruct (find_node G u); reflexivity. Qed.

Lemma edge_weight_adj_of G u v : edge_weight G u v = adj_get (adj_of G u) v.
Proof. unfold edge_weight, adj_of. destruct (find_node G u); reflexivity. Qed.

Lemma find_node_app G x u :
  find_node (G ++ [x]) u
  = match find_node G u with
    | Some e => Some e
    | None => if str_eqb (node_name x) u then Some x else None
    end.
Proof.
  induction G as [|e t IH]; simpl; auto.
  destruct (str_eqb (node_name e) u); auto.
Qed.

Lemma adj_of_ensure_node n G u : adj_of (ensure_node n G) u = adj_of G u.
Proof.
  unfold ensure_node, adj_of.
  destruct (find_node G n) eqn:E; auto.
  rewrite find_node_app. destruct (find_node G u); auto.
  simpl. destruct (str_eqb n u); reflexivity.
Qed.

Lemma is_node_ensure_node n G m :
  is_node (ensure_node n G) m = is_node G m || str_eqb n m.
Proof.
  unfold ensure_node, is_node.
  destruct (find_node G n) eqn:E.
  - destruct (find_node G m) eqn:Em; auto. simpl.
    destruct (str_eqb n m) eqn:Enm; auto.
    apply str_eqb_eq in Enm. congruence.
  - rewrite find_node_app. destruct (find_node G m); auto. simpl.
    destruct (str_eqb n m); reflexivity.
Qed.

Lemma find_node_set_adj a b w G u :
  find_node (set_adj a b w G) u
  = match find_node G u with
    | Some e =>
        Some (if str_eqb a u
              then mkNode (node_name e) (node_group e)
                     (adj_set b w (node_adj e))
              else e)
    | None => None
    end.
Proof.
  induction G as [|e t IH]; simpl; auto.
  destruct (str_eqb (node_name e) a) eqn:E1; simpl.
  - apply str_eqb_eq in E1.
    destruct (str_eqb (node_name e) u) eqn:E2.
    + apply str_eqb_eq in E2.
      replace (str_eqb a u) with true; auto.
      symmetry. apply str_eqb_eq. congruence.
    + destruct (find_node t u) eqn:E3; auto.
      replace (str_eqb a u) with false; auto.
      symmetry. apply str_eqb_neq. apply str_eqb_neq in E2. congruence.
  - destruct (str_eqb (node_name e) u) eqn:E2.
    + replace (str_eqb a u) with false; auto.
      symmetry. apply str_eqb_neq. apply str_eqb_eq in E2.
      apply str_eqb_neq in E1. congruence.
    + apply IH.
Qed.

Lemma adj_of_set_adj a b w G u :
  adj_of (set_adj a b w G) u
  = if str_eqb a u && is_node G a then adj_set b w (adj_of G u)
    else adj_of G u.
Proof.
  unfold adj_of, is_node. rewrite find_node_set_adj.
  destruct (str_eqb a u) eqn:E.
  - apply str_eqb_eq in E. subst u.
    destruct (find_node G a); reflexivity.
  - destruct (find_node G u); reflexivity.
Qed.

Lemma is_node_set_adj a b w G m : is_node (set_adj a b w G) m = is_node G m.
Proof.
  unfold is_node. rewrite find_node_set_adj.
  destruct (find_node G m); reflexivity.
Qed.

(** The dict of neighbours of [u] after [add_edge a b w]. *)
Lemma adj_of_add_edge a b w G u :
  adj_of (add_edge a b w G) u
  = let first := if str_eqb a u then adj_set b w (adj_of G u)
                 else adj_of G u in
    if str_eqb b u then adj_set a w first else first.
Proof.
  unfold add_edge. rewrite !adj_of_set_adj, !adj_of_ensure_node.
  rewrite is_node_set_adj, !is_node_ensure_node.
  replace (str_eqb a a) with true by (symmetry; now apply str_eqb_eq).
  replace (str_eqb b b) with true by (symmetry; now apply str_eqb_eq).
  rewrite !orb_true_r, !andb_true_r. reflexivity.
Qed.

Lemma existsb_adj_set b w adj v :
  existsb (fun kv => str_eqb (fst kv) v) (adj_set b w adj)
  = existsb (fun kv : str * Q => str_eqb (fst kv) v) adj || str_eqb b v.
Proof.
  induction adj as [|[k x] t IH]; simpl.
  - now rewrite orb_false_r.
  - destruct (str_eqb k b) eqn:E; simpl.
    + apply str_eqb_eq in E. subst k.
      destruct (str_eqb b v); simpl; auto. now rewrite orb_false_r.
    + rewrite IH. now rewrite orb_assoc.
Qed.

Lemma adj_get_adj_set b w adj v :
  adj_get (adj_set b w adj) v
  = if str_eqb b v then Some w else adj_get adj v.
Proof.
  induction adj as [|[k x] t IH]; simpl.
  - reflexivity.
  - destruct (str_eqb k b) eqn:E; simpl.
    + apply str_eqb_eq in E. subst k. destruct (str_eqb b v); reflexivity.
    + rewrite IH. destruct (str_eqb k v) eqn:E2; auto.
      apply str_eqb_eq in E2. subst k.
      replace (str_eqb b v) with false; auto.
      symmetry. apply str_eqb_neq. apply str_eqb_neq in E. congruence.
Qed.

Lemma has_edge_add_edge a b w G u v :
  has_edge (add_edge a b w G) u v
  = has_edge G u v
    || (str_eqb a u && str_eqb b v) || (str_eqb b u && str_eqb a v).
Proof.
  rewrite !has_edge_adj_of, adj_of_add_edge. cbv zeta.
  destruct (str_eqb a u), (str_eqb b u);
    rewrite ?existsb_adj_set; simpl;
    rewrite ?orb_false_r; auto.
Qed.

Lemma edge_weight_add_edge a b w G u v :
  edge_weight (add_edge a b w G) u v
  = if (str_eqb a u && str_eqb b v) || (str_eqb b u && str_eqb a v)
    then Some w else edge_weight G u v.
Proof.
  rewrite !edge_weight_adj_of, adj_of_add_edge. cbv zeta.
  destruct (str_eqb a u), (str_eqb b u);
    rewrite ?adj_get_adj_set; simpl; auto.
  - destruct (str_eqb a v), (str_eqb b v); reflexivity.
  - now rewrite orb_false_r.
Qed.

Lemma names_set_adj a b w G :
  map name_group (set_adj a b w G) = map name_group G.
Proof.
  induction G as [|e t IH]; simpl; auto.
  destruct (str_eqb (node_name e) a); simpl; [reflexivity|].
  now rewrite IH.
Qed.

Lemma names_add_edge a b w G :
  is_node G a = true -> is_node G b = true ->
  map name_group (add_edge a b w G) = map name_group G.
Proof.
  intros Ha Hb. unfold add_edge. rewrite !names_set_adj.
  unfold ensure_node at 2. unfold is_node in Ha.
  destruct (find_node G a); [|discriminate].
  unfold ensure_node. unfold is_node in Hb.
  destruct (find_node G b); [reflexivity|discriminate].
Qed.

Lemma find_node_names G1 G2 n :
  map name_group G1 = map name_group G2 ->
  option_map name_group (find_node G1 n)
  = option_map name_group (find_node G2 n).
Proof.
  revert G2; induction G1 as [|e t IH]; intros [|e' t']; simpl;
    try discriminate; auto.
  intros H. injection H as H1 H2 H3. rewrite H1.
  destruct (str_eqb (node_name e') n); simpl.
  - unfold name_group. congruence.
  - auto.
Qed.

Lemma is_node_names G1 G2 n :
  map name_group G1 = map name_group G2 -> is_node G1 n = is_node G2 n.
Proof.
  intros H. pose proof (find_node_names G1 G2 n H) as E. unfold is_node.
  destruct (find_node G1 n), (find_node G2 n); simpl in E; congruence.
Qed.

Lemma group_attr_names G1 G2 n :
  map name_group G1 = map name_group G2 -> group_attr G1 n = group_attr G2 n.
Proof.
  intros H. pose proof (find_node_names G1 G2 n H) as E. unfold group_attr.
  destruct (find_node G1 n), (find_node G2 n); simpl in E;
    unfold name_group in E; congruence.
Qed.

(** The kind of a name in the list of nodes built before the edges. *)
Lemma group_of_graph_nodes df selected_ings selected_comps secondary_ings s :
  group_of (graph_nodes df selected_ings selected_comps secondary_ings) s
  = if isin secondary_ings s && negb (isin selected_ings s) then
      Some (if strong (subset_of df selected_comps) s
            then group_gold else group_normal)
    else if isin selected_comps s then Some group_comp
    else if isin selected_ings s then Some group_input
    else None.
Proof.
  unfold graph_nodes. rewrite classify_filters.
  rewrite !group_of_add_nodes, !isin_filter. simpl group_of.
  destruct (isin secondary_ings s), (isin selected_ings s),
    (strong (subset_of df selected_comps) s), (isin selected_comps s);
    reflexivity.
Qed.

Lemma find_node_start (N : list (str * Group)) n :
  option_map name_group
    (find_node (map (fun ng => mkNode (fst ng) (Some (snd ng)) []) N) n)
  = option_map (fun g => (n, Some g)) (group_of N n).
Proof.
  induction N as [|[m g] t IH]; simpl; auto.
  destruct (str_eqb m n) eqn:E; simpl; auto.
  apply str_eqb_eq in E. now subst m.
Qed.

Lemma group_of_In (ns : list (str * Group)) n :
  In n (map fst ns) -> group_of ns n <> None.
Proof.
  induction ns as [|[m g] t IH]; simpl; [tauto|].
  destruct (str_eqb m n) eqn:E; [discriminate|].
  apply str_eqb_neq in E. intros [H|H]; [congruence|auto].
Qed.

Lemma is_node_start (ns : list (str * Group)) n :
  is_node (map (fun ng => mkNode (fst ng) (Some (snd ng)) []) ns) n
  = match group_of ns n with Some _ => true | None => false end.
Proof.
  pose proof (find_node_start ns n) as E. unfold is_node.
  destruct (find_node _ n), (group_of ns n); simpl in E; congruence.
Qed.

Lemma group_attr_start (ns : list (str * Group)) n :
  group_attr (map (fun ng => mkNode (fst ng) (Some (snd ng)) []) ns) n
  = group_of ns n.
Proof.
  pose proof (find_node_start ns n) as E. unfold group_attr.
  destruct (find_node _ n), (group_of ns n); simpl in E;
    unfold name_group in E; congruence.
Qed.

Lemma adj_of_start (ns : list (str * Group)) u :
  adj_of (map (fun ng => mkNode (fst ng) (Some (snd ng)) []) ns) u = [].
Proof.
  unfold adj_of. induction ns as [|[m g] t IH]; simpl; auto.
  destruct (str_eqb m u); auto.
Qed.

Section GraphFacts.
Variable ver : Version.
Variable df : DataFrame.
Variables selected_ings selected_comps secondary_ings : list str.

Local Abbreviation nodes0 :=
  (graph_nodes df selected_ings selected_comps secondary_ings).
Local Abbreviation start :=
  (map (fun ng => mkNode (fst ng) (Some (snd ng)) []) nodes0).
Local Abbreviation step :=
  (edge_step ver selected_ings secondary_ings
     (strong_secondary df selected_comps secondary_ings)).

(** The ends of a row that gives an edge are nodes already. *)
Lemma edge_ends_are_nodes r :
  In r (subset_of df selected_comps) ->
  isin selected_ings (ingredient r) || isin secondary_ings (ingredient r)
  = true ->
  is_node start (ingredient r) = true /\ is_node start (compound r) = true.
Proof.
  intros Hr Hc. rewrite !is_node_start.
  rewrite !group_of_graph_nodes.
  apply filter_In in Hr as [_ Hr]. rewrite Hr.
  split.
  - destruct (isin secondary_ings (ingredient r)),
      (isin selected_ings (ingredient r)),
      (isin selected_comps (ingredient r)); simpl in *; auto; discriminate.
  - destruct (isin secondary_ings (compound r)
              && negb (isin selected_ings (compound r))); reflexivity.
Qed.

Lemma names_fold rows G :
  (forall r, In r rows -> In r (subset_of df selected_comps)) ->
  map name_group G = map name_group start ->
  map name_group (fold_left step rows G) = map name_group start.
Proof.
  revert G; induction rows as [|r t IH]; intros G Hrows HG; simpl; auto.
  apply IH; [intros; apply Hrows; simpl; auto|].
  unfold edge_step.
  destruct (isin selected_ings (ingredient r)
            || isin secondary_ings (ingredient r)) eqn:Hc; auto.
  destruct (edge_ends_are_nodes r (Hrows r (or_introl eq_refl)) Hc)
    as [H1 H2].
  rewrite names_add_edge; auto;
    rewrite (is_node_names G start _ HG); assumption.
Qed.

Lemma names_after_edges :
  map name_group
    (get_graph_data ver df selected_ings selected_comps secondary_ings)
  = map name_group start.
Proof. unfold get_graph_data. apply names_fold; auto. Qed.

(** The edges add no node: the graph returned has the nodes added before
    the edges, in that order, each with a kind. *)
Theorem edges_add_no_node :
  map name_group
    (get_graph_data ver df selected_ings selected_comps secondary_ings)
  = map (fun ng => (fst ng, Some (snd ng)))
        (graph_nodes df selected_ings selected_comps secondary_ings).
Proof.
  unfold get_graph_data.
  rewrite names_fold; auto.
  rewrite map_map. reflexivity.
Qed.

Lemma has_edge_fold rows G u v :
  has_edge (fold_left step rows G) u v
  = has_edge G u v || existsb (fun r => joins selected_ings secondary_ings r u v) rows.
Proof.
  revert G; induction rows as [|r t IH]; intros G; simpl.
  - now rewrite orb_false_r.
  - rewrite IH. unfold edge_step. unfold joins at 2.
    destruct (isin selected_ings (ingredient r)
              || isin secondary_ings (ingredient r)); simpl.
    + rewrite has_edge_add_edge. now rewrite !orb_assoc.
    + reflexivity.
Qed.

Lemma edge_weight_fold rows G u v w0 :
  (forall r, In r rows -> joins selected_ings secondary_ings r u v = true ->
             (if isin (strong_secondary df selected_comps secondary_ings)
                   (ingredient r)
              then strong_weight ver else 1%Q) = w0) ->
  edge_weight (fold_left step rows G) u v
  = if existsb (fun r => joins selected_ings secondary_ings r u v) rows then Some w0
    else edge_weight G u v.
Proof.
  revert G; induction rows as [|r t IH]; intros G Hw; simpl; auto.
  rewrite IH by (intros; apply Hw; simpl; auto).
  destruct (existsb (fun r0 => joins selected_ings secondary_ings r0 u v) t);
    [now rewrite orb_true_r|]. rewrite orb_false_r.
  pose proof (Hw r (or_introl eq_refl)) as Hr.
  unfold edge_step. unfold joins in *.
  destruct (isin selected_ings (ingredient r)
            || isin secondary_ings (ingredient r)); simpl in *; auto.
  rewrite edge_weight_add_edge.
  destruct ((str_eqb (ingredient r) u && str_eqb (compound r) v)
            || (str_eqb (compound r) u && str_eqb (ingredient r) v));
    auto.
  now rewrite Hr.
Qed.

Lemma joins_subset u v :
  existsb (fun r => joins selected_ings secondary_ings r u v) (subset_of df selected_comps) = true <->
  linked_by_row df selected_ings selected_comps secondary_ings u v
  \/ linked_by_row df selected_ings selected_comps secondary_ings v u.
Proof.
  rewrite existsb_exists. unfold joins, linked_by_row, subset_of. split.
  - intros (r & Hr & H). apply filter_In in Hr as [Hr Hc].
    apply isin_In in Hc.
    apply andb_true_iff in H as [H1 H2].
    apply orb_true_iff in H1. rewrite !isin_In in H1.
    apply orb_true_iff in H2 as [H2|H2];
      apply andb_true_iff in H2 as [E1 E2]; apply str_eqb_eq in E1, E2;
      subst u v; [left|right]; exists r; auto.
  - intros [(r & Hr & <- & <- & Hc & Hi)|(r & Hr & <- & <- & Hc & Hi)];
      exists r; (split; [apply filter_In; split; auto; now apply isin_In|]);
      apply andb_true_iff; (split; [apply orb_true_iff;
                                    rewrite !isin_In; exact Hi|]);
      apply orb_true_iff; [left|right]; apply andb_true_iff;
      split; now apply str_eqb_eq.
Qed.

(** The graph has an edge between two names exactly when a row with a
    chosen compound and a selected or secondary ingredient has the one as
    ingredient and the other as compound: an edge always joins the
    ingredient and the compound of one record. *)
Theorem edges_follow_records u w :
  has_edge (get_graph_data ver df selected_ings selected_comps secondary_ings)
    u w = true
  <-> linked_by_row df selected_ings selected_comps secondary_ings u w
      \/ linked_by_row df selected_ings selected_comps secondary_ings w u.
Proof.
  unfold get_graph_data.
  rewrite has_edge_fold, has_edge_adj_of.
  rewrite adj_of_start. simpl. apply joins_subset.
Qed.

(** When no ingredient bears the name of a chosen compound, the edge of a
    record weighs, seen from either end, the strong weight if its
    ingredient is on the strong list and 1 otherwise; and the strong
    weight is more than 1. *)
Theorem edge_weights i c :
  (forall r, In r df -> ~ In (ingredient r) selected_comps) ->
  linked_by_row df selected_ings selected_comps secondary_ings i c ->
  edge_weight (get_graph_data ver df selected_ings selected_comps secondary_ings)
    i c
  = Some (if isin (strong_secondary df selected_comps secondary_ings) i
          then strong_weight ver else 1%Q)
  /\ edge_weight
       (get_graph_data ver df selected_ings selected_comps secondary_ings) c i
     = Some (if isin (strong_secondary df selected_comps secondary_ings) i
             then strong_weight ver else 1%Q)
  /\ (1 < strong_weight ver)%Q.
Proof.
  intros Hnames Hlink.
  assert (Hi : forall r, In r (subset_of df selected_comps) ->
                         compound r <> i).
  { intros r Hr E. destruct Hlink as (r' & Hr' & Ei & _).
    apply filter_In in Hr as [_ Hr]. apply isin_In in Hr.
    apply (Hnames r' Hr'). rewrite Ei, <- E. exact Hr. }
  unfold get_graph_data.
  split; [|split].
  - rewrite (edge_weight_fold _ _ i c
               (if isin (strong_secondary df selected_comps secondary_ings) i
                then strong_weight ver else 1%Q)).
    + replace (existsb (fun r => joins selected_ings secondary_ings r i c) (subset_of df selected_comps))
        with true; auto.
      symmetry. apply joins_subset. auto.
    + intros r Hr Hj. unfold joins in Hj.
      apply andb_true_iff in Hj as [_ Hj].
      apply orb_true_iff in Hj as [Hj|Hj];
        apply andb_true_iff in Hj as [E1 E2]; apply str_eqb_eq in E1, E2.
      * now rewrite E1.
      * exfalso. apply (Hi r Hr E1).
  - rewrite (edge_weight_fold _ _ c i
               (if isin (strong_secondary df selected_comps secondary_ings) i
                then strong_weight ver else 1%Q)).
    + replace (existsb (fun r => joins selected_ings secondary_ings r c i) (subset_of df selected_comps))
        with true; auto.
      symmetry. apply joins_subset. auto.
    + intros r Hr Hj. unfold joins in Hj.
      apply andb_true_iff in Hj as [_ Hj].
      apply orb_true_iff in Hj as [Hj|Hj];
        apply andb_true_iff in Hj as [E1 E2]; apply str_eqb_eq in E1, E2.
      * exfalso. apply (Hi r Hr E2).
      * now rewrite E2.
  - destruct ver; reflexivity.
Qed.

End GraphFacts.

(** ** The matrix of the heatmap *)

Section ThreeKeys.
Variable A : Type.
Variable key : A -> nat.

Lemma insert_sorted_skip x (a b : list A) :
  Forall (fun y => (key x <=? key y)%nat = false) a ->
  insert_sorted (fun p q => (key p <=? key q)%nat) x (a ++ b)
  = a ++ insert_sorted (fun p q => (key p <=? key q)%nat) x b.
Proof.
  induction 1 as [|y t Hy _ IH]; simpl; auto.
  now rewrite Hy, IH.
Qed.

Lemma insert_sorted_front x (b : list A) :
  Forall (fun y => (key x <= key y)%nat) b ->
  insert_sorted (fun p q => (key p <=? key q)%nat) x b = x :: b.
Proof.
  destruct 1 as [|y t Hy _]; simpl; auto.
  apply Nat.leb_le in Hy. now rewrite Hy.
Qed.

Lemma Forall_filter_key (p : nat -> bool) (P : A -> Prop) (l : list A) :
  (forall y, p (key y) = true -> P y) ->
  Forall P (filter (fun y => p (key y)) l).
Proof.
  intros H. apply Forall_forall. intros y Hy.
  apply filter_In in Hy as [_ Hy]. auto.
Qed.

(** A stable sort by a key of three values puts the members of the first
    value first, then those of the second, then those of the third, each
    group in the order it had. *)
Lemma sort_by_three (l : list A) :
  (forall x, In x l -> (key x <= 2)%nat) ->
  sort_by (fun p q => (key p <=? key q)%nat) l
  = filter (fun x => (key x =? 0)%nat) l
    ++ filter (fun x => (key x =? 1)%nat) l
    ++ filter (fun x => (key x =? 2)%nat) l.
Proof.
  induction l as [|x t IH]; intros H; [reflexivity|].
  cbn [sort_by]. rewrite IH by (intros; apply H; simpl; auto).
  assert (Hx : (key x <= 2)%nat) by (apply H; simpl; auto).
  cbn [filter].
  destruct (key x) as [|[|[|k]]] eqn:E; [| | |lia]; cbn [Nat.eqb].
  - rewrite insert_sorted_front; auto.
    apply Forall_forall. intros; lia.
  - rewrite insert_sorted_skip.
    + rewrite insert_sorted_front; auto.
      apply Forall_app. split.
      * apply (Forall_filter_key (fun k => (k =? 1)%nat)).
        intros y Hy. apply Nat.eqb_eq in Hy. lia.
      * apply (Forall_filter_key (fun k => (k =? 2)%nat)).
        intros y Hy. apply Nat.eqb_eq in Hy. lia.
    + apply (Forall_filter_key (fun k => (k =? 0)%nat)).
      intros y Hy. apply Nat.eqb_eq in Hy. apply Nat.leb_gt. lia.
  - rewrite insert_sorted_skip.
    + rewrite insert_sorted_skip.
      * rewrite insert_sorted_front; auto.
        apply (Forall_filter_key (fun k => (k =? 2)%nat)).
        intros y Hy. apply Nat.eqb_eq in Hy. lia.
      * apply (Forall_filter_key (fun k => (k =? 1)%nat)).
        intros y Hy. apply Nat.eqb_eq in Hy. apply Nat.leb_gt. lia.
    + apply (Forall_filter_key (fun k => (k =? 0)%nat)).
      intros y Hy. apply Nat.eqb_eq in Hy. apply Nat.leb_gt. lia.
Qed.
End ThreeKeys.

Lemma filter_twice (A : Type) (f g : A -> bool) l :
  filter f (filter g l) = filter (fun x => g x && f x) l.
Proof.
  induction l as [|x t IH]; simpl; auto.
  destruct (g x); simpl; [destruct (f x)|]; now rewrite IH.
Qed.

(** The heatmap of the graph never fails on a node without kind.  Its
    columns are the compound nodes, its rows the input ingredients, then
    the gold ones, then the normal ones, each group in the order of the
    nodes, and a cell is 1 where the graph has an edge between the row's
    ingredient and the column's compound. *)
Theorem heatmap_rows_by_kind ver df selected_ings selected_comps
  secondary_ings :
  viz_heatmap
    (get_graph_data ver df selected_ings selected_comps secondary_ings)
  = Some
      (names_of_kind
         (graph_nodes df selected_ings selected_comps secondary_ings)
         group_comp,
       names_of_kind
         (graph_nodes df selected_ings selected_comps secondary_ings)
         group_input
       ++ names_of_kind
            (graph_nodes df selected_ings selected_comps secondary_ings)
            group_gold
       ++ names_of_kind
            (graph_nodes df selected_ings selected_comps secondary_ings)
            group_normal,
       map (fun ing =>
              map (fun comp =>
                     if has_edge
                          (get_graph_data ver df selected_ings selected_comps
                             secondary_ings) ing comp
                     then 1 else 0)
                  (names_of_kind
                     (graph_nodes df selected_ings selected_comps
                        secondary_ings) group_comp))
           (names_of_kind
              (graph_nodes df selected_ings selected_comps secondary_ings)
              group_input
            ++ names_of_kind
                 (graph_nodes df selected_ings selected_comps secondary_ings)
                 group_gold
            ++ names_of_kind
                 (graph_nodes df selected_ings selected_comps secondary_ings)
                 group_normal)).
Proof.
  set (G := get_graph_data ver df selected_ings selected_comps secondary_ings).
  set (ns := graph_nodes df selected_ings selected_comps secondary_ings).
  pose proof (names_after_edges ver df selected_ings selected_comps
                secondary_ings) as Hnames.
  fold G in Hnames. fold ns in Hnames.
  assert (Hg : forall n, group_attr G n = group_of ns n).
  { intros n. rewrite (group_attr_names G _ n Hnames).
    apply group_attr_start. }
  assert (Hn : map node_name G = map fst ns).
  { apply (f_equal (map fst)) in Hnames. rewrite !map_map in Hnames.
    exact Hnames. }
  assert (Hsome : forall n, In n (map fst ns) -> group_of ns n <> None)
    by (intros n; apply group_of_In).
  unfold viz_heatmap.
  replace (forallb _ G) with true.
  2:{ symmetry. apply forallb_forall. intros e He. rewrite Hg.
      assert (Hin : In (node_name e) (map fst ns))
        by (rewrite <- Hn; now apply in_map).
      apply Hsome in Hin. destruct (group_of ns (node_name e)); congruence. }
  cbv zeta. rewrite Hn.
  assert (Ecomps :
            filter (fun n => match group_attr G n with
                             | Some group_comp => true
                             | _ => false
                             end) (map fst ns)
            = names_of_kind ns group_comp).
  { unfold names_of_kind. apply filter_ext. intros n. rewrite Hg.
    destruct (group_of ns n) as [[]|]; reflexivity. }
  rewrite Ecomps.
  rewrite (sort_by_three str (sort_key G)).
  2:{ intros x _. unfold sort_key.
      destruct (group_attr G x) as [[]|]; lia. }
  rewrite !filter_twice.
  assert (E0 : filter (fun x => negb match group_attr G x with
                                      | Some group_comp => true
                                      | _ => false
                                      end && (sort_key G x =? 0)%nat)
                 (map fst ns) = names_of_kind ns group_input).
  { unfold names_of_kind. apply filter_ext. intros n.
    unfold sort_key. rewrite Hg.
    destruct (group_of ns n) as [[]|]; reflexivity. }
  assert (E1 : filter (fun x => negb match group_attr G x with
                                      | Some group_comp => true
                                      | _ => false
                                      end && (sort_key G x =? 1)%nat)
                 (map fst ns) = names_of_kind ns group_gold).
  { unfold names_of_kind. apply filter_ext. intros n.
    unfold sort_key. rewrite Hg.
    destruct (group_of ns n) as [[]|]; reflexivity. }
  assert (E2 : filter (fun x => negb match group_attr G x with
                                      | Some group_comp => true
                                      | _ => false
                                      end && (sort_key G x =? 2)%nat)
                 (map fst ns) = names_of_kind ns group_normal).
  { unfold names_of_kind. apply filter_ext_in. intros n Hin.
    unfold sort_key. rewrite Hg. apply Hsome in Hin.
    destruct (group_of ns n) as [[]|]; try reflexivity. congruence. }
  rewrite E0, E1, E2. reflexivity.
Qed.

(** ** The links of the flow diagram *)

Lemma index_from_nth k names n j :
  index_from k names n = Some j ->
  (k <= j)%nat /\ nth_error names (j - k) = Some n.
Proof.
  revert k; induction names as [|m t IH]; intros k; simpl; [discriminate|].
  destruct (index_from (S k) t n) as [j'|] eqn:E.
  - intros [= ->]. destruct (IH _ E) as [H1 H2]. split; [lia|].
    replace (j - k)%nat with (S (j - S k)) by lia. exact H2.
  - destruct (str_eqb m n) eqn:Em; [|discriminate].
    intros [= ->]. apply str_eqb_eq in Em. subst m.
    split; auto. now rewrite Nat.sub_diag.
Qed.

Lemma index_from_In k names n :
  In n names -> exists j, index_from k names n = Some j.
Proof.
  revert k; induction names as [|m t IH]; intros k; simpl; [tauto|].
  intros [->|H].
  - destruct (index_from (S k) t n); eauto.
    replace (str_eqb n n) with true by (symmetry; now apply str_eqb_eq).
    eauto.
  - destruct (IH (S k) H) as [j ->]. eauto.
Qed.

Lemma index_from_NoDup k names n j :
  NoDup names -> nth_error names j = Some n ->
  index_from k names n = Some (k + j)%nat.
Proof.
  revert k j; induction names as [|m t IH]; intros k j Hnd; simpl.
  - destruct j; discriminate.
  - inversion Hnd as [|? ? Hm Ht]; subst. destruct j as [|j]; simpl.
    + intros [= ->].
      destruct (index_from (S k) t n) as [j'|] eqn:E.
      * apply index_from_nth in E as [_ E]. apply nth_error_In in E.
        contradiction.
      * replace (str_eqb n n) with true by (symmetry; now apply str_eqb_eq).
        f_equal. lia.
    + intros H. rewrite (IH (S k) j Ht H). f_equal. lia.
Qed.

Lemma find_node_In G n e : find_node G n = Some e -> In n (map node_name G).
Proof.
  induction G as [|e' t IH]; simpl; [discriminate|].
  destruct (str_eqb (node_name e') n) eqn:E.
  - apply str_eqb_eq in E. auto.
  - auto.
Qed.

Lemma has_edge_is_node G u v : has_edge G u v = true -> In u (map node_name G).
Proof.
  unfold has_edge. destruct (find_node G u) eqn:E; [|discriminate].
  intros _. now apply (find_node_In G u n).
Qed.

(** A pair that [G.edges()] gives is an edge. *)
Lemma edges_from_sound seen G u v :
  NoDup (map node_name G) ->
  In (u, v) (edges_from seen G) -> has_edge G u v = true.
Proof.
  revert seen; induction G as [|e t IH]; intros seen Hnd; simpl; [tauto|].
  inversion Hnd as [|? ? He Ht]; subst.
  rewrite in_app_iff, in_map_iff. intros [([k x] & E & Hk)|H].
  - injection E as <- <-. apply filter_In in Hk as [Hk _].
    unfold has_edge. simpl.
    replace (str_eqb (node_name e) (node_name e)) with true
      by (symmetry; now apply str_eqb_eq).
    apply existsb_exists. exists (k, x). split; auto.
    now apply str_eqb_eq.
  - pose proof (IH _ Ht H) as Hedge.
    pose proof (has_edge_is_node t u v Hedge) as Hu.
    unfold has_edge in *. simpl.
    destruct (str_eqb (node_name e) u) eqn:E; auto.
    apply str_eqb_eq in E. subst u. contradiction.
Qed.

Lemma edges_from_at seen l1 e l2 v :
  existsb (fun kv => str_eqb (fst kv) v) (node_adj e) = true ->
  ~ In v seen -> ~ In v (map node_name l1) ->
  In (node_name e, v) (edges_from seen (l1 ++ e :: l2)).
Proof.
  intros Hv. revert seen; induction l1 as [|e0 t IH]; intros seen Hs Hl;
    simpl; apply in_app_iff.
  - left. apply existsb_exists in Hv as ([k x] & Hin & E).
    apply str_eqb_eq in E. simpl in E. subst k.
    apply in_map_iff. exists (v, x). split; auto.
    apply filter_In. split; auto. apply negb_true_iff.
    destruct (isin seen v) eqn:Ei; auto.
    apply isin_In in Ei. contradiction.
  - right. apply IH.
    + simpl. intros [E|H]; [|contradiction]. apply Hl. simpl. auto.
    + intros H. apply Hl. simpl. auto.
Qed.

Lemma first_of_two G a b :
  In a (map node_name G) -> In b (map node_name G) ->
  (exists l1 e l2, G = l1 ++ e :: l2 /\ node_name e = a
                   /\ ~ In a (map node_name l1) /\ ~ In b (map node_name l1))
  \/ (exists l1 e l2, G = l1 ++ e :: l2 /\ node_name e = b
                      /\ ~ In a (map node_name l1)
                      /\ ~ In b (map node_name l1)).
Proof.
  induction G as [|e0 t IH]; simpl; [tauto|].
  intros Ha Hb.
  destruct (str_eq_dec (node_name e0) a) as [Ea|Ea].
  { left. exists [], e0, t. simpl. auto. }
  destruct (str_eq_dec (node_name e0) b) as [Eb|Eb].
  { right. exists [], e0, t. simpl. auto. }
  destruct Ha as [Ha|Ha]; [contradiction|].
  destruct Hb as [Hb|Hb]; [contradiction|].
  destruct (IH Ha Hb) as [(l1 & e & l2 & -> & H1 & H2 & H3)
                         |(l1 & e & l2 & -> & H1 & H2 & H3)];
    [left|right]; exists (e0 :: l1), e, l2; simpl;
    repeat split; auto; intros [H|H]; auto.
Qed.

Lemma find_node_first l1 e l2 :
  ~ In (node_name e) (map node_name l1) ->
  find_node (l1 ++ e :: l2) (node_name e) = Some e.
Proof.
  induction l1 as [|e0 t IH]; simpl; intros H.
  - replace (str_eqb (node_name e) (node_name e)) with true; auto.
    symmetry. now apply str_eqb_eq.
  - destruct (str_eqb (node_name e0) (node_name e)) eqn:E.
    + apply str_eqb_eq in E. exfalso. apply H. auto.
    + apply IH. intros H'. apply H. auto.
Qed.

(** Every edge comes out of [G.edges()], from one end or the other. *)
Lemma edges_complete G a b :
  has_edge G a b = true -> has_edge G b a = true ->
  In (a, b) (edges G) \/ In (b, a) (edges G).
Proof.
  intros Hab Hba.
  pose proof (has_edge_is_node G a b Hab) as Ha.
  pose proof (has_edge_is_node G b a Hba) as Hb.
  destruct (first_of_two G a b Ha Hb)
    as [(l1 & e & l2 & E & H1 & H2 & H3)|(l1 & e & l2 & E & H1 & H2 & H3)].
  - left. subst a. unfold has_edge in Hab. rewrite E in Hab.
    rewrite (find_node_first l1 e l2 H2) in Hab.
    unfold edges. rewrite E. apply edges_from_at; auto.
  - right. subst b. unfold has_edge in Hba. rewrite E in Hba.
    rewrite (find_node_first l1 e l2 H3) in Hba.
    unfold edges. rewrite E. apply edges_from_at; auto.
Qed.

Lemma keys_add_node n g (G : list (str * Group)) :
  map fst (add_node n g G)
  = if isin (map fst G) n then map fst G else map fst G ++ [n].
Proof.
  induction G as [|[m h] t IH]; simpl; auto.
  destruct (str_eqb m n) eqn:E1; simpl.
  - apply str_eqb_eq in E1. subst m.
    replace (isin (n :: map fst t) n) with true; auto.
    symmetry. apply isin_In. simpl; auto.
  - apply str_eqb_neq in E1. rewrite IH.
    destruct (isin (map fst t) n) eqn:E2, (isin (m :: map fst t) n) eqn:E3;
      auto.
    + apply isin_In in E2.
      assert (E : isin (m :: map fst t) n = true)
        by (apply isin_In; simpl; auto).
      congruence.
    + apply isin_In in E3. destruct E3 as [E3|E3]; [congruence|].
      apply isin_In in E3. congruence.
Qed.

Lemma add_nodes_NoDup names g (G : list (str * Group)) :
  NoDup (map fst G) -> NoDup (map fst (add_nodes names g G)).
Proof.
  unfold add_nodes. revert G; induction names as [|n t IH]; intros G H;
    simpl; auto.
  apply IH. rewrite keys_add_node.
  destruct (isin (map fst G) n) eqn:E; auto.
  apply NoDup_app; auto.
  - repeat constructor. intros [].
  - intros x Hx [<-|[]]. apply isin_In in Hx. congruence.
Qed.

Lemma graph_nodes_NoDup df selected_ings selected_comps secondary_ings :
  NoDup (map fst (graph_nodes df selected_ings selected_comps secondary_ings)).
Proof.
  unfold graph_nodes.
  destruct (classify df selected_comps secondary_ings) as [s n].
  repeat apply add_nodes_NoDup. constructor.
Qed.

Lemma has_edge_graph ver df selected_ings selected_comps secondary_ings u v :
  has_edge (get_graph_data ver df selected_ings selected_comps secondary_ings)
    u v
  = existsb (fun r => joins selected_ings secondary_ings r u v)
      (subset_of df selected_comps).
Proof.
  unfold get_graph_data.
  rewrite has_edge_fold, has_edge_adj_of.
  now rewrite adj_of_start.
Qed.

Lemma joins_sym selected_ings secondary_ings r u v :
  joins selected_ings secondary_ings r u v
  = joins selected_ings secondary_ings r v u.
Proof.
  unfold joins. f_equal.
  rewrite orb_comm. f_equal; apply andb_comm.
Qed.

Lemma has_edge_graph_sym ver df selected_ings selected_comps secondary_ings
  u v :
  has_edge (get_graph_data ver df selected_ings selected_comps secondary_ings)
    u v
  = has_edge
      (get_graph_data ver df selected_ings selected_comps secondary_ings) v u.
Proof.
  rewrite !has_edge_graph.
  induction (subset_of df selected_comps) as [|r t IH]; simpl; auto.
  now rewrite IH, joins_sym.
Qed.

(** *** Each edge once

    A dict of neighbours has each key once, so [G.edges()] gives each
    edge once, from one of its ends. *)

Lemma adj_set_keys v w adj :
  map fst (adj_set v w adj)
  = if existsb (fun kv => str_eqb (fst kv) v) adj
    then map fst adj else map fst adj ++ [v].
Proof.
  induction adj as [|[k x] t IH]; simpl; auto.
  destruct (str_eqb k v) eqn:E; simpl; auto.
  rewrite IH. now destruct (existsb _ t).
Qed.

Lemma adj_set_NoDup v w adj :
  NoDup (map fst adj) -> NoDup (map fst (adj_set v w adj)).
Proof.
  intros H. rewrite adj_set_keys.
  destruct (existsb _ adj) eqn:E; auto.
  apply NoDup_app; auto.
  - repeat constructor. intros [].
  - intros x Hx [<-|[]]. apply in_map_iff in Hx as (kv & Hk & Hin).
    assert (E' : existsb (fun kv => str_eqb (fst kv) v) adj = true).
    { apply existsb_exists. exists kv. split; auto. now apply str_eqb_eq. }
    congruence.
Qed.

Lemma set_adj_adj_NoDup u v w G :
  Forall (fun e => NoDup (map fst (node_adj e))) G ->
  Forall (fun e => NoDup (map fst (node_adj e))) (set_adj u v w G).
Proof.
  induction 1 as [|e t He Ht IH]; simpl; [constructor|].
  destruct (str_eqb (node_name e) u); constructor; auto.
  simpl. now apply adj_set_NoDup.
Qed.

Lemma ensure_node_adj_NoDup n G :
  Forall (fun e => NoDup (map fst (node_adj e))) G ->
  Forall (fun e => NoDup (map fst (node_adj e))) (ensure_node n G).
Proof.
  intros H. unfold ensure_node. destruct (find_node G n); auto.
  apply Forall_app. split; auto. repeat constructor.
Qed.

Lemma add_edge_adj_NoDup u v w G :
  Forall (fun e => NoDup (map fst (node_adj e))) G ->
  Forall (fun e => NoDup (map fst (node_adj e))) (add_edge u v w G).
Proof.
  intros H. unfold add_edge.
  now repeat first [apply set_adj_adj_NoDup | apply ensure_node_adj_NoDup].
Qed.

Lemma graph_adj_NoDup ver df selected_ings selected_comps secondary_ings :
  Forall (fun e => NoDup (map fst (node_adj e)))
    (get_graph_data ver df selected_ings selected_comps secondary_ings).
Proof.
  unfold get_graph_data.
  generalize (subset_of df selected_comps) as rows.
  assert (H0 : Forall (fun e => NoDup (map fst (node_adj e)))
                 (map (fun ng => mkNode (fst ng) (Some (snd ng)) [])
                    (graph_nodes df selected_ings selected_comps
                       secondary_ings))).
  { apply Forall_forall. intros e He.
    apply in_map_iff in He as (ng & <- & _). constructor. }
  revert H0.
  generalize (map (fun ng => mkNode (fst ng) (Some (snd ng)) [])
                (graph_nodes df selected_ings selected_comps secondary_ings))
    as G.
  intros G HG rows. revert G HG.
  induction rows as [|r t IH]; intros G HG; simpl; auto.
  apply IH. unfold edge_step.
  destruct (isin selected_ings (ingredient r)
            || isin secondary_ings (ingredient r)); auto.
  now apply add_edge_adj_NoDup.
Qed.

Lemma edges_from_not_seen seen G u v :
  In (u, v) (edges_from seen G) -> ~ In v seen.
Proof.
  revert seen; induction G as [|e t IH]; intros seen; simpl; [tauto|].
  rewrite in_app_iff, in_map_iff. intros [([k x] & E & Hk)|H].
  - injection E as <- <-. apply filter_In in Hk as [_ Hk].
    apply negb_true_iff in Hk. intros Hin. apply isin_In in Hin.
    simpl in Hk. congruence.
  - intros Hin. apply (IH _ H). simpl. auto.
Qed.

Lemma edges_from_is_node seen G u v :
  In (u, v) (edges_from seen G) -> In u (map node_name G).
Proof.
  revert seen; induction G as [|e t IH]; intros seen; simpl; [tauto|].
  rewrite in_app_iff, in_map_iff. intros [([k x] & E & Hk)|H].
  - injection E as <- <-. auto.
  - right. exact (IH _ H).
Qed.

Lemma filter_keys_NoDup (p : str * Q -> bool) adj :
  NoDup (map fst adj) -> NoDup (map fst (filter p adj)).
Proof.
  induction adj as [|kv t IH]; simpl; auto.
  intros H. inversion H as [|? ? Hk Ht]; subst.
  destruct (p kv); simpl; auto.
  constructor; auto.
  intros Hin. apply Hk. apply in_map_iff in Hin as (y & E & Hy).
  apply filter_In in Hy as [Hy _]. apply in_map_iff. eauto.
Qed.

(** [G.edges()] gives no pair twice. *)
Lemma edges_from_NoDup seen G :
  NoDup (map node_name G) ->
  Forall (fun e => NoDup (map fst (node_adj e))) G ->
  NoDup (edges_from seen G).
Proof.
  revert seen; induction G as [|e t IH]; intros seen Hn Ha; simpl;
    [constructor|].
  inversion Hn as [|? ? He Ht]; subst.
  inversion Ha as [|? ? Ae At]; subst.
  apply NoDup_app.
  - pose proof (filter_keys_NoDup
                  (fun kv => negb (isin seen (fst kv))) (node_adj e) Ae) as H.
    induction (filter (fun kv => negb (isin seen (fst kv))) (node_adj e))
      as [|kv l IHl]; simpl; [constructor|].
    inversion H as [|? ? Hk Hl]; subst. constructor; auto.
    rewrite in_map_iff. intros (y & E & Hy). apply Hk.
    injection E as E. rewrite <- E. now apply in_map.
  - now apply IH.
  - intros [u v] H1 H2. apply in_map_iff in H1 as (kv & E & _).
    injection E as <- _. apply edges_from_is_node in H2. contradiction.
Qed.

(** And it gives no edge from both ends. *)
Lemma edges_from_one_end seen G a b :
  In (a, b) (edges_from seen G) -> In (b, a) (edges_from seen G) -> a = b.
Proof.
  revert seen; induction G as [|e t IH]; intros seen; simpl; [tauto|].
  rewrite !in_app_iff, !in_map_iff.
  intros [([k x] & E1 & _)|H1] [([k' x'] & E2 & _)|H2].
  - injection E1 as <- _. injection E2 as <- _. reflexivity.
  - injection E1 as <- _. apply edges_from_not_seen in H2.
    exfalso. apply H2. simpl. auto.
  - injection E2 as <- _. apply edges_from_not_seen in H1.
    exfalso. apply H1. simpl. auto.
  - exact (IH _ H1 H2).
Qed.

(** The loop over the edges: without [KeyError] the links are those of
    the turns that did not [continue], and no link comes twice when no
    two edges give the same one. *)
Lemma collect_links_map (f : str * str -> option (option (nat * nat))) es :
  NoDup es ->
  (forall e, In e es -> f e <> None) ->
  (forall e1 e2 link, In e1 es -> In e2 es ->
                      f e1 = Some (Some link) -> f e2 = Some (Some link) ->
                      e1 = e2) ->
  exists links,
    collect_links (map f es) = Some links
    /\ NoDup links
    /\ forall link, In link links <-> exists e, f e = Some (Some link)
                                                /\ In e es.
Proof.
  induction 1 as [|e t He Ht IH]; intros Hf Hinj; simpl.
  - exists []. split; auto. split; [constructor|].
    intros link. simpl. split; [tauto|]. intros (e & _ & []).
  - destruct IH as (links & E & Hnd & H).
    { intros; apply Hf; simpl; auto. }
    { intros e1 e2 link H1 H2. apply Hinj; simpl; auto. }
    destruct (f e) as [[link|]|] eqn:Ee.
    + exists (link :: links). rewrite E. split; auto. split.
      * constructor; auto. intros Hin. apply H in Hin as (e' & E' & Hin).
        apply He. rewrite (Hinj e e' link); simpl; auto.
      * intros k. simpl. rewrite H. split.
        -- intros [<-|(e' & E' & Hin)]; eauto.
        -- intros (e' & E' & [<-|Hin]); [left; congruence|eauto].
    + exists links. split; auto. split; auto.
      intros k. rewrite H. split.
      * intros (e' & E' & Hin). eauto.
      * intros (e' & E' & [<-|Hin]); [congruence|eauto].
    + exfalso. apply (Hf e); simpl; auto.
Qed.

Lemma sankey_link_value G names u v gu gv ku kv :
  group_attr G u = Some gu -> group_attr G v = Some gv ->
  node_map names u = Some ku -> node_map names v = Some kv ->
  sankey_link G names (u, v)
  = Some match gu, gv with
         | group_comp, group_comp => None
         | group_comp, group_input => Some (kv, ku)
         | group_comp, _ => Some (ku, kv)
         | group_input, group_comp => Some (ku, kv)
         | _, group_comp => Some (kv, ku)
         | _, _ => None
         end.
Proof.
  intros Hu Hv Ku Kv. unfold sankey_link. simpl. rewrite Hu, Hv.
  destruct gu, gv; simpl; rewrite ?Hu, ?Hv, ?Ku, ?Kv; reflexivity.
Qed.

(** The flow diagram never fails on a missing node or kind.  Its links,
    all of value 1, are the edges between a compound node and a node of
    another kind, each edge once: from an input ingredient to the
    compound, and from the compound to a gold or normal ingredient. *)
Theorem sankey_links_by_kind ver df selected_ings selected_comps
  secondary_ings :
  exists links,
    viz_sankey
      (get_graph_data ver df selected_ings selected_comps secondary_ings)
    = Some (map fst links, map snd links, map (fun _ => 1) links)
    /\ NoDup links
    /\ forall s t,
        In (s, t) links <->
        exists a b,
          nth_error
            (map fst
               (graph_nodes df selected_ings selected_comps secondary_ings))
            s = Some a
          /\ nth_error
               (map fst
                  (graph_nodes df selected_ings selected_comps
                     secondary_ings)) t = Some b
          /\ has_edge
               (get_graph_data ver df selected_ings selected_comps
                  secondary_ings) a b = true
          /\ (group_of
                (graph_nodes df selected_ings selected_comps secondary_ings)
                a = Some group_input
              /\ group_of
                   (graph_nodes df selected_ings selected_comps
                      secondary_ings) b = Some group_comp
              \/ group_of
                   (graph_nodes df selected_ings selected_comps
                      secondary_ings) a = Some group_comp
                 /\ (group_of
                       (graph_nodes df selected_ings selected_comps
                          secondary_ings) b = Some group_gold
                     \/ group_of
                          (graph_nodes df selected_ings selected_comps
                             secondary_ings) b = Some group_normal)).
Proof.
  set (G := get_graph_data ver df selected_ings selected_comps secondary_ings).
  set (ns := graph_nodes df selected_ings selected_comps secondary_ings).
  pose proof (names_after_edges ver df selected_ings selected_comps
                secondary_ings) as Hnames.
  fold G in Hnames. fold ns in Hnames.
  assert (Hg : forall n, group_attr G n = group_of ns n).
  { intros n. rewrite (group_attr_names G _ n Hnames).
    apply group_attr_start. }
  assert (Hn : map node_name G = map fst ns).
  { apply (f_equal (map fst)) in Hnames. rewrite !map_map in Hnames.
    exact Hnames. }
  assert (Hnd : NoDup (map fst ns)) by apply graph_nodes_NoDup.
  assert (Hsome : forall n, In n (map fst ns) -> group_of ns n <> None)
    by (intros n; apply group_of_In).
  assert (Hsym : forall u v, has_edge G u v = has_edge G v u).
  { intros u v. apply has_edge_graph_sym. }
  assert (Hnode : forall u v, has_edge G u v = true -> In u (map fst ns)).
  { intros u v H. rewrite <- Hn. now apply (has_edge_is_node G u v). }
  assert (Hedge : forall u v, In (u, v) (edges G) -> has_edge G u v = true).
  { intros u v. apply edges_from_sound. now rewrite Hn. }
  assert (Hval : forall u v, has_edge G u v = true ->
            exists gu gv ku kv,
              group_of ns u = Some gu /\ group_of ns v = Some gv
              /\ nth_error (map fst ns) ku = Some u
              /\ nth_error (map fst ns) kv = Some v
              /\ sankey_link G (map fst ns) (u, v)
                 = Some match gu, gv with
                        | group_comp, group_comp => None
                        | group_comp, group_input => Some (kv, ku)
                        | group_comp, _ => Some (ku, kv)
                        | group_input, group_comp => Some (ku, kv)
                        | _, group_comp => Some (kv, ku)
                        | _, _ => None
                        end).
  { intros u v H.
    pose proof (Hnode u v H) as Hu.
    rewrite Hsym in H. pose proof (Hnode v u H) as Hv.
    pose proof (Hsome u Hu) as Gu. pose proof (Hsome v Hv) as Gv.
    destruct (group_of ns u) as [gu|] eqn:Eu; [|congruence].
    destruct (group_of ns v) as [gv|] eqn:Ev; [|congruence].
    destruct (index_from_In 0 (map fst ns) u Hu) as [ku Ku].
    destruct (index_from_In 0 (map fst ns) v Hv) as [kv Kv].
    exists gu, gv, ku, kv. repeat split; auto.
    - apply index_from_nth in Ku as [_ Ku].
      now rewrite Nat.sub_0_r in Ku.
    - apply index_from_nth in Kv as [_ Kv].
      now rewrite Nat.sub_0_r in Kv.
    - apply sankey_link_value; auto; rewrite Hg; auto. }
  assert (Hidx : forall k1 k2 n, nth_error (map fst ns) k1 = Some n ->
                   nth_error (map fst ns) k2 = Some n -> k1 = k2).
  { intros k1 k2 n H1 H2.
    apply (proj1 (NoDup_nth_error (map fst ns)) Hnd); [|congruence].
    apply nth_error_Some. congruence. }
  assert (Hends : forall u v s t,
            In (u, v) (edges G) ->
            sankey_link G (map fst ns) (u, v) = Some (Some (s, t)) ->
            nth_error (map fst ns) s = Some u
            /\ nth_error (map fst ns) t = Some v
            \/ nth_error (map fst ns) s = Some v
               /\ nth_error (map fst ns) t = Some u).
  { intros u v s t He Hl.
    destruct (Hval u v (Hedge u v He))
      as (gu & gv & ku & kv & _ & _ & Ku & Kv & El).
    rewrite El in Hl.
    destruct gu, gv; try discriminate; injection Hl as <- <-; auto. }
  destruct (collect_links_map (sankey_link G (map node_name G)) (edges G))
    as (links & E & Hlnd & Hlinks).
  { apply edges_from_NoDup; [now rewrite Hn|apply graph_adj_NoDup]. }
  { intros [u v] He. rewrite Hn.
    destruct (Hval u v (Hedge u v He))
      as (gu & gv & ku & kv & _ & _ & _ & _ & ->). discriminate. }
  { intros [u1 v1] [u2 v2] [s t] H1 H2. rewrite Hn. intros L1 L2.
    destruct (Hends u1 v1 s t H1 L1) as [[A1 B1]|[A1 B1]],
             (Hends u2 v2 s t H2 L2) as [[A2 B2]|[A2 B2]];
      try congruence.
    - assert (u1 = v2) by congruence. assert (v1 = u2) by congruence.
      subst v2 u2.
      rewrite (edges_from_one_end [] G u1 v1 H1 H2). reflexivity.
    - assert (u1 = v2) by congruence. assert (v1 = u2) by congruence.
      subst v2 u2.
      rewrite (edges_from_one_end [] G u1 v1 H1 H2). reflexivity. }
  exists links. split; [|split; [exact Hlnd|]].
  - unfold viz_sankey.
    replace (forallb _ G) with true.
    2:{ symmetry. apply forallb_forall. intros e He. rewrite Hg.
        assert (Hin : In (node_name e) (map fst ns))
          by (rewrite <- Hn; now apply in_map).
        apply Hsome in Hin.
        destruct (group_of ns (node_name e)); congruence. }
    now rewrite E.
  - intros s t. rewrite Hlinks. rewrite Hn. split.
    + intros ([u v] & Hl & He).
      pose proof (Hedge u v He) as Huv.
      destruct (Hval u v Huv)
        as (gu & gv & ku & kv & Gu & Gv & Ku & Kv & El).
      rewrite El in Hl.
      destruct gu, gv; try discriminate; injection Hl as <- <-.
      * exists u, v. auto 10.
      * exists v, u. rewrite Hsym. auto 10.
      * exists u, v. auto 10.
      * exists u, v. auto 10.
      * exists v, u. rewrite Hsym. auto 10.
      * exists v, u. rewrite Hsym. auto 10.
    + intros (a & b & Ka & Kb & Hab & Hk).
      assert (Hba : has_edge G b a = true) by now rewrite Hsym.
      destruct (edges_complete G a b Hab Hba) as [He|He].
      * exists (a, b). split; auto.
        destruct (Hval a b Hab)
          as (gu & gv & ku & kv & Gu & Gv & Ku & Kv & El).
        rewrite El.
        rewrite (Hidx _ _ _ Ku Ka), (Hidx _ _ _ Kv Kb).
        destruct Hk as [[H1 H2]|[H1 [H2|H2]]];
          rewrite H1 in Gu; rewrite H2 in Gv;
          injection Gu as <-; injection Gv as <-; reflexivity.
      * exists (b, a). split; auto.
        destruct (Hval b a Hba)
          as (gu & gv & ku & kv & Gu & Gv & Ku & Kv & El).
        rewrite El.
        rewrite (Hidx _ _ _ Ku Kb), (Hidx _ _ _ Kv Ka).
        destruct Hk as [[H1 H2]|[H1 [H2|H2]]];
          rewrite H1 in Gv; rewrite H2 in Gu;
          injection Gu as <-; injection Gv as <-; reflexivity.
Qed.

(** * More worked examples *)

Lemma smart_add_explicit_inserts_example :
  (cleaned v5 (lit " z ") <> [] /\ cleaned v5 (lit "C3") <> []
   /\ cleaned v5 (lit "d9") <> [])
  /\ (forall r,
        In r (data (smart_add plain_csv v5 (lit " z ") (lit "C3") (lit "d9")
                      (fresh spec_store))) <->
        In r (data (fresh spec_store))
        \/ r = mkRow (cleaned v5 (lit " z ")) (cleaned v5 (lit "C3"))
                 (cleaned v5 (lit "d9")))
  /\ (NoDup (data (fresh spec_store)) ->
      data (smart_add plain_csv v5 (lit " z ") (lit "C3") (lit "d9")
              (fresh spec_store))
      = if in_dec Row_eq_dec
             (mkRow (cleaned v5 (lit " z ")) (cleaned v5 (lit "C3"))
                (cleaned v5 (lit "d9"))) (data (fresh spec_store))
        then data (fresh spec_store)
        else data (fresh spec_store)
             ++ [mkRow (cleaned v5 (lit " z ")) (cleaned v5 (lit "C3"))
                   (cleaned v5 (lit "d9"))]).
Proof.
  assert (H1 : cleaned v5 (lit " z ") <> []) by (vm_compute; discriminate).
  assert (H2 : cleaned v5 (lit "C3") <> []) by (vm_compute; discriminate).
  assert (H3 : cleaned v5 (lit "d9") <> []) by (vm_compute; discriminate).
  split; [auto|].
  exact (smart_add_explicit_inserts plain_csv v5 (lit " z ") (lit "C3")
           (lit "d9") (fresh spec_store) H1 H2 H3).
Defined.

Lemma only_clear_removes_rows_example :
  (SmartAdd (lit "z") [] (lit "d1") <> Clear
   /\ In (row "x" "C1" "d1") (data (fresh spec_store)))
  /\ In (row "x" "C1" "d1")
        (data (run plain_csv v7 (SmartAdd (lit "z") [] (lit "d1"))
                 (fresh spec_store))).
Proof.
  assert (H1 : SmartAdd (lit "z") [] (lit "d1") <> Clear) by discriminate.
  assert (H2 : In (row "x" "C1" "d1") (data (fresh spec_store)))
    by (left; reflexivity).
  split; [auto|].
  exact (only_clear_removes_rows plain_csv v7 (SmartAdd (lit "z") [] (lit "d1"))
           (fresh spec_store) (row "x" "C1" "d1") H1 H2).
Defined.

Lemma ingredient_never_empty_example :
  Forall (fun r => ingredient r <> []) (data (fresh spec_store))
  /\ Forall (fun r => ingredient r <> [])
       (data (run plain_csv v7 (Import good_upload) (fresh spec_store))).
Proof.
  assert (H : Forall (fun r => ingredient r <> []) (data (fresh spec_store)))
    by (repeat constructor; discriminate).
  split; [exact H|].
  exact (ingredient_never_empty plain_csv v7 (Import good_upload)
           (fresh spec_store) H).
Defined.

Lemma accepted_action_written_through_example :
  exists bytes,
    (writes_table v5 (SmartAdd (lit "z") (lit "C3") (lit "d9"))
       (fresh spec_store) = true
     /\ data (run plain_csv v5 (SmartAdd (lit "z") (lit "C3") (lit "d9"))
                (fresh spec_store)) <> []
     /\ to_csv plain_csv
          (data (run plain_csv v5 (SmartAdd (lit "z") (lit "C3") (lit "d9"))
                   (fresh spec_store))) = inr bytes)
    /\ db_file (run plain_csv v5 (SmartAdd (lit "z") (lit "C3") (lit "d9"))
                  (fresh spec_store)) = Some bytes.
Proof.
  assert (H1 : writes_table v5 (SmartAdd (lit "z") (lit "C3") (lit "d9"))
                 (fresh spec_store) = true) by reflexivity.
  assert (H2 : data (run plain_csv v5
                       (SmartAdd (lit "z") (lit "C3") (lit "d9"))
                       (fresh spec_store)) <> [])
    by (vm_compute; discriminate).
  destruct (to_csv plain_csv
              (data (run plain_csv v5
                       (SmartAdd (lit "z") (lit "C3") (lit "d9"))
                       (fresh spec_store)))) as [e|bytes] eqn:E.
  - vm_compute in E. discriminate.
  - exists bytes. split; [auto|].
    exact (accepted_action_written_through plain_csv v5
             (SmartAdd (lit "z") (lit "C3") (lit "d9")) (fresh spec_store)
             bytes H1 H2 E).
Defined.

Lemma restart_restores_table_example :
  (writes_table v7 (SmartAdd (lit "z") (lit "C3") (lit "d9"))
     (fresh saved_store) = true
   /\ (data (fresh saved_store) = [] -> db_file (fresh saved_store) = None)
   /\ Forall scalar
        (csv_text plain_csv
           (data (run plain_csv v7 (SmartAdd (lit "z") (lit "C3") (lit "d9"))
                    (fresh saved_store))))
   /\ parse_csv plain_csv
        (csv_text plain_csv
           (data (run plain_csv v7 (SmartAdd (lit "z") (lit "C3") (lit "d9"))
                    (fresh saved_store))))
      = inr (map read_back_row
               (data (run plain_csv v7
                        (SmartAdd (lit "z") (lit "C3") (lit "d9"))
                        (fresh saved_store))))
   /\ Forall nan_free
        (data (run plain_csv v7 (SmartAdd (lit "z") (lit "C3") (lit "d9"))
                 (fresh saved_store))))
  /\ data (load_db plain_csv v7
             (db_file (run plain_csv v7
                         (SmartAdd (lit "z") (lit "C3") (lit "d9"))
                         (fresh saved_store))))
     = data (run plain_csv v7 (SmartAdd (lit "z") (lit "C3") (lit "d9"))
               (fresh saved_store)).
Proof.
  assert (H1 : writes_table v7 (SmartAdd (lit "z") (lit "C3") (lit "d9"))
                 (fresh saved_store) = true) by reflexivity.
  assert (H2 : data (fresh saved_store) = [] ->
               db_file (fresh saved_store) = None) by reflexivity.
  assert (H3 : Forall scalar
                 (csv_text plain_csv
                    (data (run plain_csv v7
                             (SmartAdd (lit "z") (lit "C3") (lit "d9"))
                             (fresh saved_store)))))
    by (apply scalar_checked; vm_compute; reflexivity).
  assert (H4 : parse_csv plain_csv
                 (csv_text plain_csv
                    (data (run plain_csv v7
                             (SmartAdd (lit "z") (lit "C3") (lit "d9"))
                             (fresh saved_store))))
               = inr (map read_back_row
                        (data (run plain_csv v7
                                 (SmartAdd (lit "z") (lit "C3") (lit "d9"))
                                 (fresh saved_store)))))
    by (vm_compute; reflexivity).
  assert (H5 : Forall nan_free
                 (data (run plain_csv v7
                          (SmartAdd (lit "z") (lit "C3") (lit "d9"))
                          (fresh saved_store))))
    by (repeat constructor; vm_compute; discriminate).
  split; [auto 6|].
  exact (restart_restores_table plain_csv v7
           (SmartAdd (lit "z") (lit "C3") (lit "d9")) (fresh saved_store)
           H1 H2 H3 H4 H5).
Defined.

Lemma import_reports_sheet_rows_example :
  (read_excel good_upload = inr sheet /\ (3 <= shape1 sheet)%nat
   /\ raised_normalizing good_upload = None)
  /\ (exists earlier,
        notices (load_data_from_excel plain_csv v5 good_upload
                   (fresh spec_store))
        = earlier ++ [st_success (Imported (List.length (import_rows sheet)))])
  /\ (List.length (data (load_data_from_excel plain_csv v5 good_upload
                           (fresh spec_store)))
      <= List.length (drop_duplicates (data (fresh spec_store)))
         + List.length (import_rows sheet))%nat.
Proof.
  assert (H1 : read_excel good_upload = inr sheet) by reflexivity.
  assert (H2 : (3 <= shape1 sheet)%nat) by (simpl; lia).
  assert (H3 : raised_normalizing good_upload = None) by reflexivity.
  split; [auto|].
  exact (import_reports_sheet_rows plain_csv good_upload (fresh spec_store)
           sheet H1 H2 H3).
Defined.

Lemma compound_tiers_example :
  NoDup [lit "a"; lit "b"]
  /\ exists t,
       tiers [lit "a"; lit "b"]
         (feature_subset threshold_store [lit "a"; lit "b"] []) = Some t
       /\ forall c,
            (In c (shared_all t) <->
             (2 <= List.length [lit "a"; lit "b"])%nat
             /\ forall i, In i [lit "a"; lit "b"] ->
                          owns (feature_subset threshold_store
                                  [lit "a"; lit "b"] []) i c)
            /\ (In c (shared_some t) <->
                (exists i j,
                    i <> j
                    /\ owns (feature_subset threshold_store
                               [lit "a"; lit "b"] []) i c
                    /\ owns (feature_subset threshold_store
                               [lit "a"; lit "b"] []) j c)
                /\ exists i, In i [lit "a"; lit "b"]
                             /\ ~ owns (feature_subset threshold_store
                                          [lit "a"; lit "b"] []) i c)
            /\ forall i,
                 In c (dict_get (unique_map t) i) <->
                 owns (feature_subset threshold_store [lit "a"; lit "b"] [])
                   i c
                 /\ forall j, owns (feature_subset threshold_store
                                      [lit "a"; lit "b"] []) j c -> j = i.
Proof.
  assert (H : NoDup [lit "a"; lit "b"]).
  { repeat constructor; vm_compute; intuition discriminate. }
  split; [exact H|].
  exact (compound_tiers threshold_store [lit "a"; lit "b"] [] H).
Defined.

Lemma edge_weights_example :
  ((forall r, In r threshold_store ->
              ~ In (ingredient r) [lit "C1"; lit "C2"])
   /\ linked_by_row threshold_store [lit "b"] [lit "C1"; lit "C2"] [lit "a"]
        (lit "a") (lit "C1"))
  /\ edge_weight
       (get_graph_data v5 threshold_store [lit "b"] [lit "C1"; lit "C2"]
          [lit "a"]) (lit "a") (lit "C1")
     = Some (if isin (strong_secondary threshold_store [lit "C1"; lit "C2"]
                        [lit "a"]) (lit "a")
             then strong_weight v5 else 1%Q)
  /\ edge_weight
       (get_graph_data v5 threshold_store [lit "b"] [lit "C1"; lit "C2"]
          [lit "a"]) (lit "C1") (lit "a")
     = Some (if isin (strong_secondary threshold_store [lit "C1"; lit "C2"]
                        [lit "a"]) (lit "a")
             then strong_weight v5 else 1%Q)
  /\ (1 < strong_weight v5)%Q.
Proof.
  assert (H1 : forall r, In r threshold_store ->
                         ~ In (ingredient r) [lit "C1"; lit "C2"]).
  { intros r Hr. simpl in Hr.
    destruct Hr as [<-|[<-|[<-|[]]]]; vm_compute; intuition discriminate. }
  assert (H2 : linked_by_row threshold_store [lit "b"] [lit "C1"; lit "C2"]
                 [lit "a"] (lit "a") (lit "C1")).
  { exists (row "a" "C1" "d"). repeat split.
    - left; reflexivity.
    - left; reflexivity.
    - right; left; reflexivity. }
  split; [auto|].
  exact (edge_weights v5 threshold_store [lit "b"] [lit "C1"; lit "C2"]
           [lit "a"] (lit "a") (lit "C1") H1 H2).
Defined.
